(** * Position aggregation, limits and stream stages of the web app

    Shallow embedding of [src/api/pureHelpers.ts] and of the two stream
    operators [distinctArrayItem] and [optimisticContract] of
    [src/api/observables.ts].

    Numbers.  The code computes with two numeric types.  JavaScript's
    [number] is the IEEE 754 binary64 format: it is embedded as the
    [spec_float] of the standard library with its operations at
    precision 53 and maximal exponent 1024, rounding to the nearest,
    ties to even, with signed zeros, infinities and one [NaN].
    bignumber.js's [BigNumber] is embedded as the rationals extended
    with [NaN] and the two infinities: [plus], [minus] and [times] are
    exact, [dividedBy] rounds to [DECIMAL_PLACES] digits, half up.  A
    [BigNumber] becomes a [number] by rounding to the nearest binary64
    number, and a [number] becomes a [BigNumber] through its shortest
    decimal representation, as [String] prints it.  The one thing left
    out is the sign that bignumber.js keeps on a zero: a zero
    [BigNumber] is read back as [+0]. *)

From Stdlib Require Import QArith Qround Qabs ZArith Lia Lqa Ascii String Sorted.
From Stdlib Require Import SpecFloat.
From stdpp Require Import gmap strings list fin_maps pretty.

Open Scope Z_scope.

(** ** BigNumber: extended rationals *)

Inductive ext : Type :=
| Fin (q : Q)
| PInf
| NInf
| NaN.

Definition BigNumber := ext.

Definition ofZ (z : Z) : ext := Fin (inject_Z z).

Definition is_zero (q : Q) : bool := Qeq_bool q 0%Q.
Definition is_neg (q : Q) : bool := negb (Qle_bool 0%Q q).

(** [x.plus(y)] *)
Definition plus (x y : ext) : ext :=
  match x, y with
  | NaN, _ | _, NaN => NaN
  | PInf, NInf | NInf, PInf => NaN
  | PInf, _ | _, PInf => PInf
  | NInf, _ | _, NInf => NInf
  | Fin a, Fin b => Fin (Qred (a + b)%Q)
  end.

(** [x.minus(y)] *)
Definition minus (x y : ext) : ext :=
  match x, y with
  | NaN, _ | _, NaN => NaN
  | PInf, PInf | NInf, NInf => NaN
  | PInf, _ | _, NInf => PInf
  | NInf, _ | _, PInf => NInf
  | Fin a, Fin b => Fin (Qred (a - b)%Q)
  end.

Definition inf_of_sign (neg : bool) : ext := if neg then NInf else PInf.

(** [x.times(y)]: zero times an infinity is [NaN]. *)
Definition times (x y : ext) : ext :=
  match x, y with
  | NaN, _ | _, NaN => NaN
  | Fin a, Fin b => Fin (Qred (a * b)%Q)
  | Fin a, PInf | PInf, Fin a =>
      if is_zero a then NaN else inf_of_sign (is_neg a)
  | Fin a, NInf | NInf, Fin a =>
      if is_zero a then NaN else inf_of_sign (negb (is_neg a))
  | PInf, PInf | NInf, NInf => PInf
  | PInf, NInf | NInf, PInf => NInf
  end.

(** Division, parameterised by the rounding of a finite quotient. *)
Definition div_with (rnd : Q -> Q) (x y : ext) : ext :=
  match x, y with
  | NaN, _ | _, NaN => NaN
  | Fin a, Fin b =>
      if is_zero b then
        if is_zero a then NaN else inf_of_sign (is_neg a)
      else Fin (Qred (rnd (a / b)%Q))
  | Fin _, PInf | Fin _, NInf => Fin 0%Q
  | PInf, Fin b => inf_of_sign (is_neg b)
  | NInf, Fin b => inf_of_sign (negb (is_neg b))
  | _, _ => NaN
  end.

(** bignumber.js defaults: [DECIMAL_PLACES = 20], [ROUNDING_MODE = 4]
    ([ROUND_HALF_UP]: to the nearest, ties away from zero). *)
Definition DECIMAL_PLACES : nat := 20.

Definition round_half_up (q : Q) : Z :=
  if Qle_bool 0%Q q then Qfloor (q + (1 # 2))%Q
  else - Qfloor (- q + (1 # 2))%Q.

Definition round_dp (dp : nat) (q : Q) : Q :=
  (inject_Z (round_half_up (q * inject_Z (10 ^ Z.of_nat dp))%Q)
   / inject_Z (10 ^ Z.of_nat dp))%Q.

(** [x.dividedBy(y)] on [BigNumber]. *)
Definition dividedBy : BigNumber -> BigNumber -> BigNumber :=
  div_with (round_dp DECIMAL_PLACES).

(** [x.isGreaterThan(y)]: false as soon as one side is [NaN]. *)
Definition isGreaterThan (x y : ext) : bool :=
  match x, y with
  | NaN, _ | _, NaN => false
  | Fin a, Fin b => negb (Qle_bool a b)
  | PInf, PInf => false
  | PInf, _ => true
  | _, NInf => match x with NInf => false | _ => true end
  | _, _ => false
  end.

(** ** number: IEEE 754 binary64 *)

Definition prec : Z := 53.
Definition emax : Z := 1024.

Definition Number : Type := spec_float.

(** [x + y], [x - y], [x * y] and [x / y] on [number]. *)
Definition js_plus : Number -> Number -> Number := SFadd prec emax.
Definition js_minus : Number -> Number -> Number := SFsub prec emax.
Definition js_times : Number -> Number -> Number := SFmul prec emax.
Definition js_div : Number -> Number -> Number := SFdiv prec emax.

(** The binary64 number nearest to the ratio [n / d], ties to even: the
    quotient is taken with enough bits and rounded once. *)
Definition nearest (neg : bool) (n d : positive) : Number :=
  let '(m, e, l) := SFdiv_core_binary prec emax (Zpos n) 0 (Zpos d) 0 in
  binary_round_aux prec emax neg m e l.

(** The [number] a decimal literal of value [q] denotes. *)
Definition number_of_Q (q : Q) : Number :=
  let q := Qred q in
  match Qnum q with
  | Z0 => S754_zero false
  | Zpos n => nearest false n (Qden q)
  | Zneg n => nearest true n (Qden q)
  end.

Definition number_of_Z (z : Z) : Number := number_of_Q (inject_Z z).

(** The value [m * 2^e] of a finite [number], sign apart. *)
Definition Q_of_finite (m : positive) (e : Z) : Q :=
  match e with
  | Zneg p => Zpos m # (2 ^ p)
  | _ => inject_Z (Zpos m * 2 ^ e)
  end.

Definition same_number (x y : Number) : bool :=
  match x, y with
  | S754_zero a, S754_zero b => Bool.eqb a b
  | S754_infinity a, S754_infinity b => Bool.eqb a b
  | S754_nan, S754_nan => true
  | S754_finite a m e, S754_finite b m' e' =>
      Bool.eqb a b && (m =? m')%positive && (e =? e')
  | _, _ => false
  end.

(** Truthiness of a [number]: [0], [-0] and [NaN] are falsy. *)
Definition falsy (x : Number) : bool :=
  match x with
  | S754_zero _ | S754_nan => true
  | _ => false
  end.

(** [Number(x || 0)]. *)
Definition or_zero (x : Number) : Number :=
  if falsy x then S754_zero false else x.

(** *** Number::toString

    [String(x)] prints, for a finite [x] other than zero, the digits of
    the integer [s] with [k] digits, [k] as small as possible, such that
    [s * 10^p] is a decimal that reads back as [x]; when several [s] of
    [k] digits do, the one nearest to [x], and the even one of two
    equally near. *)

Definition pow10 (p : Z) : Q :=
  match p with
  | Zneg n => 1 # (10 ^ n)
  | _ => inject_Z (10 ^ p)
  end.

(** The number of decimal digits of [z > 0]. *)
Fixpoint digits10_go (fuel : nat) (z : Z) : Z :=
  match fuel with
  | O => 0
  | S f => if z <? 10 then 1 else 1 + digits10_go f (z / 10)
  end.

Definition digits10 (z : Z) : Z := digits10_go (Z.to_nat (Z.log2 z) + 1) z.

(** An [n] with [10^(n-1) <= v < 10^n], or one less, for [v > 0]. *)
Definition decimal_exponent (v : Q) : Z :=
  if Qle_bool 1 v then digits10 (Qfloor v)
  else 1 - digits10 (Qfloor (/ v)).

(** The decimals [s * 10^p] with [s] of [k] digits that read back as
    [x], of value [v]: for each exponent, the two nearest to [v] are
    tried. *)
Definition candidates (x : Number) (v : Q) (k : Z) : list (Z * Z) :=
  let n0 := decimal_exponent v in
  flat_map
    (fun n =>
       let p := n - k in
       let t := Qfloor (v / pow10 p) in
       List.filter
         (fun '(s, p) =>
            (10 ^ (k - 1) <=? s) && (s <? 10 ^ k)
            && same_number (number_of_Q (inject_Z s * pow10 p)) x)
         [(t, p); (t + 1, p)])
    [n0 - 1; n0; n0 + 1; n0 + 2].

Definition closer (v : Q) (a b : Z * Z) : Z * Z :=
  let da := Qabs (inject_Z (fst a) * pow10 (snd a) - v) in
  let db := Qabs (inject_Z (fst b) * pow10 (snd b) - v) in
  match (da ?= db)%Q with
  | Lt => a
  | Gt => b
  | Eq => if Z.even (fst a) then a else b
  end.

Fixpoint shortest (x : Number) (v : Q) (ks : list Z) : option (Z * Z) :=
  match ks with
  | [] => None
  | k :: ks' =>
      match candidates x v k with
      | [] => shortest x v ks'
      | c :: cs => Some (fold_left (closer v) cs c)
      end
  end.

(** The value of the decimal that [String] prints for the finite
    [number] of mantissa [m] and exponent [e]; seventeen digits always
    suffice. *)
Definition shortest_decimal (m : positive) (e : Z) : Q :=
  let v := Q_of_finite m e in
  match shortest (number_of_Q v) v
                 [1; 2; 3; 4; 5; 6; 7; 8; 9; 10; 11; 12; 13; 14; 15; 16; 17] with
  | Some (s, p) => Qred (inject_Z s * pow10 p)
  | None => Qred v
  end.

(** *** Between the two types *)

(** [new BigNumber(n)] for a [number] [n], as in [b.plus(n)] and
    [b.times(n)]: the constructor reads [String(n)]. *)
Definition BigNumber_of_number (n : Number) : BigNumber :=
  match n with
  | S754_nan => NaN
  | S754_infinity false => PInf
  | S754_infinity true => NInf
  | S754_zero _ => Fin 0
  | S754_finite false m e => Fin (shortest_decimal m e)
  | S754_finite true m e => Fin (Qred (- shortest_decimal m e))
  end.

(** [b.toNumber()] and [Number(b)]: the [number] that the decimal
    string of [b] denotes. *)
Definition toNumber (b : BigNumber) : Number :=
  match b with
  | NaN => S754_nan
  | PInf => S754_infinity false
  | NInf => S754_infinity true
  | Fin q => number_of_Q q
  end.

(** ** Exceptions *)

Inductive exn : Type :=
| TypeError.

Inductive result (A : Type) : Type :=
| Ok (a : A)
| Throw (e : exn).
Arguments Ok {A} a.
Arguments Throw {A} e.

Definition bind {A B : Type} (r : result A) (k : A -> result B) : result B :=
  match r with
  | Ok a => k a
  | Throw e => Throw e
  end.

Notation "'let!' x ':=' r 'in' k" := (bind r (fun x => k))
  (at level 10, x name, r at level 100, k at level 200).

(** [arr.reduce(f)] without an initial value: a [TypeError] on the empty
    array, otherwise the first element is the initial accumulator. *)
Definition reduce {A : Type} (f : A -> A -> A) (l : list A) : result A :=
  match l with
  | [] => Throw TypeError
  | x :: l' => Ok (fold_left f l' x)
  end.

(** A [reduce] whose callback can throw. *)
Fixpoint reduceM {A S : Type} (f : S -> A -> result S) (l : list A) (s : S)
  : result S :=
  match l with
  | [] => Ok s
  | x :: l' => let! s' := f s x in reduceM f l' s'
  end.

(** ** Records

    The types of [@/types/bancor], with the fields that
    [groupPositionsArray] reads or writes.  Amounts and prices are
    [number]s, the pending reward is a [BigNumber], and the two times,
    [insuranceStart] and [unixTime], are integers; [apr], the coverage
    fields and the ids are only copied. *)

(** [{ amount }], as in [x.fullyProtected.amount]. *)
Record ViewAmountDetail : Type := {
  amount : Number
}.

(** A raw position. *)
Module ViewProtectedLiquidity.

Record ViewAmountWithMeta : Type := {
  amount : Number;
  symbol : string;
  poolId : string;
  unixTime : Z
}.

Record t : Type := {
  id : string;
  stake : ViewAmountWithMeta;
  protectedAmount : option ViewAmountDetail;
  fullyProtected : option ViewAmountDetail;
  fees : option ViewAmountDetail;
  apr : Number;
  insuranceStart : Z;
  coverageDecPercent : Number;
  fullCoverage : Z;
  pendingReserveReward : BigNumber;
  reserveTokenPrice : Number;
  bntTokenPrice : Number
}.

End ViewProtectedLiquidity.

(** A group of positions.  [Stake] is the object literal assigned to
    [item.stake], [Amount] the one assigned to [item.fullyProtected] and
    to [item.protectedAmount]. *)
Module ViewGroupedPositions.

Record Stake : Type := {
  amount : Number;
  usdValue : Number;
  unixTime : Z
}.

Record Amount : Type := {
  amount' : Number;
  usdValue' : Number
}.

Record t : Type := {
  collapsedData : list ViewProtectedLiquidity.t;
  id : string;
  positionId : string;
  poolId : string;
  symbol : string;
  apr : Number;
  insuranceStart : Z;
  coverageDecPercent : Number;
  fullCoverage : Z;
  pendingReserveReward : BigNumber;
  stake : Stake;
  fullyProtected : Amount;
  protectedAmount : Amount;
  roi : Number;
  fees : Number
}.

End ViewGroupedPositions.

Module PL := ViewProtectedLiquidity.
Module GP := ViewGroupedPositions.

(** ** fast-sort

    [sort(a).desc(key)] sorts [a] in place with the engine's stable
    [Array.prototype.sort]: larger keys first, equal keys in their
    previous order. *)

Fixpoint insert_desc {A : Type} (key : A -> Z) (v : A) (l : list A) : list A :=
  match l with
  | [] => [v]
  | x :: l' =>
      if key x <? key v then v :: x :: l' else x :: insert_desc key v l'
  end.

Definition sort_desc {A : Type} (key : A -> Z) (l : list A) : list A :=
  fold_left (fun sorted v => insert_desc key v sorted) l [].

(** ** groupPositionsArray *)

Section GroupPositions.

(** [compareString] of [@/api/helpers], which is imported. *)
Variable compareString : string -> string -> bool.

(** [`${poolId}-${symbol}`] *)
Definition group_id (poolId symbol : string) : string :=
  String.append poolId (String.append "-" symbol).

Definition id_of (val : PL.t) : string :=
  group_id (PL.poolId (PL.stake val)) (PL.symbol (PL.stake val)).

(** [arr.filter(x => x.stake.poolId === poolId && x.stake.symbol === symbol)] *)
Definition filtered_of (arr : list PL.t) (poolId symbol : string) : list PL.t :=
  filter (fun x => PL.poolId (PL.stake x) = poolId
                   /\ PL.symbol (PL.stake x) = symbol) arr.

Definition detail_amount (d : option ViewAmountDetail) : Number :=
  match d with
  | Some a => amount a
  | None => S754_zero false
  end.

(** The body of [if (!item) { ... }] up to [obj.set] and [acc.push]:
    the object built for the first position [val] of a group. *)
Definition new_item (arr : list PL.t) (val : PL.t) : result GP.t :=
  let symbol := PL.symbol (PL.stake val) in
  let poolId := PL.poolId (PL.stake val) in
  let id := group_id poolId symbol in
  let filtered := filtered_of arr poolId symbol in
  let item_pendingReserveReward := PL.pendingReserveReward val in
  let! sumStakeAmount :=
    reduce js_plus (map (fun x => or_zero (PL.amount (PL.stake x))) filtered) in
  let! sumFullyProtected :=
    reduce js_plus
           (map (fun x => detail_amount (PL.fullyProtected x)) filtered) in
  let! sumProtectedAmount :=
    reduce js_plus
           (map (fun x => detail_amount (PL.protectedAmount x)) filtered) in
  let '(sumFullyProtectedWithReward, sumProtectedWithReward) :=
    if compareString symbol "BNT" then
      (plus item_pendingReserveReward (BigNumber_of_number sumFullyProtected),
       plus item_pendingReserveReward (BigNumber_of_number sumProtectedAmount))
    else
      let bntRewardUsd :=
        times item_pendingReserveReward
              (BigNumber_of_number (PL.bntTokenPrice val)) in
      (plus (dividedBy bntRewardUsd
                       (BigNumber_of_number (PL.reserveTokenPrice val)))
            (BigNumber_of_number sumFullyProtected),
       plus (dividedBy bntRewardUsd
                       (BigNumber_of_number (PL.reserveTokenPrice val)))
            (BigNumber_of_number sumProtectedAmount)) in
  let sumFullyProtectedWithRewardUSD :=
    js_times (toNumber sumFullyProtectedWithReward)
             (PL.reserveTokenPrice val) in
  let sumProtectedWithRewardUSD :=
    js_times (toNumber sumProtectedWithReward) (PL.reserveTokenPrice val) in
  let sumFees :=
    fold_left js_plus (map (fun x => detail_amount (PL.fees x)) filtered)
              (S754_zero false) in
  Ok {| GP.collapsedData := [];
        GP.id := id;
        GP.positionId := PL.id val;
        GP.poolId := poolId;
        GP.symbol := symbol;
        GP.apr := PL.apr val;
        GP.insuranceStart := PL.insuranceStart val;
        GP.coverageDecPercent := PL.coverageDecPercent val;
        GP.fullCoverage := PL.fullCoverage val;
        GP.pendingReserveReward := item_pendingReserveReward;
        GP.stake :=
          {| GP.amount := sumStakeAmount;
             GP.usdValue := js_times sumStakeAmount (PL.reserveTokenPrice val);
             GP.unixTime := PL.unixTime (PL.stake val) |};
        GP.fullyProtected :=
          {| GP.amount' := toNumber sumFullyProtectedWithReward;
             GP.usdValue' := sumFullyProtectedWithRewardUSD |};
        GP.protectedAmount :=
          {| GP.amount' := toNumber sumProtectedWithReward;
             GP.usdValue' := sumProtectedWithRewardUSD |};
        GP.roi :=
          js_div (js_minus (toNumber sumFullyProtectedWithReward)
                           sumStakeAmount)
                 sumStakeAmount;
        GP.fees := sumFees |}.

(** [if (item.insuranceStart > val.insuranceStart) { ... }] *)
Definition earlier_insurance (val : PL.t) (item : GP.t) : GP.t :=
  if PL.insuranceStart val <? GP.insuranceStart item then
    {| GP.collapsedData := GP.collapsedData item;
       GP.id := GP.id item;
       GP.positionId := GP.positionId item;
       GP.poolId := GP.poolId item;
       GP.symbol := GP.symbol item;
       GP.apr := GP.apr item;
       GP.insuranceStart := PL.insuranceStart val;
       GP.coverageDecPercent := PL.coverageDecPercent val;
       GP.fullCoverage := PL.fullCoverage val;
       GP.pendingReserveReward := GP.pendingReserveReward item;
       GP.stake :=
         {| GP.amount := GP.amount (GP.stake item);
            GP.usdValue := GP.usdValue (GP.stake item);
            GP.unixTime := PL.unixTime (PL.stake val) |};
       GP.fullyProtected := GP.fullyProtected item;
       GP.protectedAmount := GP.protectedAmount item;
       GP.roi := GP.roi item;
       GP.fees := GP.fees item |}
  else item.

(** [item.collapsedData.push(val); item.collapsedData = sort(...).desc(...)] *)
Definition collapse (val : PL.t) (item : GP.t) : GP.t :=
  {| GP.collapsedData :=
       sort_desc (fun p => PL.unixTime (PL.stake p))
                 (GP.collapsedData item ++ [val]);
     GP.id := GP.id item;
     GP.positionId := GP.positionId item;
     GP.poolId := GP.poolId item;
     GP.symbol := GP.symbol item;
     GP.apr := GP.apr item;
     GP.insuranceStart := GP.insuranceStart item;
     GP.coverageDecPercent := GP.coverageDecPercent item;
     GP.fullCoverage := GP.fullCoverage item;
     GP.pendingReserveReward := GP.pendingReserveReward item;
     GP.stake := GP.stake item;
     GP.fullyProtected := GP.fullyProtected item;
     GP.protectedAmount := GP.protectedAmount item;
     GP.roi := GP.roi item;
     GP.fees := GP.fees item |}.

(** What the two trailing [if]s of the callback do to [item]. *)
Definition touch (arr : list PL.t) (val : PL.t) (item : GP.t) : GP.t :=
  let filtered :=
    filtered_of arr (PL.poolId (PL.stake val)) (PL.symbol (PL.stake val)) in
  let item := earlier_insurance val item in
  if (1 <? length filtered)%nat then collapse val item else item.

(** The state of the reduction.  [acc] is the array being built; [obj]
    is the [Map] from ids to the objects of [acc].  An object is held by
    both, so [obj] maps an id to the index of its object in [acc], and a
    field assignment through either is an [alter] at that index. *)
Definition state : Type := gmap string nat * list GP.t.

(** The reducer [(acc, val) => { ... }], closed over [obj] and [arr]. *)
Definition reducer (arr : list PL.t) (st : state) (val : PL.t) : result state :=
  let '(obj, acc) := st in
  let id := id_of val in
  let! found :=
    match obj !! id with
    | Some i => Ok (obj, acc, i)
    | None =>
        let! item := new_item arr val in
        Ok (<[id := length acc]> obj, acc ++ [item], length acc)
    end in
  let '(obj, acc, i) := found in
  Ok (obj, alter (touch arr val) i acc).

(** [arr[0].pendingReserveReward] is evaluated for the [console.log]
    before anything else: [arr[0]] is [undefined] on the empty array. *)
Definition groupPositionsArray (arr : list PL.t) : result (list GP.t) :=
  match arr with
  | [] => Throw TypeError
  | _ :: _ =>
      let! st := reduceM (reducer arr) arr (∅, []) in
      Ok (snd st)
  end.

End GroupPositions.

(** ** calculatePriceDeviationTooHigh *)

Definition oneMillion : BigNumber := ofZ 1000000.

Definition calculatePriceDeviationTooHigh
  (averageRate primaryReserveBalance secondaryReserveBalance
   averageRateMaxDeviation : BigNumber) : bool :=
  let spotRate := dividedBy primaryReserveBalance secondaryReserveBalance in
  let averageRateMaxDeviationBase := minus oneMillion averageRateMaxDeviation in
  let threshold := dividedBy averageRate spotRate in
  let withinLowerThreshold :=
    isGreaterThan threshold (dividedBy averageRateMaxDeviationBase oneMillion) in
  let withinHigherThreshold :=
    isGreaterThan (dividedBy oneMillion averageRateMaxDeviationBase) threshold in
  let priceDeviationTooHigh := negb (withinLowerThreshold && withinHigherThreshold) in
  priceDeviationTooHigh.

(** ** calculateLimits *)

Record Limits : Type := {
  bntLimitWei : string;
  tknLimitWei : BigNumber
}.

Section CalculateLimits.

(** [new BigNumber(s)] for a string [s]: the constructor of bignumber.js. *)
Variable new_BigNumber : string -> BigNumber.

Definition calculateLimits
  (poolLimitWei defaultLimitWei mintedWei tknReserveBalance
   bntReserveBalance : string) : Limits :=
  let limitOrDefault :=
    new_BigNumber
      (if negb (String.eqb poolLimitWei "0") then poolLimitWei
       else defaultLimitWei) in
  let tknDelta := minus limitOrDefault (new_BigNumber mintedWei) in
  let bntRate :=
    dividedBy (new_BigNumber tknReserveBalance)
              (new_BigNumber bntReserveBalance) in
  let tknLimitWei := times bntRate tknDelta in
  let tknLimitWei :=
    times tknLimitWei
          (dividedBy (new_BigNumber "99.9") (new_BigNumber "100")) in
  {| bntLimitWei := mintedWei; tknLimitWei := tknLimitWei |}.

End CalculateLimits.

(** The constructor on plain decimal literals: an optional minus sign,
    then digits with an optional fractional part, at least one digit in
    all.  Any other string is read as [NaN] here; the whole constructor
    is [BigNumber_of_string] below. *)
Definition digit_of (c : ascii) : option Z :=
  let n := Z.of_nat (nat_of_ascii c) in
  if (48 <=? n) && (n <=? 57) then Some (n - 48) else None.

Fixpoint read_digits (s : string) (value : Z) (count : nat) : Z * nat * string :=
  match s with
  | EmptyString => (value, count, s)
  | String c rest =>
      match digit_of c with
      | Some d => read_digits rest (10 * value + d) (S count)
      | None => (value, count, s)
      end
  end.

Definition decimal_literal (s : string) : BigNumber :=
  let '(neg, body) :=
    match s with
    | String "-" rest => (true, rest)
    | _ => (false, s)
    end in
  let sign (q : Q) : BigNumber := Fin (Qred (if neg : bool then - q else q)%Q) in
  let '(int_part, n1, rest) := read_digits body 0 0 in
  match rest with
  | EmptyString => if (0 <? n1)%nat then sign (inject_Z int_part) else NaN
  | String "." frac =>
      let '(frac_part, n2, rest') := read_digits frac 0 0 in
      match rest' with
      | EmptyString =>
          if (0 <? n1 + n2)%nat then
            sign (inject_Z int_part
                  + inject_Z frac_part / inject_Z (10 ^ Z.of_nat n2))%Q
          else NaN
      | _ => NaN
      end
  | _ => NaN
  end.

(** ** Stream stages

    An observable is followed through the finite sequence of its [next]
    notifications; an operator maps the notifications of its source to
    its own.  Every operator used below handles a notification
    synchronously and completely before the next one. *)

Definition startWith {A : Type} (v : A) (source : list A) : list A := v :: source.

Fixpoint scan {A S : Type} (f : S -> A -> S) (seed : S) (source : list A) : list S :=
  match source with
  | [] => []
  | x :: rest => let s := f seed x in s :: scan f s rest
  end.

Definition pluck {A B : Type} (field : A -> B) (source : list A) : list B :=
  map field source.

(** [distinctUntilChanged(compare)]: the first value passes; a later one
    passes unless [compare(previous passed value, value)]. *)
Fixpoint distinct_after {A : Type} (compare : A -> A -> bool) (prev : A)
  (source : list A) : list A :=
  match source with
  | [] => []
  | x :: rest =>
      if compare prev x then distinct_after compare prev rest
      else x :: distinct_after compare x rest
  end.

Definition distinctUntilChanged {A : Type} (compare : A -> A -> bool)
  (source : list A) : list A :=
  match source with
  | [] => []
  | x :: rest => x :: distinct_after compare x rest
  end.

(** *** distinctArrayItem *)

Section DistinctArrayItem.

Context {T : Type} `{EqDecision T}.

Record DataCache : Type := {
  allEmissions : list T;
  newData : list T
}.

(** lodash's [isEqual]: structural equality. *)
Definition isEqual (a b : T) : bool := bool_decide (a = b).

(** lodash's [differenceWith(array, values, comparator)]: the elements
    of [array], in order, that [comparator] relates to no element of
    [values]. *)
Definition differenceWith (array values : list T)
  (comparator : T -> T -> bool) : list T :=
  List.filter (fun x => negb (existsb (comparator x) values)) array.

Definition accumulate (comparator : option (T -> T -> bool))
  (acc : DataCache) (item : list T) : DataCache :=
  let difference :=
    differenceWith item (allEmissions acc)
                   (match comparator with Some c => c | None => isEqual end) in
  {| allEmissions := allEmissions acc ++ difference;
     newData := difference |}.

Definition distinctArrayItem (initialValue : list T)
  (comparator : option (T -> T -> bool)) (source : list (list T))
  : list (list T) :=
  startWith initialValue
    (pluck newData
       (List.filter (fun dataCache => (0 <? length (newData dataCache))%nat)
          (scan (accumulate comparator)
                {| allEmissions := initialValue; newData := [] |}
                source))).

End DistinctArrayItem.

(** *** optimisticContract *)

(** [localStorage], with the calls of [setItem] recorded in order. *)
Record LocalStorage : Type := {
  items : gmap string string;
  setItem_calls : list (string * string)
}.

Definition getItem (key : string) (ls : LocalStorage) : option string :=
  items ls !! key.

Definition setItem (key value : string) (ls : LocalStorage) : LocalStorage :=
  {| items := <[key := value]> (items ls);
     setItem_calls := setItem_calls ls ++ [(key, value)] |}.

(** [tap(effect)]: the values pass unchanged, [effect] runs on each. *)
Definition tap {A : Type} (effect : A -> LocalStorage -> LocalStorage)
  (source : list A) (ls : LocalStorage) : list A * LocalStorage :=
  (source, fold_left (fun ls data => effect data ls) source ls).

Section OptimisticContract.

Variable compareString : string -> string -> bool.

(** The stage applied to [source], subscribed once; [ls] is the storage
    when the stage is built.  [if (cachedData)] fails on [null] and on
    the empty string. *)
Definition optimisticContract (key : string) (source : list string)
  (ls : LocalStorage) : list string * LocalStorage :=
  let cachedData := getItem key ls in
  match cachedData with
  | Some cached =>
      if negb (String.eqb cached "") then
        tap (fun data ls =>
               let isSame := String.eqb cached data in
               if negb isSame then setItem key data ls else ls)
            (distinctUntilChanged compareString (startWith cached source))
            ls
      else
        tap (fun data ls => setItem key data ls)
            (distinctUntilChanged compareString source) ls
  | None =>
      tap (fun data ls => setItem key data ls)
          (distinctUntilChanged compareString source) ls
  end.

End OptimisticContract.

(** ** Vocabulary of the statements *)

(** The sum of a list of integers. *)
Fixpoint Zsum (l : list Z) : Z :=
  match l with
  | [] => 0
  | z :: l' => z + Zsum l'
  end.

(** [p] shifted left by [k] bits. *)
Definition shifted (p : positive) (k : Z) : positive :=
  match k with
  | Zpos j => Pos.iter xO p j
  | _ => p
  end.

(** The [number] of the positive integer [n] of at most 53 bits: the
    mantissa is [n] shifted to 53 bits. *)
Definition number_of_positive (n : positive) : Number :=
  S754_finite false (shifted n (53 - Zpos (digits2_pos n)))
              (Zpos (digits2_pos n) - 53).

(** Larger keys first. *)
Definition descending {A : Type} (key : A -> Z) (l : list A) : Prop :=
  Sorted (fun a b => key b <= key a) l.

(** The position [p] with the pool, the symbol, the stake, the fully
    protected amount and the pending reward replaced. *)
Definition with_amounts (p : PL.t) (poolId symbol : string)
  (stake fullyProtected : Number) (reward : BigNumber) : PL.t :=
  {| PL.id := PL.id p;
     PL.stake :=
       {| PL.amount := stake;
          PL.symbol := symbol;
          PL.poolId := poolId;
          PL.unixTime := PL.unixTime (PL.stake p) |};
     PL.protectedAmount := PL.protectedAmount p;
     PL.fullyProtected := Some {| amount := fullyProtected |};
     PL.fees := PL.fees p;
     PL.apr := PL.apr p;
     PL.insuranceStart := PL.insuranceStart p;
     PL.coverageDecPercent := PL.coverageDecPercent p;
     PL.fullCoverage := PL.fullCoverage p;
     PL.pendingReserveReward := reward;
     PL.reserveTokenPrice := PL.reserveTokenPrice p;
     PL.bntTokenPrice := PL.bntTokenPrice p |}.

Section GroupVocabulary.

Variable compareString : string -> string -> bool.

(** The positions of [vs] whose id is [k], in order. *)
Definition members (k : string) (vs : list PL.t) : list PL.t :=
  filter (fun v => id_of v = k) vs.

(** The callback's trailing updates, for the positions [ms] in turn. *)
Definition touches (arr ms : list PL.t) (g0 : GP.t) : GP.t :=
  fold_left (fun item v => touch arr v item) ms g0.

(** [g] is the object of id [k] once the positions [vs] have been
    reduced: built from the first position of that id, then updated by
    every position of that id, the first included. *)
Definition group_of (arr vs : list PL.t) (k : string) (g : GP.t) : Prop :=
  exists f ms g0,
    members k vs = f :: ms
    /\ new_item compareString arr f = Ok g0
    /\ g = touches arr (f :: ms) g0.

(** What holds of the state after the positions [vs]. *)
Record reduced (arr vs : list PL.t) (st : state) : Prop := {
  reduced_obj : forall k i,
    st.1 !! k = Some i <-> exists g, st.2 !! i = Some g /\ GP.id g = k;
  reduced_seen : forall k, is_Some (st.1 !! k) <-> k ∈ map id_of vs;
  reduced_group : forall i g,
    st.2 !! i = Some g -> group_of arr vs (GP.id g) g
}.

(** No two positions of [arr] with different (poolId, symbol) pairs
    have the same id string. *)
Definition distinct_ids (arr : list PL.t) : Prop :=
  forall x y, x ∈ arr -> y ∈ arr -> id_of x = id_of y ->
    PL.poolId (PL.stake x) = PL.poolId (PL.stake y)
    /\ PL.symbol (PL.stake x) = PL.symbol (PL.stake y).

(** The positions of [arr] with the pool and symbol of [v]. *)
Definition filtered_like (arr : list PL.t) (v : PL.t) : list PL.t :=
  filtered_of arr (PL.poolId (PL.stake v)) (PL.symbol (PL.stake v)).


End GroupVocabulary.

(** ** Sample inputs *)

(** A position with the given id, pool, symbol, stake, fully protected
    amount and pending reward; prices are 1 and the other numbers 0. *)
Definition sample (id poolId symbol : string) (stake fullyProtected reward : Z)
  : PL.t :=
  {| PL.id := id;
     PL.stake :=
       {| PL.amount := number_of_Z stake;
          PL.symbol := symbol;
          PL.poolId := poolId;
          PL.unixTime := 0 |};
     PL.protectedAmount := None;
     PL.fullyProtected := Some {| amount := number_of_Z fullyProtected |};
     PL.fees := None;
     PL.apr := number_of_Z 0;
     PL.insuranceStart := 0;
     PL.coverageDecPercent := number_of_Z 0;
     PL.fullCoverage := 0;
     PL.pendingReserveReward := ofZ reward;
     PL.reserveTokenPrice := number_of_Z 1;
     PL.bntTokenPrice := number_of_Z 1 |}.

(** The two positions of the scenario of the specification. *)
Definition scenario : list PL.t :=
  [sample "1" "P1" "BNT" 100 110 5; sample "2" "P1" "BNT" 50 55 2].

(** Two pairs, (["A-B"], ["C"]) and (["A"], ["B-C"]), with one id string. *)
Definition colliding : list PL.t :=
  [sample "1" "A-B" "C" 1 1 0; sample "2" "A" "B-C" 2 2 0].

(** Two pairs with two id strings. *)
Definition two_pools : list PL.t :=
  [sample "1" "P1" "BNT" 100 110 5; sample "2" "P2" "ETH" 7 8 1;
   sample "3" "P1" "BNT" 50 55 2].

(** A position of pool ["P1"] and symbol ["BNT"] whose stake, fully
    protected amount, fees, [apr] and coverage are [tenths / 10], with
    the given id, pending reward and times; its [fullCoverage] is the
    time of its stake. *)
Definition tenths_position (id : string) (tenths reward : Z)
  (insuranceStart unixTime : Z) : PL.t :=
  let x := number_of_Q (tenths # 10) in
  {| PL.id := id;
     PL.stake :=
       {| PL.amount := x;
          PL.symbol := "BNT";
          PL.poolId := "P1";
          PL.unixTime := unixTime |};
     PL.protectedAmount := Some {| amount := x |};
     PL.fullyProtected := Some {| amount := x |};
     PL.fees := Some {| amount := x |};
     PL.apr := x;
     PL.insuranceStart := insuranceStart;
     PL.coverageDecPercent := x;
     PL.fullCoverage := unixTime;
     PL.pendingReserveReward := ofZ reward;
     PL.reserveTokenPrice := number_of_Z 1;
     PL.bntTokenPrice := number_of_Z 1 |}.

(** A single position with a pending reward and the two prices, and
    every amount zero. *)
Definition priced (id poolId symbol : string)
  (reward bntTokenPrice reserveTokenPrice : Z) : PL.t :=
  {| PL.id := id;
     PL.stake :=
       {| PL.amount := number_of_Z 0;
          PL.symbol := symbol;
          PL.poolId := poolId;
          PL.unixTime := 0 |};
     PL.protectedAmount := None;
     PL.fullyProtected := None;
     PL.fees := None;
     PL.apr := number_of_Z 0;
     PL.insuranceStart := 0;
     PL.coverageDecPercent := number_of_Z 0;
     PL.fullCoverage := 0;
     PL.pendingReserveReward := ofZ reward;
     PL.reserveTokenPrice := number_of_Z reserveTokenPrice;
     PL.bntTokenPrice := number_of_Z bntTokenPrice |}.

(** Three positions of one pair, with stakes 0.1, 0.2 and 0.3, that
    start their insurance at the same time. *)
Definition tied : list PL.t :=
  [tenths_position "1" 1 0 0 100; tenths_position "2" 2 0 0 200;
   tenths_position "3" 3 0 0 300].


(** ** Vocabulary for the stream stages *)

Section AccumulatorVocabulary.

Context {T : Type} `{EqDecision T}.

Definition comparator_or_isEqual (comparator : option (T -> T -> bool))
  : T -> T -> bool :=
  match comparator with
  | Some c => c
  | None => isEqual
  end.

(** [allEmissions] once the batches of [source] have been scanned. *)
Definition seen_after (initialValue : list T)
  (comparator : option (T -> T -> bool)) (source : list (list T)) : list T :=
  allEmissions
    (fold_left (accumulate comparator) source
               {| allEmissions := initialValue; newData := [] |}).

(** The elements of [batch], in order, that the comparator relates to
    no element of [seen]. *)
Definition unseen (comparator : option (T -> T -> bool)) (seen batch : list T)
  : list T :=
  filter (fun x =>
            Forall (fun y => comparator_or_isEqual comparator x y = false) seen)
         batch.

End AccumulatorVocabulary.

(** A storage holding [value] under [key] and nothing else, no call of
    [setItem] made yet. *)
Definition stored (key value : string) : LocalStorage :=
  {| items := {[key := value]}; setItem_calls := [] |}.

(** ** toFixed, expandToken and decToPpm *)

(** The two rounding modes in use: [1] ([ROUND_DOWN], towards zero) and
    [4] ([ROUND_HALF_UP], the default). *)
Inductive rounding_mode : Type :=
| ROUND_DOWN
| ROUND_HALF_UP.

(** Both modes round the magnitude and keep the sign. *)
Definition round_magnitude (rm : rounding_mode) (m : Q) : Z :=
  match rm with
  | ROUND_DOWN => Qfloor m
  | ROUND_HALF_UP => Qfloor (m + (1 # 2))%Q
  end.

(** The last [width] decimal digits of [n], most significant first, in
    front of [s]. *)
Fixpoint fixed_digits_go (width : nat) (n : N) (s : string) : string :=
  match width with
  | O => s
  | S w =>
      fixed_digits_go w (n `div` 10)%N (String (pretty_N_char (n `mod` 10)%N) s)
  end.

Definition fixed_digits (width : nat) (n : N) : string :=
  fixed_digits_go width n "".

(** [x.toFixed(dp, rm)]: normal notation with exactly [dp] decimals, never
    an exponent; the sign is that of [x] before rounding, so that a small
    negative number prints as ["-0.00"]. *)
Definition toFixed (dp : nat) (rm : rounding_mode) (x : BigNumber) : string :=
  match x with
  | NaN => "NaN"
  | PInf => "Infinity"
  | NInf => "-Infinity"
  | Fin q =>
      let scale := (10 ^ N.of_nat dp)%N in
      let n := Z.to_N (round_magnitude rm (Qabs q * inject_Z (Z.of_N scale))%Q) in
      let str :=
        pretty (n `div` scale)%N
        +:+ match dp with
            | O => ""
            | S _ => "." +:+ fixed_digits dp (n `mod` scale)%N
            end in
      if is_neg q then "-" +:+ str else str
  end.

(** *** The constructor on strings

    [new BigNumber(v)] for a string [v], as bignumber.js 9 does it with
    its default configuration.  A string is the sequence of its code
    units, all below 256.  A string that matches [isNumeric], that is a
    decimal literal as [decimal_literal] reads it, followed or not by
    an exponent [e], [e+] or [e-] and digits, is read as the decimal it
    writes; any other string goes to [parseNumeric], which drops
    surrounding blanks and a leading plus sign, knows [Infinity] and
    [NaN], and reads the prefixes [0x], [0b] and [0o]. *)

Definition MAX_EXP : Z := 1000000000.

Definition code (c : ascii) : Z := Z.of_nat (nat_of_ascii c).

(** The classes [\s] and [\w] of regular expressions. *)
Definition is_space (c : ascii) : bool :=
  let n := code c in
  ((9 <=? n) && (n <=? 13)) || (n =? 32) || (n =? 160).

Definition is_upper (c : ascii) : bool := (65 <=? code c) && (code c <=? 90).
Definition is_lower (c : ascii) : bool := (97 <=? code c) && (code c <=? 122).

Definition is_word (c : ascii) : bool :=
  is_upper c || is_lower c || ((48 <=? code c) && (code c <=? 57))
  || (code c =? 95).

Definition is_word_or_dot (c : ascii) : bool := is_word c || (code c =? 46).

Fixpoint string_forall (f : ascii -> bool) (s : string) : bool :=
  match s with
  | EmptyString => true
  | String c rest => f c && string_forall f rest
  end.

Fixpoint string_map (f : ascii -> ascii) (s : string) : string :=
  match s with
  | EmptyString => EmptyString
  | String c rest => String (f c) (string_map f rest)
  end.

(** [toLowerCase] and [toUpperCase], on the letters [\w] has. *)
Definition toLowerCase : string -> string :=
  string_map (fun c =>
    if is_upper c then ascii_of_nat (nat_of_ascii c + 32) else c).

Definition toUpperCase : string -> string :=
  string_map (fun c =>
    if is_lower c then ascii_of_nat (nat_of_ascii c - 32) else c).

(** [whitespaceOrPlus] is removed: blanks in front, with a plus sign
    after them when a word character or a dot follows it, and blanks at
    the end. *)
Fixpoint drop_spaces (s : string) : string :=
  match s with
  | EmptyString => EmptyString
  | String c rest => if is_space c then drop_spaces rest else s
  end.

Fixpoint drop_trailing_spaces (s : string) : string :=
  match s with
  | EmptyString => EmptyString
  | String c rest =>
      match drop_trailing_spaces rest with
      | EmptyString => if is_space c then EmptyString else String c EmptyString
      | rest' => String c rest'
      end
  end.

Definition strip_blanks_or_plus (s : string) : string :=
  let t := drop_spaces s in
  drop_trailing_spaces
    match t with
    | String "+" (String c rest) =>
        if is_word_or_dot c then String c rest else t
    | _ => t
    end.

(** A leading minus sign, split off. *)
Definition split_minus (s : string) : bool * string :=
  match s with
  | String "-" rest => (true, rest)
  | _ => (false, s)
  end.

Definition signed (neg : bool) (q : Q) : Q := if neg then (- q)%Q else q.

(** A literal with an exponent: the digits [M] of the integer and the
    fractional part, [n2] of them fractional, and the exponent [E]
    denote [M * 10^(E - n2)]; the exponent of the leading digit is held
    within [-MAX_EXP] and [MAX_EXP], beyond which the constructor
    gives an infinity or zero. *)
Definition exponent_literal (s : string) : option BigNumber :=
  let '(neg, body) := split_minus s in
  let '(int_part, n1, rest) := read_digits body 0 0 in
  let '(frac_part, n2, rest, mantissa) :=
    match rest with
    | String "." frac =>
        let '(frac_part, n2, rest') := read_digits frac 0 0 in
        (frac_part, n2, rest', (0 <? n1 + n2)%nat)
    | _ => (0, O, rest, (0 <? n1)%nat)
    end in
  match rest with
  | String e rest =>
      if mantissa && ((code e =? 101) || (code e =? 69)) then
        let '(neg_exp, digits) :=
          match rest with
          | String "+" r => (false, r)
          | String "-" r => (true, r)
          | _ => (false, rest)
          end in
        let '(exp_part, n3, rest') := read_digits digits 0 0 in
        match rest' with
        | EmptyString =>
            if (0 <? n3)%nat then
              let E := if neg_exp then - exp_part else exp_part in
              let M := int_part * 10 ^ Z.of_nat n2 + frac_part in
              if M =? 0 then Some (Fin 0)
              else
                let leading := Z.of_nat n1 + E - (Z.of_nat (n1 + n2) - digits10 M) - 1 in
                if MAX_EXP <? leading then Some (if neg then NInf else PInf)
                else if leading <? - MAX_EXP then Some (Fin 0)
                else
                  Some (Fin (Qred (signed neg
                                     (inject_Z M * pow10 (E - Z.of_nat n2)))))
            else None
        | _ => None
        end
      else None
  | EmptyString => None
  end.

(** [isInfinityOrNaN]: the two words, with or without a minus sign. *)
Definition infinity_or_nan (s : string) : option BigNumber :=
  if String.eqb s "Infinity" then Some PInf
  else if String.eqb s "-Infinity" then Some NInf
  else if String.eqb s "NaN" || String.eqb s "-NaN" then Some NaN
  else None.

(** [basePrefix]: an optional minus sign, [0] and one of the letters
    [x], [b], [o] in either case, followed up to the end by a word
    character and then word characters and dots.  The result is the
    base the letter stands for and the string without the prefix, the
    sign kept. *)
Definition base_of_letter (c : ascii) : option Z :=
  if (code c =? 120) || (code c =? 88) then Some 16
  else if (code c =? 98) || (code c =? 66) then Some 2
  else if (code c =? 111) || (code c =? 79) then Some 8
  else None.

Definition basePrefix (s : string) : option (Z * string) :=
  let '(neg, body) := split_minus s in
  match body with
  | String "0" (String letter (String c rest)) =>
      match base_of_letter letter with
      | Some base =>
          if is_word c && string_forall is_word_or_dot rest then
            Some (base, if neg then String "-" (String c rest)
                        else String c rest)
          else None
      | None => None
      end
  | _ => None
  end.

(** [dotAfter]: a dot at the end of a string with no other dot is
    dropped.  [dotBefore]: a string that starts with its only dot gets
    a zero in front. *)
Definition has_no_dot : string -> bool :=
  string_forall (fun c => negb (code c =? 46)).

Fixpoint dotAfter_go (s : string) : option string :=
  match s with
  | EmptyString => None
  | String c rest =>
      if code c =? 46 then
        match rest with EmptyString => Some EmptyString | _ => None end
      else
        match dotAfter_go rest with
        | Some r => Some (String c r)
        | None => None
        end
  end.

Definition dotAfter (s : string) : string :=
  match s with
  | String "." _ => s
  | _ => match dotAfter_go s with Some r => r | None => s end
  end.

Definition dotBefore (s : string) : string :=
  match s with
  | String "." (String c rest) =>
      if has_no_dot (String c rest) then String "0" s else s
  | _ => s
  end.

(** The value of a digit in the alphabet
    [0123456789abcdefghijklmnopqrstuvwxyz] cut at [base]. *)
Definition digit_in_base (base : Z) (c : ascii) : option Z :=
  let n := code c in
  let d :=
    if (48 <=? n) && (n <=? 57) then n - 48
    else if (97 <=? n) && (n <=? 122) then n - 87
    else base in
  if d <? base then Some d else None.

(** The loop that checks a string against the alphabet.  A dot is let
    through once, and not in front; any other character that is not a
    digit stops the loop. *)
Inductive scanned : Type :=
| Digits (value : Z) (fraction : nat)
| BadDot
| BadCharacter.

Fixpoint scan_digits (base : Z) (s : string) (first dotted : bool)
  (value : Z) (fraction : nat) : scanned :=
  match s with
  | EmptyString => Digits value fraction
  | String c rest =>
      match digit_in_base base c with
      | Some d =>
          scan_digits base rest false dotted (base * value + d)
                      (if dotted then S fraction else fraction)
      | None =>
          if code c =? 46 then
            if first || dotted then BadDot
            else scan_digits base rest false true value fraction
          else BadCharacter
      end
  end.

(** A string in a base other than ten: the digits are checked, once
    more with the letters in the other case when the string is all in
    one case, and the number is converted to base ten, rounded to
    [DECIMAL_PLACES]. *)
Definition in_base (base : Z) (s : string) : option BigNumber :=
  let '(neg, body) := split_minus s in
  let converted (r : scanned) : option BigNumber :=
    match r with
    | Digits value fraction =>
        Some (Fin (Qred (signed neg
                           (round_dp DECIMAL_PLACES
                              (inject_Z value
                               / inject_Z (base ^ Z.of_nat fraction))))))
    | _ => None
    end in
  match scan_digits base body true false 0 0 with
  | BadCharacter =>
      if String.eqb body (toUpperCase body) then
        converted (scan_digits base (toLowerCase body) true false 0 0)
      else if String.eqb body (toLowerCase body) then
        converted (scan_digits base (toUpperCase body) true false 0 0)
      else None
  | r => converted r
  end.

(** The constructor, with the base that [parseNumeric] passes when it
    calls it again.  [fuel] bounds these calls: each is on a string that
    has lost a prefix, blanks or a dot, or has gained a zero in front of
    its dot, once. *)
Fixpoint new_BigNumber_in (fuel : nat) (v : string) (b : option Z)
  : BigNumber :=
  let parseNumeric (again : string -> option Z -> BigNumber) : BigNumber :=
    let s := strip_blanks_or_plus v in
    match infinity_or_nan s with
    | Some x => x
    | None =>
        let '(base, s) :=
          match basePrefix s, b with
          | Some (base, s'), None => (Some base, s')
          | Some (base, s'), Some b' =>
              (b, if base =? b' then s' else s)
          | None, _ => (b, s)
          end in
        let s :=
          match b with
          | Some _ => dotBefore (dotAfter s)
          | None => s
          end in
        if String.eqb v s then NaN else again s base
    end in
  match fuel with
  | O => NaN
  | S fuel' =>
      match b with
      | None =>
          match decimal_literal v with
          | Fin q => Fin q
          | _ =>
              match exponent_literal v with
              | Some x => x
              | None => parseNumeric (new_BigNumber_in fuel')
              end
          end
      | Some base =>
          match in_base base v with
          | Some x => x
          | None => parseNumeric (new_BigNumber_in fuel')
          end
      end
  end.

(** [new BigNumber(s)] *)
Definition BigNumber_of_string (s : string) : BigNumber :=
  new_BigNumber_in (2 * String.length s + 4) s None.

(** An argument of type [string | number]. *)
Inductive string_or_number : Type :=
| Str (s : string)
| Num (n : Number).

Definition BigNumber_of (a : string_or_number) : BigNumber :=
  match a with
  | Str s => BigNumber_of_string s
  | Num n => BigNumber_of_number n
  end.

(** [x.pow(n)] for a natural exponent [n]: the exact power. *)
Definition pow (x : BigNumber) (n : nat) : BigNumber :=
  Nat.iter n (times x) (ofZ 1).

Definition expandToken (amount : string_or_number) (precision : nat) : string :=
  let trimmed := toFixed precision ROUND_DOWN (BigNumber_of amount) in
  let inWei :=
    toFixed 0 ROUND_HALF_UP
            (times (BigNumber_of_string trimmed) (pow (ofZ 10) precision)) in
  inWei.

Definition decToPpm (dec : string_or_number) : string :=
  toFixed 0 ROUND_HALF_UP (times (BigNumber_of dec) oneMillion).

(** [x] rounded to [dp] decimals: the number [x.toFixed(dp, rm)] denotes. *)
Definition rounded (dp : nat) (rm : rounding_mode) (x : BigNumber) : BigNumber :=
  match x with
  | Fin q =>
      let n := round_magnitude rm (Qabs q * inject_Z (10 ^ Z.of_nat dp))%Q in
      let w := (inject_Z n / inject_Z (10 ^ Z.of_nat dp))%Q in
      Fin (Qred (if is_neg q then (- w)%Q else w))
  | _ => x
  end.

(** The integer part of [q], towards zero. *)
Definition Qtruncate (q : Q) : Z :=
  if is_neg q then - Qfloor (- q)%Q else Qfloor q.

(** ** miningBntReward and miningTknReward *)

Section MiningRewards.

(** [new BigNumber(s)] for a string [s]. *)
Variable new_BigNumber : string -> BigNumber.

Definition miningBntReward (protectedBnt rewardRate : string)
  (rewardShare : Number) : Number :=
  toNumber
    (dividedBy
       (times
          (times
             (times
                (times (new_BigNumber rewardRate)
                       (BigNumber_of_number (number_of_Z 86400)))
                (BigNumber_of_number (number_of_Z 2)))
             (BigNumber_of_number rewardShare))
          (BigNumber_of_number (number_of_Z 365)))
       (new_BigNumber protectedBnt)).

Definition miningTknReward (tknReserveBalance bntReserveBalance protectedTkn
  rewardRate : string) (rewardShare : Number) : Number :=
  toNumber
    (dividedBy
       (times
          (times
             (times
                (times
                   (times (new_BigNumber rewardRate)
                          (BigNumber_of_number (number_of_Z 86400)))
                   (BigNumber_of_number (number_of_Z 2)))
                (BigNumber_of_number rewardShare))
             (dividedBy (new_BigNumber tknReserveBalance)
                        (new_BigNumber bntReserveBalance)))
          (BigNumber_of_number (number_of_Z 365)))
       (new_BigNumber protectedTkn)).

End MiningRewards.

(** ** filterAndWarn *)

Section FilterAndWarn.

Context {T : Type}.

(** One call of [console.warn("Dropped", dropped, "items from array",
    text)]. *)
Record warning : Type := {
  dropped_items : list T;
  because : string
}.

(** The console is the list of the warnings issued so far.  lodash's
    [partition] keeps the order of the array in both halves. *)
Definition filterAndWarn (arr : list T) (conditioner : T -> bool)
  (reason : option string) (console : list warning)
  : list T * list warning :=
  let '(passed, dropped) := List.partition conditioner arr in
  let console :=
    if (0 <? length dropped)%nat then
      console
      ++ [{| dropped_items := dropped;
             because :=
               match reason with
               | Some r => if String.eqb r "" then "" else "because " +:+ r
               | None => ""
               end |}]
    else console in
  (passed, console).

End FilterAndWarn.

(** ** Static relays *)

Record Token : Type := {
  contract : string
}.

Module StaticRelay.

Record t : Type := {
  poolToken : Token;
  converterAddress : string;
  reserves : list Token
}.

End StaticRelay.

Module ConverterAndAnchor.

Record t : Type := {
  converterAddress : string;
  anchorAddress : string
}.

End ConverterAndAnchor.

Section StaticRelays.

Variable compareString : string -> string -> bool.

Definition compareStaticRelayAndSet (staticRelay : StaticRelay.t)
  (anchorAndConverter : ConverterAndAnchor.t) : bool :=
  compareString (contract (StaticRelay.poolToken staticRelay))
                (ConverterAndAnchor.anchorAddress anchorAndConverter)
  && compareString (StaticRelay.converterAddress staticRelay)
                   (ConverterAndAnchor.converterAddress anchorAndConverter).

End StaticRelays.

Definition staticToConverterAndAnchor (staticRelay : StaticRelay.t)
  : ConverterAndAnchor.t :=
  {| ConverterAndAnchor.converterAddress :=
       StaticRelay.converterAddress staticRelay;
     ConverterAndAnchor.anchorAddress :=
       contract (StaticRelay.poolToken staticRelay) |}.

Definition reserveContractsInStatic (relay : StaticRelay.t) : list string :=
  map contract (StaticRelay.reserves relay).

(** ** Stream stages that see the end of a stream

    Where a stage reacts to the failure or the completion of its source,
    the source is followed through its notifications: values, then
    possibly one [Error] or [Complete], after which nothing is
    delivered. *)

Inductive notification (A E : Type) : Type :=
| Next (a : A)
| Error (e : E)
| Complete.
Arguments Next {A E} a.
Arguments Error {A E} e.
Arguments Complete {A E}.

Section CatchOptimisticNetwork.

(** The values are of type [any]; [js_false] is the value [false]. *)
Context {any E : Type}.
Variable js_false : any.

(** [of(v)] *)
Definition of_ (v : any) : list (notification any E) := [Next v; Complete].

(** [catchError(selector)]: on an error, the stream goes on with the
    observable the selector returns. *)
Fixpoint catchError (selector : E -> list (notification any E))
  (source : list (notification any E)) : list (notification any E) :=
  match source with
  | [] => []
  | Next a :: rest => Next a :: catchError selector rest
  | Error e :: _ => selector e
  | Complete :: _ => [Complete]
  end.

(** [filter(predicate)] *)
Fixpoint filter_values (predicate : any -> bool)
  (source : list (notification any E)) : list (notification any E) :=
  match source with
  | [] => []
  | Next a :: rest =>
      if predicate a then Next a :: filter_values predicate rest
      else filter_values predicate rest
  | Error e :: _ => [Error e]
  | Complete :: _ => [Complete]
  end.

(** The selector logs and returns [of(false)]; the statements after its
    [return] are never reached. *)
Definition catchOptimisticNetwork (label : option string)
  (source : list (notification any E)) : list (notification any E) :=
  filter_values (fun x => false)
                (catchError (fun err => of_ js_false) source).

(** The source has failed or completed. *)
Definition ended (source : list (notification any E)) : bool :=
  existsb (fun n => match n with Next _ => false | _ => true end) source.

End CatchOptimisticNetwork.

(** *** switchMapIgnoreThrow *)

Section SwitchMapIgnoreThrow.

Context {T Y : Type}.

(** A value a promise resolves with: a string, or something else. *)
Inductive js_value : Type :=
| JsString (s : string)
| JsOther (y : Y).

Inductive outcome : Type :=
| Resolved (v : js_value)
| Rejected.

(** What happens, in order: the source emits [x] and [switchMapProm(x)]
    starts a promise, numbered from 0 in the order of the calls; or the
    promise number [i] settles. *)
Inductive event : Type :=
| Emitted (x : T)
| Settled (i : nat) (r : outcome).

(** [promise.catch(() => "DONT THROW")] *)
Definition caught (r : outcome) : js_value :=
  match r with
  | Resolved v => v
  | Rejected => JsString "DONT THROW"
  end.

(** [switchMap]: a new value of the source unsubscribes from the promise
    in flight; a promise delivers when it settles, if it is still
    subscribed to.  [started] counts the promises, [subscribed] is the
    promise waited for. *)
Fixpoint switchMap_promises (events : list event) (started : nat)
  (subscribed : option nat) : list js_value :=
  match events with
  | [] => []
  | Emitted x :: rest => switchMap_promises rest (S started) (Some started)
  | Settled i r :: rest =>
      if bool_decide (subscribed = Some i) then
        caught r :: switchMap_promises rest started None
      else switchMap_promises rest started subscribed
  end.

(** [typeof x == "string" && x === "DONT THROW"] *)
Definition is_dont_throw (x : js_value) : bool :=
  match x with
  | JsString s => String.eqb s "DONT THROW"
  | JsOther _ => false
  end.

Definition switchMapIgnoreThrow (events : list event) : list js_value :=
  List.filter (fun x => negb (is_dont_throw x))
              (switchMap_promises events 0 None).

End SwitchMapIgnoreThrow.

(** *** networkVersion$ *)

(** [tap] with an effect on a state of any type. *)
Definition tap_state {A S : Type} (effect : A -> S -> S) (source : list A)
  (s : S) : list A * S :=
  (source, fold_left (fun s data => effect data s) source s).

Section NetworkVersion.

(** The enumeration [EthNetworks] of [./web3] and its member [Mainnet]. *)
Context {EthNetworks : Type} `{EqDecision EthNetworks}.
Variable Mainnet : EthNetworks.

(** The stage up to [shareReplay(1)], which shares this one subscription
    among the subscribers: what it emits for the networks received, and
    [networkVersionCount] afterwards. *)
Definition networkVersion (received : list EthNetworks)
  (networkVersionCount : nat) : list EthNetworks * nat :=
  tap_state (fun _ count => S count)
            (distinctUntilChanged (fun a b => bool_decide (a = b))
                                  (startWith Mainnet received))
            networkVersionCount.

End NetworkVersion.

(** No value of the list is followed by one that [compare] relates it
    to. *)
Fixpoint adjacent_differ {A : Type} (compare : A -> A -> bool) (l : list A)
  : Prop :=
  match l with
  | x :: (y :: _) as rest => compare x y = false /\ adjacent_differ compare rest
  | _ => True
  end.

(** The strings of [l] without repetition, each at the place where it
    occurs first. *)
Fixpoint first_occurrences (l : list string) : list string :=
  match l with
  | [] => []
  | k :: rest => k :: filter (fun k' => k' <> k) (first_occurrences rest)
  end.
(** * Properties *)

(** ** Arithmetic of numbers *)




(** *** Integers

    A sum of non-negative integers that stays below [2^53] is
    exact. *)

Lemma iter_xO_value (p j : positive) :
  Zpos (Pos.iter xO p j) = Zpos p * 2 ^ Zpos j.
Proof.
  revert p. induction j as [j IH|j IH|]; intros p; cbn [Pos.iter].
  - rewrite Pos2Z.inj_xO, !IH, Pos2Z.inj_xI, Z.pow_add_r, Z.pow_1_r by lia.
    replace (2 * Zpos j) with (Zpos j + Zpos j) by lia.
    rewrite Z.pow_add_r by lia. ring.
  - rewrite !IH, (Pos2Z.inj_xO j).
    replace (2 * Zpos j) with (Zpos j + Zpos j) by lia.
    rewrite Z.pow_add_r by lia. ring.
  - rewrite Pos2Z.inj_xO. change (2 ^ 1) with 2. ring.
Qed.

Lemma shifted_value (p : positive) (k : Z) :
  0 <= k -> Zpos (shifted p k) = Zpos p * 2 ^ k.
Proof.
  intros Hk. destruct k as [|j|j]; [simpl; lia| |lia].
  apply iter_xO_value.
Qed.

Lemma digits2_log2 (p : positive) :
  Zpos (digits2_pos p) = Z.succ (Z.log2 (Zpos p)).
Proof.
  assert (forall q, digits2_pos q = Pos.size q) as E
    by (induction q; simpl; congruence).
  rewrite E. destruct p; simpl; try rewrite Pos2Z.inj_succ; reflexivity.
Qed.

Lemma shifted_digits (p : positive) (k : Z) :
  0 <= k -> Zpos (digits2_pos (shifted p k)) = Zpos (digits2_pos p) + k.
Proof.
  intros Hk. rewrite !digits2_log2, shifted_value by exact Hk.
  rewrite Z.log2_mul_pow2 by lia. lia.
Qed.

Lemma iter_shr_1 (j : positive) :
  forall p : positive,
  SpecFloat.iter_pos shr_1 j
    {| shr_m := Zpos (Pos.iter xO p j); shr_r := false; shr_s := false |}
  = {| shr_m := Zpos p; shr_r := false; shr_s := false |}.
Proof.
  induction j as [j IH|j IH|]; intros p; cbn [SpecFloat.iter_pos Pos.iter shr_1 orb].
  - now rewrite !IH.
  - now rewrite !IH.
  - reflexivity.
Qed.

Lemma shr_shifted (p : positive) (e k : Z) :
  0 <= k ->
  shr {| shr_m := Zpos (shifted p k); shr_r := false; shr_s := false |} e k
  = ({| shr_m := Zpos p; shr_r := false; shr_s := false |}, e + k).
Proof.
  intros Hk. destruct k as [|j|j]; [|clear Hk|lia].
  - now rewrite Z.add_0_r.
  - cbn [shr shifted]. now rewrite iter_shr_1.
Qed.

(** Rounding a number that fits is exact. *)
Lemma binary_round_aux_exact (c : positive) (e k : Z) :
  0 <= k -> Zpos (digits2_pos c) = 53 -> -1074 <= e + k <= 971 ->
  binary_round_aux prec emax false (Zpos (shifted c k)) e loc_Exact
  = S754_finite false c (e + k).
Proof.
  intros Hk Hc He. unfold binary_round_aux, shr_fexp.
  cbn [shr_record_of_loc Zdigits2].
  rewrite shifted_digits, Hc by exact Hk.
  assert (fexp prec emax (53 + k + e) - e = k) as ->
    by (unfold fexp, emin, prec, emax; lia).
  rewrite shr_shifted by exact Hk.
  cbn [shr_m loc_of_shr_record round_nearest_even shr_record_of_loc Zdigits2].
  rewrite Hc.
  assert (fexp prec emax (53 + (e + k)) - (e + k) = 0) as ->
    by (unfold fexp, emin, prec, emax; lia).
  cbn [shr shr_m].
  assert ((e + k <=? emax - prec) = true) as ->
    by (apply Z.leb_le; unfold prec, emax; lia).
  reflexivity.
Qed.

Lemma number_of_Z_pos (n : positive) :
  Zpos (digits2_pos n) <= 53 ->
  number_of_Z (Zpos n) = number_of_positive n.
Proof.
  intros Hd. unfold number_of_Z, number_of_Q.
  rewrite inject_Z_Qred. cbn [Qnum Qden inject_Z].
  unfold nearest, SFdiv_core_binary.
  cbn [Zdigits2 digits2_pos].
  set (d := Zpos (digits2_pos n)) in *.
  assert (0 < d) as Hd0 by (unfold d; lia).
  assert (Z.min (fexp prec emax (d + 0 - (1 + 0))) (0 - 0) = d - 54) as ->
    by (unfold fexp, emin, prec, emax; lia).
  assert (0 - 0 - (d - 54) = 54 - d) as -> by lia.
  assert (match 54 - d with
          | 0 => Zpos n
          | Zpos _ => Z.shiftl (Zpos n) (54 - d)
          | Zneg _ => 0
          end = Zpos (shifted (shifted n (53 - d)) 1)) as ->.
  { destruct (54 - d) as [|j|j] eqn:E; [lia| |lia].
    rewrite <- E, Z.shiftl_mul_pow2 by lia.
    rewrite !shifted_value by lia.
    replace (54 - d) with (53 - d + 1) by lia.
    rewrite Z.pow_add_r by lia. ring. }
  set (x := Zpos (shifted (shifted n (53 - d)) 1)).
  assert (Z.div_eucl x 1 = (x, 0)) as E.
  { assert (Z.div_eucl x 1 = (x / 1, x mod 1)) as ->
      by (unfold Z.div, Z.modulo; now destruct (Z.div_eucl x 1)).
    now rewrite Z.div_1_r, Z.mod_1_r. }
  change (IntDef.Z.div_eucl x 1) with (Z.div_eucl x 1). rewrite E.
  change (new_location 1 0) with loc_Exact. unfold x.
  rewrite binary_round_aux_exact.
  - unfold number_of_positive. fold d. f_equal. lia.
  - lia.
  - rewrite shifted_digits by lia. fold d. lia.
  - lia.
Qed.

Lemma fst_shl_align (m : positive) (e e' : Z) :
  fst (shl_align m e e') = shifted m (e - e').
Proof.
  unfold shl_align, shifted.
  replace (e - e') with (- (e' - e)) by lia.
  now destruct (e' - e).
Qed.

Lemma digits_bound (n : positive) (b : Z) :
  0 <= b -> Zpos n < 2 ^ b <-> Zpos (digits2_pos n) <= b.
Proof.
  intros Hb. rewrite digits2_log2, Z.log2_lt_pow2 by lia. lia.
Qed.

Lemma digits_mono (a b : positive) :
  (a <= b)%positive -> Zpos (digits2_pos a) <= Zpos (digits2_pos b).
Proof.
  intros H. rewrite !digits2_log2.
  pose proof (Z.log2_le_mono (Zpos a) (Zpos b) ltac:(lia)). lia.
Qed.

(** The sum of two integers that fits in 53 bits is exact. *)
Lemma js_plus_positive (a b : positive) :
  Zpos (digits2_pos (a + b)) <= 53 ->
  js_plus (number_of_positive a) (number_of_positive b)
  = number_of_positive (a + b).
Proof.
  intros Hs.
  pose proof (digits_mono a (a + b) ltac:(lia)) as Ha.
  pose proof (digits_mono b (a + b) ltac:(lia)) as Hb.
  set (da := Zpos (digits2_pos a)) in *. set (db := Zpos (digits2_pos b)) in *.
  set (ds := Zpos (digits2_pos (a + b))) in *.
  assert (0 < da /\ 0 < db) as [Ha0 Hb0] by (unfold da, db; lia).
  unfold js_plus, number_of_positive, SFadd. fold da db ds. cbv zeta.
  set (ez := Z.min (da - 53) (db - 53)).
  rewrite !fst_shl_align. cbn [cond_Zopp].
  rewrite <- Pos2Z.inj_add.
  assert ((shifted (shifted a (53 - da)) (da - 53 - ez)
           + shifted (shifted b (53 - db)) (db - 53 - ez))%positive
          = shifted (shifted (a + b) (53 - ds)) (ds - 53 - ez)) as ->.
  { apply Pos2Z.inj. rewrite Pos2Z.inj_add, !shifted_value by lia.
    rewrite Pos2Z.inj_add.
    rewrite <- !Z.mul_assoc, <- !Z.pow_add_r by lia.
    replace (53 - da + (da - 53 - ez)) with (- ez) by lia.
    replace (53 - db + (db - 53 - ez)) with (- ez) by lia.
    replace (53 - ds + (ds - 53 - ez)) with (- ez) by lia. ring. }
  unfold binary_normalize, binary_round.
  rewrite !shifted_digits by lia. fold ds.
  assert (fexp prec emax (ds + (53 - ds) + (ds - 53 - ez) + ez) = ds - 53) as ->
    by (unfold fexp, emin, prec, emax; lia).
  unfold shl_align.
  destruct (ds - 53 - ez) as [|j|j] eqn:E; [| |lia].
  - rewrite <- E at 1. rewrite binary_round_aux_exact; [f_equal; lia|lia| |lia].
    rewrite shifted_digits by lia. fold ds. lia.
  - rewrite <- E at 1. rewrite binary_round_aux_exact; [f_equal; lia|lia| |lia].
    rewrite shifted_digits by lia. fold ds. lia.
Qed.

Lemma js_plus_exact (a b : Z) :
  0 <= a -> 0 <= b -> a + b < 2 ^ 53 ->
  js_plus (number_of_Z a) (number_of_Z b) = number_of_Z (a + b).
Proof.
  intros Ha Hb Hs.
  destruct a as [|a|a]; [|clear Ha|lia]; destruct b as [|b|b]; [| |lia| | |lia].
  - reflexivity.
  - rewrite Z.add_0_l. clear Hb.
    rewrite number_of_Z_pos by now apply digits_bound.
    reflexivity.
  - rewrite Z.add_0_r.
    rewrite number_of_Z_pos by now apply digits_bound.
    reflexivity.
  - clear Hb. change (Zpos a + Zpos b) with (Zpos (a + b)) in *.
    assert (Zpos (digits2_pos (a + b)) <= 53) as Hd by now apply digits_bound.
    rewrite !number_of_Z_pos.
    + now apply js_plus_positive.
    + exact Hd.
    + pose proof (digits_mono b (a + b) ltac:(lia)). lia.
    + pose proof (digits_mono a (a + b) ltac:(lia)). lia.
Qed.


Lemma or_zero_integer (z : Z) :
  0 <= z -> z < 2 ^ 53 -> or_zero (number_of_Z z) = number_of_Z z.
Proof.
  intros Hz Hlt. destruct z as [|n|n]; [reflexivity| |lia].
  rewrite number_of_Z_pos by now apply digits_bound.
  reflexivity.
Qed.

Lemma Zsum_nonneg (zs : list Z) : Forall (fun z => 0 <= z) zs -> 0 <= Zsum zs.
Proof. induction 1; simpl; lia. Qed.


Lemma map_or_zero_integers (zs : list Z) :
  Forall (fun z => 0 <= z) zs -> Zsum zs < 2 ^ 53 ->
  map or_zero (map number_of_Z zs) = map number_of_Z zs.
Proof.
  induction 1 as [|z zs Hz Hzs IH]; intros Hlt; simpl in *; [reflexivity|].
  pose proof (Zsum_nonneg zs Hzs) as Hs.
  rewrite or_zero_integer, IH by lia. reflexivity.
Qed.

Lemma fold_js_plus_exact (zs : list Z) (a : Z) :
  0 <= a -> Forall (fun z => 0 <= z) zs -> a + Zsum zs < 2 ^ 53 ->
  fold_left js_plus (map number_of_Z zs) (number_of_Z a)
  = number_of_Z (a + Zsum zs).
Proof.
  intros Ha Hzs. revert a Ha.
  induction Hzs as [|z zs Hz Hzs IH]; intros a Ha Hlt; simpl in *.
  - now rewrite Z.add_0_r.
  - pose proof (Zsum_nonneg zs Hzs) as Hs.
    rewrite js_plus_exact by lia.
    rewrite IH by lia. f_equal. lia.
Qed.

(** [reduce] with [+] over [Number(x || 0)] of non-negative integers
    whose sum is below [2^53] is their sum. *)
Lemma reduce_js_plus_exact (zs : list Z) (s : Number) :
  Forall (fun z => 0 <= z) zs -> Zsum zs < 2 ^ 53 ->
  reduce js_plus (map or_zero (map number_of_Z zs)) = Ok s ->
  s = number_of_Z (Zsum zs).
Proof.
  intros Hzs Hlt. rewrite map_or_zero_integers by assumption.
  destruct zs as [|z zs]; simpl; [discriminate|].
  apply Forall_cons in Hzs as [Hz Hzs].
  pose proof (Zsum_nonneg zs Hzs) as Hs. simpl in Hlt.
  intros [= <-]. now apply fold_js_plus_exact.
Qed.


(** The quotient [(b - a) / a] for a zero [a]. *)
Lemma js_div_minus_zero (b : Number) (s : bool) :
  js_div (js_minus b (S754_zero s)) (S754_zero s)
  = match b with
    | S754_nan | S754_zero _ => S754_nan
    | S754_infinity sb | S754_finite sb _ _ => S754_infinity (xorb sb s)
    end.
Proof. destruct b as [sb|sb| |sb m e], s; try destruct sb; reflexivity. Qed.

(** The number a rational denotes depends on its value only. *)
Lemma toNumber_Qeq (a b : Q) : (a == b)%Q -> toNumber (Fin a) = toNumber (Fin b).
Proof.
  intros E. unfold toNumber, number_of_Q.
  now rewrite (Qred_complete a b E).
Qed.

Lemma reduceM_app {A S : Type} (f : S -> A -> result S) (l1 l2 : list A) (s : S) :
  reduceM f (l1 ++ l2) s = bind (reduceM f l1 s) (reduceM f l2).
Proof.
  revert s. induction l1 as [|x l1 IH]; intros s; simpl.
  - reflexivity.
  - destruct (f s x); simpl; [apply IH|reflexivity].
Qed.

(** ** The stable descending sort *)

Section SortDesc.

Context {A : Type} (key : A -> Z).

Lemma insert_desc_perm (v : A) (l : list A) :
  Permutation (insert_desc key v l) (v :: l).
Proof.
  induction l as [|x l IH]; simpl.
  - reflexivity.
  - destruct (key x <? key v).
    + reflexivity.
    + rewrite IH. apply perm_swap.
Qed.

Lemma insert_desc_hd (a v : A) (l : list A) :
  key v <= key a ->
  HdRel (fun a b => key b <= key a) a l ->
  HdRel (fun a b => key b <= key a) a (insert_desc key v l).
Proof.
  intros Hv Hl. destruct l as [|x l]; simpl.
  - now constructor.
  - destruct (key x <? key v); constructor; [exact Hv|].
    now inversion Hl.
Qed.

Lemma insert_desc_sorted (v : A) (l : list A) :
  descending key l -> descending key (insert_desc key v l).
Proof.
  unfold descending. induction 1 as [|x l Hs IH Hhd]; simpl.
  - repeat constructor.
  - destruct (key x <? key v) eqn:E.
    + apply Z.ltb_lt in E. constructor.
      * now constructor.
      * constructor. lia.
    + apply Z.ltb_ge in E. constructor; [exact IH|].
      now apply insert_desc_hd.
Qed.

Lemma fold_insert_desc (l sorted : list A) :
  descending key sorted ->
  let r := fold_left (fun sorted v => insert_desc key v sorted) l sorted in
  descending key r /\ Permutation r (sorted ++ l).
Proof.
  revert sorted. induction l as [|v l IH]; intros sorted Hs; simpl.
  - split; [exact Hs|]. now rewrite app_nil_r.
  - destruct (IH (insert_desc key v sorted)) as [H1 H2].
    { now apply insert_desc_sorted. }
    split; [exact H1|]. simpl in H2. rewrite H2, insert_desc_perm.
    apply Permutation_middle.
Qed.

Lemma sort_desc_sorted (l : list A) : descending key (sort_desc key l).
Proof. apply (fold_insert_desc l []). constructor. Qed.

Lemma sort_desc_perm (l : list A) : Permutation (sort_desc key l) l.
Proof. apply (fold_insert_desc l []). constructor. Qed.

End SortDesc.

(** ** Lists *)

Lemma filter_ext_in {A : Type} (P Q : A -> Prop)
  `{forall x, Decision (P x)} `{forall x, Decision (Q x)} (l : list A) :
  (forall x, x ∈ l -> P x <-> Q x) -> filter P l = filter Q l.
Proof.
  induction l as [|x l IH]; intros HPQ; [reflexivity|].
  assert (filter P l = filter Q l) as E
    by (apply IH; intros y Hy; apply HPQ; now right).
  destruct (decide (P x)) as [HP|HP].
  - rewrite (filter_cons_True P) by exact HP.
    rewrite (filter_cons_True Q) by (apply HPQ; [left|exact HP]).
    now rewrite E.
  - rewrite (filter_cons_False P) by exact HP.
    rewrite (filter_cons_False Q); [exact E|].
    intros HQ. apply HP, HPQ; [left|exact HQ].
Qed.

(** Among elements with pairwise different keys, a key that occurs
    selects exactly one. *)
Lemma filter_key_unique {A : Type} (key : A -> string) (l : list A) (k : string) :
  NoDup (map key l) -> k ∈ map key l ->
  exists x, filter (fun y => key y = k) l = [x] /\ key x = k.
Proof.
  induction l as [|a l IH]; simpl; intros Hnd Hk.
  - now apply not_elem_of_nil in Hk.
  - apply NoDup_cons in Hnd as [Ha Hnd].
    destruct (decide (key a = k)) as [E|E].
    + exists a. split; [|exact E].
      rewrite filter_cons_True by exact E. f_equal.
      destruct (filter (fun y => key y = k) l) as [|b l'] eqn:Hf; [reflexivity|].
      exfalso. apply Ha.
      assert (b ∈ filter (fun y => key y = k) l) as Hb by (rewrite Hf; left).
      apply list_elem_of_filter in Hb as [Hb1 Hb2].
      rewrite E, <- Hb1. apply list_elem_of_fmap. eauto.
    + rewrite filter_cons_False by exact E. apply IH; [exact Hnd|].
      apply elem_of_cons in Hk as [Hk|Hk]; [congruence|exact Hk].
Qed.

(** ** groupPositionsArray: the reduction *)

Section GroupPositionsFacts.

Variable compareString : string -> string -> bool.

Abbreviation new_item := (new_item compareString).
Abbreviation reducer := (reducer compareString).
Abbreviation group_of := (group_of compareString).
Abbreviation reduced := (reduced compareString).

Lemma filtered_self (arr : list PL.t) (v : PL.t) :
  v ∈ arr -> v ∈ filtered_like arr v.
Proof.
  intros Hv. unfold filtered_like, filtered_of.
  apply list_elem_of_filter. auto.
Qed.

Lemma filtered_nonempty (arr : list PL.t) (v : PL.t) :
  v ∈ arr -> filtered_like arr v <> [].
Proof.
  intros Hv E. apply filtered_self in Hv. rewrite E in Hv.
  now apply not_elem_of_nil in Hv.
Qed.

(** On a position of the array itself, none of the three [reduce]s
    without initial value meets an empty array. *)
Lemma new_item_ok (arr : list PL.t) (v : PL.t) :
  v ∈ arr -> exists g0, new_item arr v = Ok g0.
Proof.
  intros Hv. apply filtered_nonempty in Hv.
  unfold new_item. fold (filtered_like arr v).
  destruct (filtered_like arr v) as [|x l] eqn:E; [congruence|].
  simpl. destruct (compareString _ _); simpl; eexists; reflexivity.
Qed.

(** The fields of a new object. *)
Lemma new_item_fields (arr : list PL.t) (v : PL.t) (g0 : GP.t) :
  new_item arr v = Ok g0 ->
  GP.id g0 = id_of v
  /\ GP.poolId g0 = PL.poolId (PL.stake v)
  /\ GP.symbol g0 = PL.symbol (PL.stake v)
  /\ GP.positionId g0 = PL.id v
  /\ GP.insuranceStart g0 = PL.insuranceStart v
  /\ GP.collapsedData g0 = []
  /\ reduce js_plus (map (fun x => or_zero (PL.amount (PL.stake x)))
                         (filtered_like arr v))
     = Ok (GP.amount (GP.stake g0))
  /\ GP.fees g0
     = fold_left js_plus (map (fun x => detail_amount (PL.fees x))
                              (filtered_like arr v)) (S754_zero false)
  /\ GP.roi g0
     = js_div (js_minus (GP.amount' (GP.fullyProtected g0))
                        (GP.amount (GP.stake g0)))
              (GP.amount (GP.stake g0)).
Proof.
  unfold new_item. fold (filtered_like arr v).
  destruct (filtered_like arr v) as [|x l] eqn:E; simpl; [discriminate|].
  destruct (compareString _ _); simpl; intros [= <-]; simpl;
    repeat split.
Qed.

(** What the trailing updates leave alone. *)
Lemma touch_fixed (arr : list PL.t) (v : PL.t) (g : GP.t) :
  let g' := touch arr v g in
  GP.id g' = GP.id g
  /\ GP.poolId g' = GP.poolId g
  /\ GP.symbol g' = GP.symbol g
  /\ GP.positionId g' = GP.positionId g
  /\ GP.amount (GP.stake g') = GP.amount (GP.stake g)
  /\ GP.fullyProtected g' = GP.fullyProtected g
  /\ GP.protectedAmount g' = GP.protectedAmount g
  /\ GP.pendingReserveReward g' = GP.pendingReserveReward g
  /\ GP.fees g' = GP.fees g
  /\ GP.roi g' = GP.roi g.
Proof.
  unfold touch, earlier_insurance, collapse.
  destruct (_ <? _)%nat, (_ <? _); simpl; repeat split.
Qed.

Lemma touches_fixed (arr ms : list PL.t) (g : GP.t) :
  let g' := touches arr ms g in
  GP.id g' = GP.id g
  /\ GP.poolId g' = GP.poolId g
  /\ GP.symbol g' = GP.symbol g
  /\ GP.positionId g' = GP.positionId g
  /\ GP.amount (GP.stake g') = GP.amount (GP.stake g)
  /\ GP.fullyProtected g' = GP.fullyProtected g
  /\ GP.protectedAmount g' = GP.protectedAmount g
  /\ GP.pendingReserveReward g' = GP.pendingReserveReward g
  /\ GP.fees g' = GP.fees g
  /\ GP.roi g' = GP.roi g.
Proof.
  revert g. induction ms as [|v ms IH]; intros g; simpl.
  - repeat split.
  - specialize (IH (touch arr v g)). simpl in IH.
    pose proof (touch_fixed arr v g) as H. simpl in H.
    unfold touches in *. simpl.
    destruct IH as (->&->&->&->&->&->&->&->&->&->). exact H.
Qed.

Lemma touches_snoc (arr ms : list PL.t) (v : PL.t) (g : GP.t) :
  touches arr (ms ++ [v]) g = touch arr v (touches arr ms g).
Proof. unfold touches. now rewrite fold_left_app. Qed.

Lemma members_snoc_same (vs : list PL.t) (v : PL.t) :
  members (id_of v) (vs ++ [v]) = members (id_of v) vs ++ [v].
Proof.
  unfold members. rewrite filter_app. f_equal.
  rewrite filter_cons_True by reflexivity. reflexivity.
Qed.

Lemma members_snoc_other (k : string) (vs : list PL.t) (v : PL.t) :
  id_of v <> k -> members k (vs ++ [v]) = members k vs.
Proof.
  intros Hne. unfold members. rewrite filter_app.
  rewrite (filter_cons_False _ v []) by exact Hne.
  now rewrite filter_nil, app_nil_r.
Qed.

Lemma members_unseen (k : string) (vs : list PL.t) :
  k ∉ map id_of vs -> members k vs = [].
Proof.
  intros Hk. unfold members.
  destruct (filter _ vs) as [|x l] eqn:E; [reflexivity|exfalso].
  assert (x ∈ filter (fun v => id_of v = k) vs) as Hx by (rewrite E; left).
  apply list_elem_of_filter in Hx as [<- Hx].
  apply Hk. apply list_elem_of_In, in_map, list_elem_of_In, Hx.
Qed.

(** The reduction of positions of the array never throws, and leaves
    one object per id seen, each the [group_of] its id. *)
Lemma reduce_reduced (arr vs : list PL.t) :
  Forall (fun v => v ∈ arr) vs ->
  exists st, reduceM (reducer arr) vs (∅, []) = Ok st /\ reduced arr vs st.
Proof.
  induction vs as [|v vs IH] using rev_ind; intros HF.
  - exists (∅, []). split; [reflexivity|]. constructor; simpl.
    + intros k i. rewrite lookup_empty. split; [discriminate|].
      intros (g & Hg & _). now rewrite lookup_nil in Hg.
    + intros k. rewrite lookup_empty. split.
      * intros [? ?]; discriminate.
      * intros H. now apply not_elem_of_nil in H.
    + intros i g Hg. now rewrite lookup_nil in Hg.
  - apply Forall_app in HF as [HF Hv]. apply Forall_inv in Hv.
    destruct (IH HF) as ([obj acc] & Hrun & [Hobj Hseen Hgroup]).
    simpl in Hobj, Hseen, Hgroup.
    rewrite reduceM_app, Hrun. simpl.
    destruct (obj !! id_of v) as [i|] eqn:Hk; simpl.
    + (* the id has its object already *)
      eexists; split; [reflexivity|].
      destruct (proj1 (Hobj _ _) Hk) as (g & Hg & Hid).
      constructor; simpl.
      * intros k j. rewrite Hobj. rewrite list_lookup_alter.
        destruct (decide (i = j)) as [->|Hne].
        -- rewrite Hg. simpl. split.
           ++ intros (g' & [= <-] & Hk'). eexists; split; [reflexivity|].
              now rewrite (proj1 (touch_fixed arr v g)).
           ++ intros (g' & [= <-] & Hk'). eexists; split; [reflexivity|].
              now rewrite (proj1 (touch_fixed arr v g)) in Hk'.
        -- reflexivity.
      * intros k. rewrite Hseen, map_app. simpl. rewrite elem_of_app.
        split; [auto|]. intros [H|H]; [exact H|].
        apply list_elem_of_singleton in H as ->.
        apply Hseen. now exists i.
      * intros j g'. rewrite list_lookup_alter.
        destruct (decide (i = j)) as [->|Hne].
        -- rewrite Hg. simpl. intros [= <-].
           rewrite (proj1 (touch_fixed arr v g)), Hid.
           destruct (Hgroup _ _ Hg) as (f & ms & g0 & Hm & Hn & ->).
           rewrite Hid in Hm.
           exists f, (ms ++ [v]), g0. split; [|split; [exact Hn|]].
           ++ now rewrite members_snoc_same, Hm.
           ++ now rewrite app_comm_cons, touches_snoc.
        -- intros Hg'.
           destruct (Hgroup _ _ Hg') as (f & ms & g0 & Hm & Hn & ->).
           exists f, ms, g0. split; [|split; [exact Hn|reflexivity]].
           rewrite members_snoc_other; [exact Hm|].
           intros E. apply Hne.
           assert (obj !! id_of v = Some j) as Hj
             by (apply Hobj; eexists; split; [exact Hg'|now rewrite E]).
           congruence.
    + (* a new id *)
      destruct (new_item_ok arr v Hv) as [g0 Hn]. rewrite Hn. simpl.
      eexists; split; [reflexivity|].
      assert (id_of v ∉ map id_of vs) as Hfresh.
      { intros H. apply Hseen in H as [? H]. congruence. }
      assert (alter (touch arr v) (length acc) (acc ++ [g0])
              = acc ++ [touch arr v g0]) as ->.
      { rewrite alter_app_r_alt by lia. now rewrite Nat.sub_diag. }
      pose proof (new_item_fields arr v g0 Hn) as (Hid0 & _).
      constructor; simpl.
      * intros k j. rewrite lookup_insert. case_decide as Hkj.
        -- subst k. split.
           ++ intros [= <-]. exists (touch arr v g0).
              rewrite list_lookup_middle by reflexivity.
              split; [reflexivity|].
              now rewrite (proj1 (touch_fixed arr v g0)).
           ++ intros (g & Hg & Hidg). f_equal.
              destruct (decide (j < length acc)%nat) as [Hlt|Hge].
              ** rewrite lookup_app_l in Hg by exact Hlt.
                 assert (obj !! id_of v = Some j) as Hj
                   by (apply Hobj; eexists; split; [exact Hg|exact Hidg]).
                 congruence.
              ** apply lookup_lt_Some in Hg. rewrite length_app in Hg.
                 simpl in Hg. lia.
        -- rewrite Hobj. split.
           ++ intros (g & Hg & Hidg). exists g. split; [|exact Hidg].
              rewrite lookup_app_l; [exact Hg|].
              now apply lookup_lt_Some in Hg.
           ++ intros (g & Hg & Hidg). exists g. split; [|exact Hidg].
              destruct (decide (j < length acc)%nat) as [Hlt|Hge].
              ** now rewrite lookup_app_l in Hg by exact Hlt.
              ** exfalso. apply Hkj.
                 assert (j = length acc) as ->.
                 { apply lookup_lt_Some in Hg. rewrite length_app in Hg.
                   simpl in Hg. lia. }
                 rewrite list_lookup_middle in Hg by reflexivity.
                 injection Hg as <-.
                 now rewrite <- Hidg, (proj1 (touch_fixed arr v g0)).
      * intros k. rewrite lookup_insert, map_app. simpl.
        rewrite elem_of_app, list_elem_of_singleton, <- Hseen.
        case_decide as Hkj.
        -- subst k. split; [auto|]. intros _. now eexists.
        -- split; [auto|]. intros [H|H]; [exact H|congruence].
      * intros j g Hg.
        destruct (decide (j < length acc)%nat) as [Hlt|Hge].
        -- rewrite lookup_app_l in Hg by exact Hlt.
           destruct (Hgroup _ _ Hg) as (f & ms & g1 & Hm & Hn1 & ->).
           exists f, ms, g1. split; [|split; [exact Hn1|reflexivity]].
           rewrite members_snoc_other; [exact Hm|].
           intros E. apply Hfresh, Hseen. exists j. apply Hobj.
           eexists; split; [exact Hg|now rewrite E].
        -- assert (j = length acc) as ->.
           { apply lookup_lt_Some in Hg. rewrite length_app in Hg.
             simpl in Hg. lia. }
           rewrite list_lookup_middle in Hg by reflexivity.
           injection Hg as <-.
           rewrite (proj1 (touch_fixed arr v g0)), Hid0.
           exists v, [], g0. split; [|split; [exact Hn|reflexivity]].
           now rewrite members_snoc_same, members_unseen.
Qed.

Lemma group_of_member (arr vs : list PL.t) (k : string) (g : GP.t) :
  group_of arr vs k g ->
  exists f g0,
    head (members k vs) = Some f /\ f ∈ vs /\ id_of f = k
    /\ new_item arr f = Ok g0 /\ g = touches arr (members k vs) g0.
Proof.
  intros (f & ms & g0 & Hm & Hn & ->). exists f, g0.
  assert (f ∈ members k vs) as Hf by (rewrite Hm; left).
  apply list_elem_of_filter in Hf as [Hid Hf].
  rewrite Hm. repeat split; assumption.
Qed.

(** The result of [groupPositionsArray] on a non-empty array: one
    object per id of the array. *)
Lemma groupPositionsArray_groups (arr : list PL.t) :
  arr <> [] ->
  exists out,
    groupPositionsArray compareString arr = Ok out
    /\ NoDup (map GP.id out)
    /\ (forall k, k ∈ map GP.id out <-> k ∈ map id_of arr)
    /\ (forall g, g ∈ out -> group_of arr arr (GP.id g) g).
Proof.
  intros Hne.
  destruct (reduce_reduced arr arr) as ([obj acc] & Hrun & [Hobj Hseen Hgroup]).
  { apply Forall_forall. auto. }
  simpl in Hobj, Hseen, Hgroup.
  exists acc. split; [|split; [|split]].
  - unfold groupPositionsArray. destruct arr; [congruence|].
    now rewrite Hrun.
  - apply NoDup_alt. intros i j k Hi Hj.
    rewrite list_lookup_fmap in Hi, Hj.
    destruct (acc !! i) as [gi|] eqn:Ei; [|discriminate].
    destruct (acc !! j) as [gj|] eqn:Ej; [|discriminate].
    injection Hi as Hi. injection Hj as Hj.
    assert (obj !! k = Some i) as Hi' by (apply Hobj; eauto).
    assert (obj !! k = Some j) as Hj' by (apply Hobj; eauto).
    congruence.
  - intros k. rewrite <- Hseen. split.
    + intros Hk. apply list_elem_of_fmap in Hk as (g & -> & Hg).
      apply list_elem_of_lookup in Hg as [i Hg].
      exists i. apply Hobj. eauto.
    + intros [i Hi]. apply Hobj in Hi as (g & Hg & <-).
      apply list_elem_of_fmap. exists g. split; [reflexivity|].
      apply list_elem_of_lookup. eauto.
  - intros g Hg. apply list_elem_of_lookup in Hg as [i Hg]. eauto.
Qed.

Lemma is_zero_Qeq (a b : Q) : (a == b)%Q -> is_zero a = is_zero b.
Proof.
  intros E. unfold is_zero.
  destruct (Qeq_bool b 0) eqn:Hb.
  - apply Qeq_bool_iff. apply Qeq_bool_iff in Hb. now rewrite E.
  - destruct (Qeq_bool a 0) eqn:Ha; [|reflexivity].
    apply Qeq_bool_iff in Ha. rewrite E in Ha.
    apply Qeq_bool_iff in Ha. congruence.
Qed.

Lemma is_neg_Qeq (a b : Q) : (a == b)%Q -> is_neg a = is_neg b.
Proof.
  intros E. unfold is_neg. f_equal.
  destruct (Qle_bool 0 b) eqn:Hb.
  - apply Qle_bool_iff. apply Qle_bool_iff in Hb. now rewrite E.
  - destruct (Qle_bool 0 a) eqn:Ha; [|reflexivity].
    apply Qle_bool_iff in Ha. rewrite E in Ha.
    apply Qle_bool_iff in Ha. congruence.
Qed.

(** C9.  [groupPositionsArray] needs a non-empty array: on the empty
    one the first statement, which reads [arr[0].pendingReserveReward],
    throws a [TypeError] and no list of groups is returned; on an array
    with a first element the whole evaluation returns normally. *)
Theorem groupPositionsArray_requires_nonempty :
  groupPositionsArray compareString [] = Throw TypeError
  /\ forall (v : PL.t) (arr : list PL.t),
       exists out, groupPositionsArray compareString (v :: arr) = Ok out.
Proof.
  split; [reflexivity|]. intros v arr.
  destruct (groupPositionsArray_groups (v :: arr)) as (out & Hout & _);
    [discriminate|].
  now exists out.
Qed.

(** C4, amended.  Every group reports
    [roi = (fullyProtected.amount - stake.amount) / stake.amount] in
    [number] arithmetic, the fully protected amount being the
    reward-adjusted sum and the stake the summed stake.  There is no
    guard for a zero summed stake: the division is carried out all the
    same and [roi] is [NaN] when the fully protected amount is zero or
    [NaN], and an infinity of its sign otherwise; nothing is thrown. *)
Theorem roi_unguarded (v : PL.t) (arr : list PL.t) :
  exists out,
    groupPositionsArray compareString (v :: arr) = Ok out
    /\ forall g, g ∈ out ->
         GP.roi g
         = js_div (js_minus (GP.amount' (GP.fullyProtected g))
                            (GP.amount (GP.stake g)))
                  (GP.amount (GP.stake g))
         /\ forall s : bool,
              GP.amount (GP.stake g) = S754_zero s ->
              GP.roi g
              = match GP.amount' (GP.fullyProtected g) with
                | S754_nan | S754_zero _ => S754_nan
                | S754_infinity sb | S754_finite sb _ _ =>
                    S754_infinity (xorb sb s)
                end.
Proof.
  destruct (groupPositionsArray_groups (v :: arr)) as (out & Hout & _ & _ & Hg);
    [discriminate|].
  exists out. split; [exact Hout|]. intros g Hin.
  destruct (Hg g Hin) as (f & ms & g0 & _ & Hn & ->).
  assert (GP.roi (touches (v :: arr) (f :: ms) g0)
          = js_div (js_minus (GP.amount' (GP.fullyProtected
                                 (touches (v :: arr) (f :: ms) g0)))
                             (GP.amount (GP.stake
                                 (touches (v :: arr) (f :: ms) g0))))
                   (GP.amount (GP.stake
                              (touches (v :: arr) (f :: ms) g0)))) as Hroi.
  { destruct (touches_fixed (v :: arr) (f :: ms) g0)
      as (_&_&_&_&->&->&_&_&_&->).
    now apply new_item_fields in Hn as (_&_&_&_&_&_&_&_&->). }
  split; [exact Hroi|]. intros s Hs.
  rewrite Hroi, Hs. apply js_div_minus_zero.
Qed.

(** The reward-adjusted amount of a new object. *)
Lemma new_item_reward (arr : list PL.t) (v : PL.t) (g0 : GP.t) :
  new_item arr v = Ok g0 ->
  exists sumFullyProtected,
    reduce js_plus (map (fun x => detail_amount (PL.fullyProtected x))
                        (filtered_like arr v))
    = Ok sumFullyProtected
    /\ GP.amount' (GP.fullyProtected g0)
       = toNumber
           (plus (if compareString (PL.symbol (PL.stake v)) "BNT"
                  then PL.pendingReserveReward v
                  else dividedBy
                         (times (PL.pendingReserveReward v)
                                (BigNumber_of_number (PL.bntTokenPrice v)))
                         (BigNumber_of_number (PL.reserveTokenPrice v)))
                 (BigNumber_of_number sumFullyProtected)).
Proof.
  unfold new_item. fold (filtered_like arr v).
  destruct (filtered_like arr v) as [|x l] eqn:E; simpl; [discriminate|].
  destruct (compareString _ _); simpl; intros [= <-]; simpl;
    eexists; split; reflexivity.
Qed.

(** [collapsedData]: every position of a group of more than one is
    pushed, and the array is kept sorted. *)
Lemma touches_collapsed (arr ms : list PL.t) (g : GP.t) :
  let g' := touches arr ms g in
  Permutation (GP.collapsedData g')
    (GP.collapsedData g
     ++ filter (fun v => (1 < length (filtered_like arr v))%nat) ms)
  /\ (descending (fun p => PL.unixTime (PL.stake p)) (GP.collapsedData g) ->
      descending (fun p => PL.unixTime (PL.stake p)) (GP.collapsedData g')).
Proof.
  revert g. induction ms as [|v ms IH]; intros g; simpl.
  - split; [now rewrite app_nil_r|auto].
  - destruct (IH (touch arr v g)) as [Hp Hs]. unfold touches in *. simpl.
    assert (GP.collapsedData (earlier_insurance v g) = GP.collapsedData g)
      as Hcd by (unfold earlier_insurance; now destruct (_ <? _)).
    unfold touch in *. fold (filtered_like arr v) in *.
    destruct (Nat.ltb_spec 1 (length (filtered_like arr v))) as [Hlt|Hge].
    + rewrite filter_cons_True by exact Hlt. split.
      * rewrite Hp. simpl. rewrite sort_desc_perm, Hcd.
        rewrite <- app_assoc. reflexivity.
      * intros _. apply Hs. simpl. apply sort_desc_sorted.
    + rewrite filter_cons_False by lia. split.
      * now rewrite Hp, Hcd.
      * intros H. apply Hs. now rewrite Hcd.
Qed.

(** [insuranceStart]: the least one met. *)
Lemma touches_insurance (arr ms : list PL.t) (g : GP.t) :
  GP.insuranceStart (touches arr ms g)
  = fold_left Z.min (map PL.insuranceStart ms) (GP.insuranceStart g).
Proof.
  revert g. induction ms as [|v ms IH]; intros g; simpl; [reflexivity|].
  unfold touches in *. simpl. rewrite IH. f_equal.
  unfold touch, earlier_insurance.
  destruct (_ <? _)%nat; destruct (Z.ltb_spec (PL.insuranceStart v)
                                              (GP.insuranceStart g));
    simpl; lia.
Qed.

Lemma fold_min_least (l : list Z) (x : Z) :
  let m := fold_left Z.min l x in
  m <= x /\ Forall (fun y => m <= y) l /\ (m = x \/ m ∈ l).
Proof.
  revert x. induction l as [|a l IH]; intros x; simpl.
  - split; [lia|]. split; [constructor|now left].
  - destruct (IH (Z.min x a)) as (H1 & H2 & H3). split; [lia|]. split.
    + constructor; [lia|exact H2].
    + destruct H3 as [H3|H3].
      * destruct (Z.min_spec x a) as [[_ E]|[_ E]]; rewrite E in H3 |- *.
        -- now left.
        -- right. rewrite H3. left.
      * right. now right.
Qed.

Lemma group_of_pair (arr vs : list PL.t) (k : string) (g : GP.t) :
  group_of arr vs k g ->
  exists f, f ∈ vs /\ id_of f = k
    /\ GP.poolId g = PL.poolId (PL.stake f)
    /\ GP.symbol g = PL.symbol (PL.stake f)
    /\ reduce js_plus (map (fun x => or_zero (PL.amount (PL.stake x)))
                           (filtered_like arr f))
       = Ok (GP.amount (GP.stake g))
    /\ GP.fees g
       = fold_left js_plus (map (fun x => detail_amount (PL.fees x))
                                (filtered_like arr f)) (S754_zero false).
Proof.
  intros Hg.
  destruct (group_of_member _ _ _ _ Hg) as (f & g0 & _ & Hf & Hid & Hn & ->).
  destruct (touches_fixed arr (members k vs) g0)
    as (_ & -> & -> & _ & -> & _ & _ & _ & -> & _).
  apply new_item_fields in Hn as (_ & -> & -> & _ & _ & _ & Hsum & -> & _).
  exists f. repeat split; assumption.
Qed.

Lemma filtered_like_pair (arr : list PL.t) (x y : PL.t) :
  PL.poolId (PL.stake x) = PL.poolId (PL.stake y) ->
  PL.symbol (PL.stake x) = PL.symbol (PL.stake y) ->
  filtered_like arr x = filtered_like arr y.
Proof. unfold filtered_like. now intros -> ->. Qed.

(** C2, amended.  Provided no two positions of different (poolId,
    symbol) pairs share the id string [poolId-symbol], the result on a
    non-empty array has, for every pair that occurs, exactly one group
    of that pool and symbol; its id is that of the pair and its
    [stake.amount] is the [reduce] by [+] of the stakes of the
    positions of the pair, in the order of the array and in [number]
    arithmetic; for stakes that are non-negative integers with a sum
    below [2^53] this is their sum. *)
Theorem one_group_per_pair (arr : list PL.t) :
  arr <> [] -> distinct_ids arr ->
  exists out,
    groupPositionsArray compareString arr = Ok out
    /\ forall v, v ∈ arr ->
       exists g,
         filter (fun g' => GP.poolId g' = PL.poolId (PL.stake v)
                           /\ GP.symbol g' = PL.symbol (PL.stake v)) out
         = [g]
         /\ GP.id g = id_of v
         /\ reduce js_plus (map (fun x => or_zero (PL.amount (PL.stake x)))
                                (filtered_like arr v))
            = Ok (GP.amount (GP.stake g))
         /\ forall zs : list Z,
              map (fun x => PL.amount (PL.stake x)) (filtered_like arr v)
              = map number_of_Z zs ->
              Forall (fun z => 0 <= z) zs -> Zsum zs < 2 ^ 53 ->
              GP.amount (GP.stake g) = number_of_Z (Zsum zs).
Proof.
  intros Hne Hdist.
  destruct (groupPositionsArray_groups arr Hne)
    as (out & Hout & Hnd & Hids & Hgroups).
  exists out. split; [exact Hout|]. intros v Hv.
  assert (id_of v ∈ map GP.id out) as Hk.
  { apply Hids, list_elem_of_fmap. eauto. }
  destruct (filter_key_unique GP.id out (id_of v) Hnd Hk) as (g & Hfilter & Hid).
  assert (g ∈ out) as Hg.
  { assert (g ∈ filter (fun y => GP.id y = id_of v) out) as H
      by (rewrite Hfilter; left).
    now apply list_elem_of_filter in H as [_ H]. }
  exists g.
  assert (forall g', g' ∈ out ->
            (GP.poolId g' = PL.poolId (PL.stake v)
             /\ GP.symbol g' = PL.symbol (PL.stake v))
            <-> GP.id g' = id_of v) as Hiff.
  { intros g' Hg'. pose proof (Hgroups g' Hg') as Hgo.
    destruct (group_of_pair _ _ _ _ Hgo) as (f & Hf & Hidf & Hp & Hs & _).
    split.
    - intros [E1 E2]. rewrite <- Hidf. unfold id_of. congruence.
    - intros E. rewrite E in Hidf.
      destruct (Hdist f v Hf Hv Hidf) as [E1 E2]. split; congruence. }
  rewrite (filter_ext_in _ _ out Hiff).
  split; [exact Hfilter|]. split; [exact Hid|].
  destruct (group_of_pair _ _ _ _ (Hgroups g Hg))
    as (f & Hf & Hidf & _ & _ & Hsum & _).
  rewrite Hid in Hidf. destruct (Hdist f v Hf Hv Hidf) as [E1 E2].
  rewrite (filtered_like_pair arr f v E1 E2) in Hsum.
  split; [exact Hsum|]. intros zs Hzs Hnn Hlt.
  apply (reduce_js_plus_exact zs); [exact Hnn|exact Hlt|].
  rewrite <- Hzs, map_map. exact Hsum.
Qed.

Lemma group_of_insurance (arr vs : list PL.t) (k : string) (g : GP.t) :
  group_of arr vs k g ->
  Forall (fun v => GP.insuranceStart g <= PL.insuranceStart v) (members k vs)
  /\ exists v, v ∈ members k vs /\ GP.insuranceStart g = PL.insuranceStart v.
Proof.
  intros (f & ms & g0 & Hm & Hn & ->). rewrite Hm.
  rewrite touches_insurance.
  apply new_item_fields in Hn as (_ & _ & _ & _ & -> & _).
  destruct (fold_min_least (map PL.insuranceStart (f :: ms))
              (PL.insuranceStart f)) as (H1 & H2 & H3).
  split.
  - apply Forall_forall. intros v Hv.
    rewrite Forall_forall in H2. apply H2.
    apply list_elem_of_fmap. eauto.
  - destruct H3 as [H3|H3].
    + exists f. split; [left|exact H3].
    + apply list_elem_of_fmap in H3 as (v & H3 & Hv). eauto.
Qed.

Lemma group_of_collapsed (arr vs : list PL.t) (k : string) (g : GP.t) :
  group_of arr vs k g ->
  Permutation (GP.collapsedData g)
    (filter (fun v => (1 < length (filtered_like arr v))%nat) (members k vs))
  /\ descending (fun p => PL.unixTime (PL.stake p)) (GP.collapsedData g).
Proof.
  intros (f & ms & g0 & Hm & Hn & ->). rewrite Hm.
  destruct (touches_collapsed arr (f :: ms) g0) as [Hp Hs].
  apply new_item_fields in Hn as (_ & _ & _ & _ & _ & Hcd & _).
  rewrite Hcd in Hp, Hs. split; [exact Hp|]. apply Hs. constructor.
Qed.

Lemma new_item_coverage (arr : list PL.t) (v : PL.t) (g0 : GP.t) :
  new_item arr v = Ok g0 ->
  GP.insuranceStart g0 = PL.insuranceStart v
  /\ GP.unixTime (GP.stake g0) = PL.unixTime (PL.stake v)
  /\ GP.coverageDecPercent g0 = PL.coverageDecPercent v
  /\ GP.fullCoverage g0 = PL.fullCoverage v.
Proof.
  unfold new_item.
  do 3 (destruct (reduce js_plus _); simpl; [|discriminate]).
  destruct (compareString _ _); intros [= <-]; simpl; repeat split.
Qed.

(** The four fields set together come from one position. *)
Lemma touches_coverage (arr ms : list PL.t) :
  forall (g : GP.t) (x : PL.t),
  GP.insuranceStart g = PL.insuranceStart x
  /\ GP.unixTime (GP.stake g) = PL.unixTime (PL.stake x)
  /\ GP.coverageDecPercent g = PL.coverageDecPercent x
  /\ GP.fullCoverage g = PL.fullCoverage x ->
  exists y,
    (y = x \/ y ∈ ms)
    /\ GP.insuranceStart (touches arr ms g) = PL.insuranceStart y
    /\ GP.unixTime (GP.stake (touches arr ms g)) = PL.unixTime (PL.stake y)
    /\ GP.coverageDecPercent (touches arr ms g) = PL.coverageDecPercent y
    /\ GP.fullCoverage (touches arr ms g) = PL.fullCoverage y.
Proof.
  induction ms as [|v ms IH]; intros g x Hx.
  - exists x. split; [now left|exact Hx].
  - unfold touches in *. cbn [fold_left].
    assert (exists y, (y = x \/ y = v)
              /\ GP.insuranceStart (touch arr v g) = PL.insuranceStart y
              /\ GP.unixTime (GP.stake (touch arr v g))
                 = PL.unixTime (PL.stake y)
              /\ GP.coverageDecPercent (touch arr v g)
                 = PL.coverageDecPercent y
              /\ GP.fullCoverage (touch arr v g) = PL.fullCoverage y)
      as (y & Hy & Hfields).
    { unfold touch, earlier_insurance. cbv zeta.
      destruct (PL.insuranceStart v <? GP.insuranceStart g);
        destruct (1 <? _)%nat; unfold collapse; simpl;
        first [solve [exists v; split; [now right|repeat split; reflexivity]]
              |exists x; split; [now left|exact Hx]]. }
    destruct (IH _ _ Hfields) as (z & Hz & Hzf).
    exists z. split; [|exact Hzf].
    destruct Hz as [->|Hz]; [|right; now right].
    destruct Hy as [->| ->]; [now left|right; left].
Qed.

(** The coverage fields and the time of the stake of a group are those
    of one of its positions, which starts as early as the group. *)
Lemma group_of_coverage (arr vs : list PL.t) (k : string) (g : GP.t) :
  group_of arr vs k g ->
  exists y,
    y ∈ members k vs
    /\ PL.insuranceStart y = GP.insuranceStart g
    /\ PL.unixTime (PL.stake y) = GP.unixTime (GP.stake g)
    /\ PL.coverageDecPercent y = GP.coverageDecPercent g
    /\ PL.fullCoverage y = GP.fullCoverage g.
Proof.
  intros (f & ms & g0 & Hm & Hn & ->).
  destruct (touches_coverage arr (f :: ms) g0 f (new_item_coverage _ _ _ Hn))
    as (y & Hy & H1 & H2 & H3 & H4).
  exists y. rewrite Hm. repeat split; auto.
  destruct Hy as [->|Hy]; [left|exact Hy].
Qed.


(** C1, amended.  The two positions of pool ["P1"] and symbol ["BNT"]
    with stakes 100 and 50, fully protected amounts 110 and 55 and
    pending rewards 5 and 2 give one group with [stake.amount = 150],
    [fullyProtected.amount = 170] (110 + 55 + 5) and two entries in
    [collapsedData].  In general the reward of a group is the pending
    reward of its first position alone: for the base token it is added
    as it is to the summed fully protected amount, otherwise after the
    conversion [reward * bntTokenPrice / reserveTokenPrice] with the
    prices of that first position; the sum is a sum of [number]s, the
    reward is added in BigNumber arithmetic and the result is turned
    into a [number]. *)
Theorem first_reward_added :
  (compareString "BNT" "BNT" = true ->
   forall p1 p2 : PL.t,
   exists g,
     groupPositionsArray compareString
       [with_amounts p1 "P1" "BNT" (number_of_Z 100) (number_of_Z 110) (ofZ 5);
        with_amounts p2 "P1" "BNT" (number_of_Z 50) (number_of_Z 55) (ofZ 2)]
     = Ok [g]
     /\ GP.amount (GP.stake g) = number_of_Z 150
     /\ GP.amount' (GP.fullyProtected g) = number_of_Z 170
     /\ length (GP.collapsedData g) = 2%nat)
  /\ (forall (v : PL.t) (arr : list PL.t),
      exists out,
        groupPositionsArray compareString (v :: arr) = Ok out
        /\ forall g, g ∈ out ->
           exists f sumFullyProtected,
             head (members (GP.id g) (v :: arr)) = Some f
             /\ reduce js_plus
                   (map (fun x => detail_amount (PL.fullyProtected x))
                        (filtered_like (v :: arr) f))
                = Ok sumFullyProtected
             /\ GP.amount' (GP.fullyProtected g)
                = toNumber
                    (plus (if compareString (GP.symbol g) "BNT"
                           then PL.pendingReserveReward f
                           else dividedBy
                                  (times (PL.pendingReserveReward f)
                                         (BigNumber_of_number
                                            (PL.bntTokenPrice f)))
                                  (BigNumber_of_number
                                     (PL.reserveTokenPrice f)))
                          (BigNumber_of_number sumFullyProtected))).
Proof.
  split.
  - intros HBNT p1 p2.
    set (a1 := with_amounts p1 "P1" "BNT" (number_of_Z 100) (number_of_Z 110)
                            (ofZ 5)).
    set (a2 := with_amounts p2 "P1" "BNT" (number_of_Z 50) (number_of_Z 55)
                            (ofZ 2)).
    destruct (groupPositionsArray_groups [a1; a2])
      as (out & Hout & Hnd & Hids & Hgroups); [discriminate|].
    assert (forall g, g ∈ out -> GP.id g = "P1-BNT") as Hall.
    { intros g Hg.
      assert (GP.id g ∈ map id_of [a1; a2]) as H
        by (apply Hids, list_elem_of_fmap; eauto).
      simpl in H. now repeat (apply elem_of_cons in H as [H|H]; [exact H|]);
        apply not_elem_of_nil in H. }
    destruct out as [|g [|g2 rest]].
    + exfalso. apply (not_elem_of_nil "P1-BNT").
      apply (Hids "P1-BNT"). simpl. left.
    + exists g. split; [exact Hout|].
      assert (g ∈ [g]) as Hg by left.
      pose proof (Hgroups g Hg) as Hgo. rewrite (Hall g Hg) in Hgo.
      assert (members "P1-BNT" [a1; a2] = [a1; a2]) as Hmem by reflexivity.
      assert (forall f, f ∈ [a1; a2] -> filtered_like [a1; a2] f = [a1; a2])
        as Hfl.
      { intros f Hf.
        repeat (apply elem_of_cons in Hf as [->|Hf]; [reflexivity|]).
        now apply not_elem_of_nil in Hf. }
      destruct (group_of_pair _ _ _ _ Hgo) as (f & Hf & _ & _ & _ & Hsum & _).
      rewrite (Hfl f Hf) in Hsum. injection Hsum as <-.
      split; [vm_compute; reflexivity|].
      destruct (group_of_member _ _ _ _ Hgo) as (h & g0 & Hh & _ & _ & Hn & ->).
      rewrite Hmem in Hh. injection Hh as <-.
      destruct (touches_fixed [a1; a2] (members "P1-BNT" [a1; a2]) g0)
        as (_&_&_&_&_&->&_).
      destruct (new_item_reward _ _ _ Hn) as (s & Hs & ->).
      rewrite Hfl in Hs by left. injection Hs as <-.
      cbn [a1 with_amounts PL.symbol PL.stake PL.pendingReserveReward].
      rewrite HBNT. split; [vm_compute; reflexivity|].
      destruct (group_of_collapsed _ _ _ _ Hgo) as [Hcd _].
      rewrite Hmem in Hcd. apply Permutation_length in Hcd.
      etransitivity; [exact Hcd|reflexivity].
    + exfalso. apply NoDup_cons in Hnd as [Hnd _]. apply Hnd.
      rewrite (Hall g) by left. rewrite <- (Hall g2) by (right; left).
      left.
  - intros v arr.
    destruct (groupPositionsArray_groups (v :: arr))
      as (out & Hout & _ & _ & Hg); [discriminate|].
    exists out. split; [exact Hout|]. intros g Hin.
    destruct (group_of_member _ _ _ _ (Hg g Hin))
      as (f & g0 & Hhd & _ & _ & Hn & Eg).
    destruct (touches_fixed (v :: arr) (members (GP.id g) (v :: arr)) g0)
      as (_&_&Hsym&_&_&Hfp&_).
    rewrite <- Eg in Hsym, Hfp.
    destruct (new_item_reward _ _ _ Hn) as (sumFP & Hsum & Hrew).
    exists f, sumFP. split; [exact Hhd|]. split; [exact Hsum|].
    rewrite Hfp, Hsym.
    apply new_item_fields in Hn as (_ & _ & -> & _). exact Hrew.
Qed.

End GroupPositionsFacts.

(** ** groupPositionsArray on the sample inputs *)

Lemma distinct_ids_two_pools : distinct_ids two_pools.
Proof.
  intros x y Hx Hy E. unfold two_pools in *.
  repeat (apply elem_of_cons in Hx as [->|Hx]);
    try (now apply not_elem_of_nil in Hx);
    repeat (apply elem_of_cons in Hy as [->|Hy]);
    try (now apply not_elem_of_nil in Hy);
    first [split; reflexivity | discriminate E].
Qed.



(** C1, counterexample: on the two positions of the scenario the fully
    protected amount of the group is 170, not 172. *)
Lemma scenario_not_172 :
  ~ exists g,
      groupPositionsArray String.eqb scenario = Ok [g]
      /\ GP.amount (GP.stake g) = number_of_Z 150
      /\ GP.amount' (GP.fullyProtected g) = number_of_Z 172
      /\ length (GP.collapsedData g) = 2%nat.
Proof.
  intros (g & Hg & _ & Hfp & _).
  vm_compute in Hg. injection Hg as <-. vm_compute in Hfp. discriminate Hfp.
Qed.

Lemma first_reward_added_witness :
  exists g,
    groupPositionsArray String.eqb
      [with_amounts (sample "1" "" "" 0 0 0) "P1" "BNT"
                    (number_of_Z 100) (number_of_Z 110) (ofZ 5);
       with_amounts (sample "2" "" "" 0 0 0) "P1" "BNT"
                    (number_of_Z 50) (number_of_Z 55) (ofZ 2)]
    = Ok [g]
    /\ GP.amount (GP.stake g) = number_of_Z 150
    /\ GP.amount' (GP.fullyProtected g) = number_of_Z 170
    /\ length (GP.collapsedData g) = 2%nat.
Proof.
  apply (proj1 (first_reward_added String.eqb)). reflexivity.
Defined.

(** The conversion of the reward of a group that is not of the base
    token: a reward of 1 at prices 1 and 3 is the BigNumber quotient
    [0.33333333333333333333], which becomes the [number]
    [0.3333333333333333]. *)
Lemma converted_reward_is_rounded :
  exists g,
    groupPositionsArray String.eqb [priced "1" "P2" "ETH" 1 1 3] = Ok [g]
    /\ GP.amount' (GP.fullyProtected g)
       = toNumber (BigNumber_of_string "0.33333333333333333333")
    /\ BigNumber_of_number (GP.amount' (GP.fullyProtected g))
       = BigNumber_of_string "0.3333333333333333".
Proof.
  eexists. split; [vm_compute; reflexivity|].
  split; vm_compute; reflexivity.
Qed.

(** C2, counterexample: the pair (["A"], ["B-C"]) occurs in the input and
    no group of the result has that pool and symbol, the id ["A-B-C"]
    being taken by the pair (["A-B"], ["C"]). *)
Lemma colliding_pair_without_group :
  sample "2" "A" "B-C" 2 2 0 ∈ colliding
  /\ exists out,
       groupPositionsArray String.eqb colliding = Ok out
       /\ filter (fun g => GP.poolId g = "A" /\ GP.symbol g = "B-C") out = [].
Proof.
  split; [right; left|]. eexists. split; [vm_compute; reflexivity|].
  reflexivity.
Qed.

(** The sum of the stakes is a sum of [number]s: the stakes 0.1 and 0.2
    give 0.30000000000000004, which is not the [number] 0.3. *)
Lemma sum_of_stakes_is_rounded :
  exists g,
    groupPositionsArray String.eqb
      [tenths_position "1" 1 0 0 0; tenths_position "2" 2 0 0 0] = Ok [g]
    /\ BigNumber_of_number (GP.amount (GP.stake g))
       = BigNumber_of_string "0.30000000000000004"
    /\ GP.amount (GP.stake g) <> number_of_Q (3 # 10).
Proof.
  eexists. split; [vm_compute; reflexivity|].
  split; [vm_compute; reflexivity|]. vm_compute. discriminate.
Qed.

Lemma one_group_per_pair_witness :
  exists out,
    groupPositionsArray String.eqb two_pools = Ok out
    /\ forall v, v ∈ two_pools ->
       exists g,
         filter (fun g' => GP.poolId g' = PL.poolId (PL.stake v)
                           /\ GP.symbol g' = PL.symbol (PL.stake v)) out
         = [g]
         /\ GP.id g = id_of v
         /\ reduce js_plus (map (fun x => or_zero (PL.amount (PL.stake x)))
                                (filtered_like two_pools v))
            = Ok (GP.amount (GP.stake g))
         /\ forall zs : list Z,
              map (fun x => PL.amount (PL.stake x)) (filtered_like two_pools v)
              = map number_of_Z zs ->
              Forall (fun z => 0 <= z) zs -> Zsum zs < 2 ^ 53 ->
              GP.amount (GP.stake g) = number_of_Z (Zsum zs).
Proof.
  apply (one_group_per_pair String.eqb two_pools).
  - discriminate.
  - exact distinct_ids_two_pools.
Defined.



(** C4, counterexample: a single position with stake 0 and fully
    protected amount 0 is grouped without any error, with [roi = NaN];
    with fully protected amount 1 the [roi] is [Infinity]. *)
Lemma zero_stake_roi :
  (exists g,
     groupPositionsArray String.eqb [sample "1" "P1" "BNT" 0 0 0] = Ok [g]
     /\ GP.amount (GP.stake g) = number_of_Z 0 /\ GP.roi g = S754_nan)
  /\ (exists g,
        groupPositionsArray String.eqb [sample "1" "P1" "BNT" 0 1 0] = Ok [g]
        /\ GP.amount (GP.stake g) = number_of_Z 0
        /\ GP.roi g = S754_infinity false).
Proof.
  split; eexists; (split; [vm_compute; reflexivity|]); split; reflexivity.
Qed.

(** The quotient is a quotient of [number]s: on the scenario,
    [(170 - 150) / 150] is 0.13333333333333333. *)
Lemma scenario_roi :
  exists g,
    groupPositionsArray String.eqb scenario = Ok [g]
    /\ BigNumber_of_number (GP.roi g)
       = BigNumber_of_string "0.13333333333333333"
    /\ GP.roi g = number_of_Q (2 # 15).
Proof.
  eexists. split; [vm_compute; reflexivity|].
  split; vm_compute; reflexivity.
Qed.

Lemma roi_unguarded_witness :
  exists out,
    groupPositionsArray String.eqb [sample "1" "P1" "BNT" 0 1 0] = Ok out
    /\ forall g, g ∈ out ->
         GP.roi g
         = js_div (js_minus (GP.amount' (GP.fullyProtected g))
                            (GP.amount (GP.stake g)))
                  (GP.amount (GP.stake g))
         /\ forall s : bool,
              GP.amount (GP.stake g) = S754_zero s ->
              GP.roi g
              = match GP.amount' (GP.fullyProtected g) with
                | S754_nan | S754_zero _ => S754_nan
                | S754_infinity sb | S754_finite sb _ _ =>
                    S754_infinity (xorb sb s)
                end.
Proof.
  exact (roi_unguarded String.eqb (sample "1" "P1" "BNT" 0 1 0) []).
Defined.

(** ** calculateLimits *)

Lemma times_comm (x y : ext) : times x y = times y x.
Proof.
  destruct x as [a| | |], y as [b| | |]; simpl; try reflexivity.
  f_equal. apply Qred_complete. ring.
Qed.

(** The product of three finite numbers. *)
Lemma times_times_Fin (a b c : Q) :
  exists q, times (times (Fin a) (Fin b)) (Fin c) = Fin q /\ (q == a * b * c)%Q.
Proof.
  simpl. eexists. split; [reflexivity|]. now rewrite !Qred_correct.
Qed.

Lemma dividedBy_Fin (a b : Q) :
  is_zero b = false ->
  exists q, dividedBy (Fin a) (Fin b) = Fin q
            /\ (q == round_dp DECIMAL_PLACES (a / b))%Q.
Proof.
  intros Hb. unfold dividedBy, div_with. rewrite Hb.
  eexists. split; [reflexivity|]. apply Qred_correct.
Qed.

(** C8.  The effective limit is [poolLimitWei] unless that string is
    exactly ["0"], in which case it is [defaultLimitWei], and
    [tknLimitWei = (effective - minted) * (tkn / bnt) * (99.9 / 100)] in
    BigNumber arithmetic, whatever the constructor reads from the
    strings.  With decimal literals read as such, [99.9 / 100] is 0.999
    and, the reserve of BNT not being zero, the result is the rational
    [(effective - minted) * r * 0.999] where [r] is [tkn / bnt] as
    [dividedBy] gives it, rounded to [DECIMAL_PLACES] digits.  In
    particular [calculateLimits("0", "1000", "200", tkn, bnt)] computes
    with 1000. *)
Theorem calculateLimits_tknLimitWei :
  (forall (new_BigNumber : string -> BigNumber)
          (poolLimitWei defaultLimitWei mintedWei tkn bnt : string),
     let effective :=
       if String.eqb poolLimitWei "0" then defaultLimitWei else poolLimitWei in
     tknLimitWei (calculateLimits new_BigNumber poolLimitWei defaultLimitWei
                                  mintedWei tkn bnt)
     = times (times (minus (new_BigNumber effective) (new_BigNumber mintedWei))
                    (dividedBy (new_BigNumber tkn) (new_BigNumber bnt)))
             (dividedBy (new_BigNumber "99.9") (new_BigNumber "100")))
  /\ (forall (poolLimitWei defaultLimitWei mintedWei tkn bnt : string)
             (L M T B : Q),
        let effective :=
          if String.eqb poolLimitWei "0" then defaultLimitWei else poolLimitWei in
        decimal_literal effective = Fin L ->
        decimal_literal mintedWei = Fin M ->
        decimal_literal tkn = Fin T ->
        decimal_literal bnt = Fin B ->
        is_zero B = false ->
        exists q,
          tknLimitWei (calculateLimits decimal_literal poolLimitWei
                         defaultLimitWei mintedWei tkn bnt) = Fin q
          /\ (q == (L - M) * round_dp DECIMAL_PLACES (T / B) * (999 # 1000))%Q)
  /\ (forall (new_BigNumber : string -> BigNumber) (tkn bnt : string),
        tknLimitWei (calculateLimits new_BigNumber "0" "1000" "200" tkn bnt)
        = times (times (minus (new_BigNumber "1000") (new_BigNumber "200"))
                       (dividedBy (new_BigNumber tkn) (new_BigNumber bnt)))
                (dividedBy (new_BigNumber "99.9") (new_BigNumber "100"))).
Proof.
  assert (forall (new_BigNumber : string -> BigNumber)
                 (poolLimitWei defaultLimitWei mintedWei tkn bnt : string),
            tknLimitWei (calculateLimits new_BigNumber poolLimitWei
                           defaultLimitWei mintedWei tkn bnt)
            = times (times (minus (new_BigNumber
                                     (if String.eqb poolLimitWei "0"
                                      then defaultLimitWei else poolLimitWei))
                                  (new_BigNumber mintedWei))
                           (dividedBy (new_BigNumber tkn) (new_BigNumber bnt)))
                    (dividedBy (new_BigNumber "99.9") (new_BigNumber "100")))
    as Hgen.
  { intros nb p d m t b. unfold calculateLimits. simpl.
    rewrite (times_comm (dividedBy _ _) (minus _ _)).
    now destruct (String.eqb p "0"). }
  split; [exact Hgen|]. split.
  - intros p d m t b L M T B effective HL HM HT HB HB0.
    rewrite Hgen. fold effective. rewrite HL, HM, HT, HB.
    destruct (dividedBy_Fin T B HB0) as (r & -> & Hr).
    assert (dividedBy (decimal_literal "99.9") (decimal_literal "100")
            = Fin (999 # 1000)) as -> by (vm_compute; reflexivity).
    unfold minus.
    destruct (times_times_Fin (Qred (L - M)) r (999 # 1000)) as (q & -> & Hq).
    exists q. split; [reflexivity|]. now rewrite Hq, Qred_correct, Hr.
  - intros nb t b. apply Hgen.
Qed.

Lemma calculateLimits_tknLimitWei_witness :
  exists q,
    tknLimitWei (calculateLimits decimal_literal "0" "1000" "200" "1" "3") = Fin q
    /\ (q == (1000 - 200) * round_dp DECIMAL_PLACES (1 / 3) * (999 # 1000))%Q.
Proof.
  apply (proj1 (proj2 calculateLimits_tknLimitWei)
           "0" "1000" "200" "1" "3" 1000%Q 200%Q 1%Q 3%Q); reflexivity.
Defined.

(** C10.  [bntLimitWei] is the [mintedWei] argument itself, whatever the
    other four arguments are; it is not the headroom: with a limit of
    1000 and 200 minted the field reads 200 while the headroom is 800. *)
Theorem calculateLimits_bntLimitWei :
  (forall (new_BigNumber : string -> BigNumber)
          (poolLimitWei defaultLimitWei mintedWei tkn bnt : string),
     bntLimitWei (calculateLimits new_BigNumber poolLimitWei defaultLimitWei
                                  mintedWei tkn bnt)
     = mintedWei)
  /\ (forall (new_BigNumber : string -> BigNumber)
             (mintedWei p d t b p' d' t' b' : string),
        bntLimitWei (calculateLimits new_BigNumber p d mintedWei t b)
        = bntLimitWei (calculateLimits new_BigNumber p' d' mintedWei t' b'))
  /\ (decimal_literal
        (bntLimitWei (calculateLimits decimal_literal "0" "1000" "200" "3" "1"))
      = ofZ 200
      /\ minus (decimal_literal "1000") (decimal_literal "200") = ofZ 800).
Proof.
  split; [reflexivity|]. split; [reflexivity|].
  split; vm_compute; reflexivity.
Qed.

(** ** distinctArrayItem *)

Lemma scan_snoc {A S : Type} (f : S -> A -> S) (seed : S) (l : list A) (x : A) :
  scan f seed (l ++ [x]) = scan f seed l ++ [f (fold_left f l seed) x].
Proof.
  revert seed. induction l as [|a l IH]; intros seed; simpl.
  - reflexivity.
  - now rewrite IH.
Qed.

Lemma existsb_none {A : Type} (p : A -> bool) (l : list A) :
  negb (existsb p l) = true <-> Forall (fun y => p y = false) l.
Proof.
  rewrite negb_true_iff. induction l as [|y l IH]; simpl.
  - split; [constructor|reflexivity].
  - rewrite orb_false_iff, IH, Forall_cons. reflexivity.
Qed.

Section DistinctArrayItemFacts.

Context {T : Type} `{EqDecision T}.

Lemma differenceWith_fresh (comparator : option (T -> T -> bool))
  (seen batch : list T) :
  differenceWith batch seen (comparator_or_isEqual comparator)
  = unseen comparator seen batch.
Proof.
  unfold differenceWith, unseen.
  induction batch as [|x batch IH]; simpl; [reflexivity|].
  pose proof (existsb_none (comparator_or_isEqual comparator x) seen) as Hiff.
  destruct (negb (existsb _ seen)) eqn:E.
  - rewrite filter_cons_True by (now apply Hiff). now rewrite IH.
  - rewrite filter_cons_False; [exact IH|].
    intros HF. apply Hiff in HF. discriminate.
Qed.

Lemma accumulate_fresh (comparator : option (T -> T -> bool))
  (acc : DataCache) (batch : list T) :
  accumulate comparator acc batch
  = {| allEmissions := allEmissions acc
                       ++ unseen comparator (allEmissions acc) batch;
       newData := unseen comparator (allEmissions acc) batch |}.
Proof.
  unfold accumulate.
  change (match comparator with Some c => c | None => isEqual end)
    with (comparator_or_isEqual comparator).
  now rewrite differenceWith_fresh.
Qed.

(** C6.  Subscribed, the stage first emits the initial value.  Then,
    for each batch, it looks for the elements of the batch that the
    comparator (deep equality when none is given) relates to no element
    accumulated so far: these are appended to the accumulated elements
    and emitted as one array, unless there are none, in which case
    nothing is emitted.  Fed [[a, b]] and then [[a, b, c]] after an
    empty initial value, it emits [[a, b]] and then [[c]]. *)
Theorem distinctArrayItem_deltas (initialValue : list T)
  (comparator : option (T -> T -> bool)) :
  distinctArrayItem initialValue comparator [] = [initialValue]
  /\ (forall (source : list (list T)) (batch : list T),
        let seen := seen_after initialValue comparator source in
        let delta := unseen comparator seen batch in
        distinctArrayItem initialValue comparator (source ++ [batch])
        = distinctArrayItem initialValue comparator source
          ++ match delta with [] => [] | _ :: _ => [delta] end
        /\ seen_after initialValue comparator (source ++ [batch])
           = seen ++ delta)
  /\ distinctArrayItem [] None [["a"; "b"]; ["a"; "b"; "c"]]
     = [[]; ["a"; "b"]; ["c"]].
Proof.
  split; [reflexivity|]. split; [|vm_compute; reflexivity].
  intros source batch seen delta. split.
  - unfold distinctArrayItem, startWith, pluck.
    rewrite scan_snoc, List.filter_app, map_app, app_comm_cons.
    f_equal. rewrite accumulate_fresh.
    fold (seen_after initialValue comparator source). fold seen. fold delta.
    simpl. now destruct delta.
  - unfold seen, delta, seen_after. rewrite fold_left_app.
    cbn [fold_left]. now rewrite accumulate_fresh.
Qed.

End DistinctArrayItemFacts.

(** ** optimisticContract *)

Section OptimisticContractFacts.

Variable compareString : string -> string -> bool.

(** With a cached value, whatever the source emits, no call of [setItem]
    ever writes the cached value back, and the calls made before the
    stage are kept. *)
Lemma cached_value_never_written (key cached : string) (source : list string)
  (ls : LocalStorage) :
  getItem key ls = Some cached -> cached <> "" ->
  exists calls,
    setItem_calls (optimisticContract compareString key source ls).2
    = setItem_calls ls ++ calls
    /\ Forall (fun call => call.1 = key /\ call.2 <> cached) calls.
Proof.
  intros Hget Hne. unfold optimisticContract. rewrite Hget.
  assert (String.eqb cached "" = false) as -> by now apply String.eqb_neq.
  simpl negb. cbv iota.
  generalize (distinctUntilChanged compareString (startWith cached source)).
  intros emitted. clear Hget. revert ls.
  induction emitted as [|data emitted IH]; intros ls.
  - exists []. split; [now rewrite app_nil_r|constructor].
  - unfold tap in *. simpl in *.
    destruct (String.eqb cached data) eqn:E; simpl.
    + apply IH.
    + destruct (IH (setItem key data ls)) as (calls & -> & Hcalls).
      exists ((key, data) :: calls). split.
      * simpl. now rewrite <- app_assoc.
      * constructor; [|exact Hcalls]. simpl. split; [reflexivity|].
        apply String.eqb_neq in E. congruence.
Qed.

(** The scenario of the specification: with ["0xOLD"] persisted and a
    source emitting ["0xOLD"] and then ["0xNEW"], the stage emits
    ["0xOLD"] once, then ["0xNEW"], and calls [setItem] for ["0xNEW"]
    only. *)
Lemma optimisticContract_scenario :
  compareString "0xOLD" "0xOLD" = true ->
  compareString "0xOLD" "0xNEW" = false ->
  let r := optimisticContract compareString "key" ["0xOLD"; "0xNEW"]
                              (stored "key" "0xOLD") in
  r.1 = ["0xOLD"; "0xNEW"]
  /\ setItem_calls r.2 = [("key", "0xNEW")]
  /\ getItem "key" r.2 = Some "0xNEW".
Proof.
  intros H1 H2. unfold optimisticContract.
  change (getItem "key" (stored "key" "0xOLD")) with (Some "0xOLD").
  simpl. rewrite H1, H2. vm_compute. repeat split.
Qed.

(** C5, at the failing input.  With ["0xOLD"] persisted and a source
    emitting ["0xNEW"] and then ["0xOLD"], the stage emits ["0xOLD"],
    ["0xNEW"] and ["0xOLD"]: two changes are observed after the replay of
    the cache.  [setItem] is called once only, for ["0xNEW"]: the return
    to ["0xOLD"] is compared with the value read when the stage was
    built and is not written, so the storage is left with ["0xNEW"] while
    the value emitted last is ["0xOLD"]. *)
Theorem optimisticContract_misses_return_to_cached :
  compareString "0xOLD" "0xNEW" = false ->
  compareString "0xNEW" "0xOLD" = false ->
  let r := optimisticContract compareString "key" ["0xNEW"; "0xOLD"]
                              (stored "key" "0xOLD") in
  r.1 = ["0xOLD"; "0xNEW"; "0xOLD"]
  /\ setItem_calls r.2 = [("key", "0xNEW")]
  /\ getItem "key" r.2 = Some "0xNEW"
  /\ last r.1 = Some "0xOLD".
Proof.
  intros H1 H2. unfold optimisticContract.
  change (getItem "key" (stored "key" "0xOLD")) with (Some "0xOLD").
  simpl. rewrite H1, H2. vm_compute. repeat split.
Qed.

End OptimisticContractFacts.

Lemma optimisticContract_misses_return_to_cached_witness :
  let r := optimisticContract String.eqb "key" ["0xNEW"; "0xOLD"]
                              (stored "key" "0xOLD") in
  r.1 = ["0xOLD"; "0xNEW"; "0xOLD"]
  /\ setItem_calls r.2 = [("key", "0xNEW")]
  /\ getItem "key" r.2 = Some "0xNEW"
  /\ last r.1 = Some "0xOLD".
Proof.
  apply (optimisticContract_misses_return_to_cached String.eqb); reflexivity.
Defined.

(** ** calculatePriceDeviationTooHigh *)

Lemma round_half_up_Qeq (a b : Q) :
  (a == b)%Q -> round_half_up a = round_half_up b.
Proof.
  intros E. unfold round_half_up.
  assert (Qle_bool 0 a = Qle_bool 0 b) as -> by now rewrite E.
  assert (Qfloor (a + (1 # 2)) = Qfloor (b + (1 # 2))) as -> by now rewrite E.
  assert (Qfloor (- a + (1 # 2)) = Qfloor (- b + (1 # 2))) as ->
    by now rewrite E.
  reflexivity.
Qed.

Lemma round_dp_Qeq (dp : nat) (a b : Q) :
  (a == b)%Q -> round_dp dp a = round_dp dp b.
Proof.
  intros E. unfold round_dp. f_equal. f_equal.
  apply round_half_up_Qeq. now rewrite E.
Qed.

Lemma round_half_up_mono (a b : Q) :
  (0 <= a)%Q -> (a <= b)%Q -> round_half_up a <= round_half_up b.
Proof.
  intros Ha Hab. unfold round_half_up.
  assert (Qle_bool 0 a = true) as -> by now apply Qle_bool_iff.
  assert (Qle_bool 0 b = true) as ->
    by (apply Qle_bool_iff; now apply Qle_trans with a).
  apply Qfloor_resp_le. lra.
Qed.

Lemma pow10_pos (dp : nat) : (0 < inject_Z (10 ^ Z.of_nat dp))%Q.
Proof.
  change 0%Q with (inject_Z 0). rewrite <- Zlt_Qlt.
  apply Z.pow_pos_nonneg; lia.
Qed.

Lemma round_dp_mono (dp : nat) (a b : Q) :
  (0 <= a)%Q -> (a <= b)%Q -> (round_dp dp a <= round_dp dp b)%Q.
Proof.
  intros Ha Hab. unfold round_dp. pose proof (pow10_pos dp) as Hpos.
  apply Qmult_le_compat_r.
  - rewrite <- Zle_Qle. apply round_half_up_mono.
    + apply Qmult_le_0_compat; [exact Ha|now apply Qlt_le_weak].
    + apply Qmult_le_compat_r; [exact Hab|now apply Qlt_le_weak].
  - apply Qlt_le_weak, Qinv_lt_0_compat, Hpos.
Qed.

Lemma is_zero_false (q : Q) : is_zero q = false -> ~ (q == 0)%Q.
Proof.
  unfold is_zero. intros H E. apply Qeq_bool_iff in E. congruence.
Qed.

(** A finite non-zero rate divided by itself is exactly 1. *)
Lemma dividedBy_self (q : Q) :
  is_zero q = false -> dividedBy (Fin q) (Fin q) = Fin 1.
Proof.
  intros Hq. unfold dividedBy, div_with. rewrite Hq. f_equal.
  rewrite (round_dp_Qeq DECIMAL_PLACES (q / q) 1).
  - vm_compute. reflexivity.
  - apply is_zero_false in Hq. now field.
Qed.

Lemma below_one (delta : Q) :
  (1 <= delta <= 1000000)%Q ->
  isGreaterThan (Fin 1) (dividedBy (minus oneMillion (Fin delta)) oneMillion)
  = true.
Proof.
  intros [H1 H2]. unfold oneMillion, ofZ, minus.
  destruct (dividedBy_Fin (Qred (inject_Z 1000000 - delta)) (inject_Z 1000000))
    as (l & -> & Hl); [reflexivity|].
  simpl. apply negb_true_iff.
  destruct (Qle_bool 1 l) eqn:E; [exfalso|reflexivity].
  apply Qle_bool_iff in E. rewrite Hl in E.
  assert (round_dp DECIMAL_PLACES (Qred (inject_Z 1000000 - delta)
                                   / inject_Z 1000000)
          <= round_dp DECIMAL_PLACES (999999 # 1000000))%Q as Hle.
  { apply round_dp_mono.
    - rewrite Qred_correct. apply Qle_shift_div_l; [reflexivity|].
      change (inject_Z 1000000) with 1000000%Q. lra.
    - rewrite Qred_correct. apply Qle_shift_div_r; [reflexivity|].
      change (inject_Z 1000000) with 1000000%Q. lra. }
  assert (round_dp DECIMAL_PLACES (999999 # 1000000) == 999999 # 1000000)%Q
    as Hc by (vm_compute; reflexivity).
  rewrite Hc in Hle. lra.
Qed.

Lemma above_one (delta : Q) :
  (1 <= delta <= 1000000)%Q ->
  isGreaterThan (dividedBy oneMillion (minus oneMillion (Fin delta))) (Fin 1)
  = true.
Proof.
  intros [H1 H2]. unfold oneMillion, ofZ, minus.
  set (base := Qred (inject_Z 1000000 - delta)).
  assert (base == 1000000 - delta)%Q as Hbase by apply Qred_correct.
  destruct (is_zero base) eqn:Hz.
  - unfold dividedBy, div_with. rewrite Hz. reflexivity.
  - destruct (dividedBy_Fin (inject_Z 1000000) base Hz) as (u & -> & Hu).
    simpl. apply negb_true_iff.
    destruct (Qle_bool u 1) eqn:E; [exfalso|reflexivity].
    apply Qle_bool_iff in E. rewrite Hu in E.
    apply is_zero_false in Hz.
    assert (0 < base)%Q as Hpos.
    { apply Qle_lt_or_eq in H2. destruct H2 as [H2|H2]; [lra|].
      exfalso. apply Hz. rewrite Hbase, H2. reflexivity. }
    assert (round_dp DECIMAL_PLACES (1000001 # 1000000)
            <= round_dp DECIMAL_PLACES (inject_Z 1000000 / base))%Q as Hle.
    { apply round_dp_mono; [discriminate|].
      apply Qle_shift_div_l; [exact Hpos|].
      change (inject_Z 1000000) with 1000000%Q. lra. }
    assert (round_dp DECIMAL_PLACES (1000001 # 1000000) == 1000001 # 1000000)%Q
      as Hc by (vm_compute; reflexivity).
    rewrite Hc in Hle. lra.
Qed.

(** C7, amended.  The function computes [spotRate = primary / secondary]
    and [threshold = averageRate / spotRate] with [dividedBy], and
    returns false exactly when [threshold] is greater than
    [(1000000 - maxDeviation) / 1000000] and less than
    [1000000 / (1000000 - maxDeviation)].  When the average rate is the
    spot rate, the spot rate is finite and not zero, and the maximal
    deviation lies between 1 and 1000000, the result is false. *)
Theorem priceDeviation_identity :
  (forall averageRate primary secondary maxDeviation : BigNumber,
     let spotRate := dividedBy primary secondary in
     let threshold := dividedBy averageRate spotRate in
     calculatePriceDeviationTooHigh averageRate primary secondary maxDeviation
     = negb (isGreaterThan threshold
               (dividedBy (minus oneMillion maxDeviation) oneMillion)
             && isGreaterThan
                  (dividedBy oneMillion (minus oneMillion maxDeviation))
                  threshold))
  /\ (forall (primary secondary : BigNumber) (q delta : Q),
        dividedBy primary secondary = Fin q ->
        is_zero q = false ->
        (1 <= delta <= 1000000)%Q ->
        calculatePriceDeviationTooHigh (dividedBy primary secondary)
          primary secondary (Fin delta)
        = false).
Proof.
  split; [reflexivity|].
  intros p s q delta Hspot Hq Hdelta.
  unfold calculatePriceDeviationTooHigh. rewrite Hspot.
  rewrite (dividedBy_self q Hq), (below_one delta Hdelta),
    (above_one delta Hdelta).
  reflexivity.
Qed.

Lemma priceDeviation_identity_witness :
  calculatePriceDeviationTooHigh (dividedBy (ofZ 2) (ofZ 1)) (ofZ 2) (ofZ 1)
    (Fin 1000)
  = false.
Proof.
  apply (proj2 priceDeviation_identity (ofZ 2) (ofZ 1) 2%Q 1000%Q).
  - reflexivity.
  - reflexivity.
  - split; unfold Qle; simpl; lia.
Defined.

(** C7, counterexamples: the average rate is the spot rate and the
    maximal deviation is positive, and the result is true, for a spot
    rate of zero (the threshold is [0 / 0]) and for a maximal deviation
    above one million. *)
Lemma identity_case_too_high :
  (dividedBy (ofZ 0) (ofZ 1) = ofZ 0
   /\ isGreaterThan (ofZ 1000) (ofZ 0) = true
   /\ calculatePriceDeviationTooHigh (ofZ 0) (ofZ 0) (ofZ 1) (ofZ 1000) = true)
  /\ (dividedBy (ofZ 1) (ofZ 1) = ofZ 1
      /\ isGreaterThan (ofZ 2000000) (ofZ 0) = true
      /\ calculatePriceDeviationTooHigh (ofZ 1) (ofZ 1) (ofZ 1) (ofZ 2000000)
         = true).
Proof. vm_compute. repeat split. Qed.

(** ** Printing and reading decimals *)

Lemma digit_of_pretty_N_char (d : N) :
  (d < 10)%N -> digit_of (pretty_N_char d) = Some (Z.of_N d).
Proof.
  intros Hd.
  assert (d = 0 \/ d = 1 \/ d = 2 \/ d = 3 \/ d = 4 \/ d = 5 \/ d = 6
          \/ d = 7 \/ d = 8 \/ d = 9)%N as H by lia.
  repeat (destruct H as [->|H]; [reflexivity|]). now subst.
Qed.

Lemma read_digits_digit (d : N) (s : string) (v : Z) (c : nat) :
  (d < 10)%N ->
  read_digits (String (pretty_N_char d) s) v c
  = read_digits s (10 * v + Z.of_N d) (S c).
Proof. intros Hd. simpl. now rewrite digit_of_pretty_N_char. Qed.

(** Reading the digits of [x] printed in front of [s]. *)
Lemma read_digits_pretty_N_go (x : N) :
  forall (s : string) (v : Z) (c : nat),
  exists k : nat,
    read_digits (pretty_N_go x s) v c
    = read_digits s (v * 10 ^ Z.of_nat k + Z.of_N x) (c + k)%nat
    /\ ((0 < x)%N -> (0 < k)%nat).
Proof.
  induction (N.lt_wf_0 x) as [x _ IH]. intros s v c.
  destruct (N.eq_dec x 0%N) as [->|Hx].
  - exists O. rewrite pretty_N_go_0. split; [|lia].
    f_equal; [simpl; lia|lia].
  - rewrite pretty_N_go_step by lia.
    destruct (IH (x `div` 10)%N) with
      (s := String (pretty_N_char (x `mod` 10)%N) s) (v := v) (c := c)
      as (k & -> & _).
    { apply N.div_lt; lia. }
    exists (S k). split; [|lia].
    rewrite read_digits_digit by (apply N.mod_lt; lia).
    f_equal; [|lia].
    rewrite Nat2Z.inj_succ, Z.pow_succ_r by lia.
    rewrite (N.div_mod x 10) at 3 by lia.
    rewrite N2Z.inj_add, N2Z.inj_mul. simpl Z.of_N. lia.
Qed.

Lemma pretty_N_go_app (x : N) :
  forall s t : string, pretty_N_go x s +:+ t = pretty_N_go x (s +:+ t).
Proof.
  induction (N.lt_wf_0 x) as [x _ IH]. intros s t.
  destruct (N.eq_dec x 0%N) as [->|Hx].
  - now rewrite !pretty_N_go_0.
  - rewrite (pretty_N_go_step x s), (pretty_N_go_step x (s +:+ t)) by lia.
    rewrite IH; [reflexivity|].
    apply N.div_lt; lia.
Qed.

Lemma pretty_N_go_first (x : N) :
  forall s : string,
  (0 < x)%N ->
  exists (ch : ascii) (s' : string) (d : Z),
    pretty_N_go x s = String ch s' /\ digit_of ch = Some d.
Proof.
  induction (N.lt_wf_0 x) as [x _ IH]. intros s Hx.
  rewrite pretty_N_go_step by lia.
  destruct (N.eq_dec (x `div` 10)%N 0%N) as [E|E].
  - rewrite E, pretty_N_go_0. do 3 eexists. split; [reflexivity|].
    apply digit_of_pretty_N_char, N.mod_lt. lia.
  - apply IH; [apply N.div_lt; lia|now apply N.neq_0_lt_0].
Qed.

(** A printed natural number starts with a digit. *)
Lemma pretty_N_first (x : N) :
  exists (ch : ascii) (s' : string) (d : Z),
    pretty x = String ch s' /\ digit_of ch = Some d.
Proof.
  unfold pretty, pretty_N. destruct (decide (x = 0)%N) as [->|Hx].
  - now exists "0"%char, "", 0.
  - apply pretty_N_go_first. lia.
Qed.

(** Reading a printed natural number in front of [t]. *)
Lemma read_digits_pretty_N (x : N) (t : string) :
  exists k : nat,
    read_digits (pretty x +:+ t) 0 0 = read_digits t (Z.of_N x) k
    /\ (0 < k)%nat.
Proof.
  unfold pretty, pretty_N. destruct (decide (x = 0)%N) as [->|Hx].
  - exists 1%nat. split; [reflexivity|lia].
  - rewrite pretty_N_go_app.
    destruct (read_digits_pretty_N_go x ("" +:+ t) 0 0) as (k & -> & Hk).
    exists k. split; [reflexivity|]. apply Hk. lia.
Qed.

Lemma fixed_digits_go_app (w : nat) :
  forall (n : N) (s t : string),
  fixed_digits_go w n s +:+ t = fixed_digits_go w n (s +:+ t).
Proof.
  induction w as [|w IH]; intros n s t; simpl; [reflexivity|].
  now rewrite IH.
Qed.

(** Reading [w] fixed digits: always [w] of them, worth [n mod 10^w]. *)
Lemma read_digits_fixed_go (w : nat) :
  forall (n : N) (s : string) (v : Z) (c : nat),
  read_digits (fixed_digits_go w n s) v c
  = read_digits s (v * 10 ^ Z.of_nat w + Z.of_N (n `mod` 10 ^ N.of_nat w))
                (c + w)%nat.
Proof.
  induction w as [|w IH]; intros n s v c.
  - simpl. rewrite N.mod_1_r. f_equal; [simpl; lia|lia].
  - cbn [fixed_digits_go]. rewrite IH.
    rewrite read_digits_digit by (apply N.mod_lt; lia).
    f_equal; [|lia].
    rewrite Nat2N.inj_succ, N.pow_succ_r', Nat2Z.inj_succ, Z.pow_succ_r by lia.
    rewrite (N.Div0.mod_mul_r n 10 (10 ^ N.of_nat w)).
    rewrite N2Z.inj_add, N2Z.inj_mul. simpl Z.of_N. lia.
Qed.

Lemma sign_split_digit (ch : ascii) (s : string) (d : Z) :
  digit_of ch = Some d ->
  match String ch s with
  | String "-" rest => (true, rest)
  | _ => (false, String ch s)
  end = (false, String ch s).
Proof.
  intros H.
  destruct ch as [[] [] [] [] [] [] [] []]; try reflexivity.
  vm_compute in H. discriminate H.
Qed.

Lemma decimal_literal_printed (neg : bool) (ip fp : N) (dp : nat) :
  (fp < 10 ^ N.of_nat dp)%N ->
  decimal_literal
    ((if neg then "-" else "")
     +:+ (pretty ip
          +:+ match dp with
              | O => ""
              | S _ => "." +:+ fixed_digits dp fp
              end))
  = Fin (Qred (let w := (inject_Z (Z.of_N ip)
                         + inject_Z (Z.of_N fp) / inject_Z (10 ^ Z.of_nat dp))%Q in
               if neg then (- w)%Q else w)).
Proof.
  intros Hfp.
  set (tail := match dp with O => "" | S _ => "." +:+ fixed_digits dp fp end).
  set (body := pretty ip +:+ tail).
  assert (match (if neg then "-" else "") +:+ body with
          | String "-" rest => (true, rest)
          | _ => (false, (if neg then "-" else "") +:+ body)
          end = (neg, body)) as Hsplit.
  { destruct neg; [reflexivity|]. change ("" +:+ body) with body.
    destruct (pretty_N_first ip) as (ch & s' & d & E & Hd).
    unfold body. rewrite E. apply (sign_split_digit ch (s' +:+ tail) d Hd). }
  unfold decimal_literal. rewrite Hsplit.
  destruct (read_digits_pretty_N ip tail) as (k & Hread & Hk).
  fold body in Hread. rewrite Hread.
  destruct dp as [|w].
  - subst tail. cbn [read_digits].
    assert ((0 <? k)%nat = true) as -> by (apply Nat.ltb_lt; lia).
    f_equal. apply Qred_complete.
    assert (fp = 0%N) as -> by (simpl in Hfp; lia).
    destruct neg; simpl; unfold Qdiv; rewrite Qmult_0_l; ring.
  - subst tail.
    change ("." +:+ fixed_digits (S w) fp)
      with (String "."%char (fixed_digits (S w) fp)).
    cbn [read_digits]. change (digit_of ".") with (@None Z). cbv iota.
    unfold fixed_digits. rewrite read_digits_fixed_go. cbn [read_digits].
    rewrite N.mod_small by exact Hfp.
    assert ((0 <? k + (0 + S w))%nat = true) as -> by (apply Nat.ltb_lt; lia).
    rewrite Z.mul_0_l, Z.add_0_l. reflexivity.
Qed.

Lemma BigNumber_of_string_Fin (s : string) (v : Q) :
  decimal_literal s = Fin v -> BigNumber_of_string s = Fin v.
Proof.
  intros H. unfold BigNumber_of_string.
  replace (2 * String.length s + 4)%nat
    with (S (2 * String.length s + 3)) by lia.
  cbn [new_BigNumber_in]. now rewrite H.
Qed.

Lemma Z_of_N_pow10 (dp : nat) : Z.of_N (10 ^ N.of_nat dp) = 10 ^ Z.of_nat dp.
Proof. now rewrite N2Z.inj_pow, nat_N_Z. Qed.

Lemma round_magnitude_nonneg (rm : rounding_mode) (m : Q) :
  (0 <= m)%Q -> 0 <= round_magnitude rm m.
Proof.
  intros Hm.
  destruct rm; cbn [round_magnitude];
    (transitivity (Qfloor 0); [reflexivity|apply Qfloor_resp_le; lra]).
Qed.

Lemma scaled_abs_nonneg (q : Q) (dp : nat) :
  (0 <= Qabs q * inject_Z (10 ^ Z.of_nat dp))%Q.
Proof.
  apply Qmult_le_0_compat; [apply Qabs_nonneg|].
  apply Qlt_le_weak, pow10_pos.
Qed.

(** Reading back what [toFixed] prints gives the rounded number. *)
Lemma BigNumber_of_string_toFixed (dp : nat) (rm : rounding_mode) (x : BigNumber) :
  BigNumber_of_string (toFixed dp rm x) = rounded dp rm x.
Proof.
  destruct x as [q| | |]; try reflexivity.
  unfold toFixed, rounded. rewrite Z_of_N_pow10.
  set (m := round_magnitude rm (Qabs q * inject_Z (10 ^ Z.of_nat dp))).
  assert (0 <= m) as Hm by apply round_magnitude_nonneg, scaled_abs_nonneg.
  set (scale := (10 ^ N.of_nat dp)%N).
  assert (scale <> 0%N) as Hscale by (apply N.pow_nonzero; lia).
  set (n := Z.to_N m).
  set (str := pretty (n `div` scale)%N
              +:+ match dp with
                  | O => ""
                  | S _ => "." +:+ fixed_digits dp (n `mod` scale)%N
                  end).
  assert ((if is_neg q then "-" +:+ str else str)
          = (if is_neg q then "-" else "") +:+ str) as ->
    by now destruct (is_neg q).
  apply BigNumber_of_string_Fin.
  unfold str. rewrite decimal_literal_printed by now apply N.mod_lt.
  f_equal. apply Qred_complete.
  assert (inject_Z (Z.of_N (n `div` scale))
          + inject_Z (Z.of_N (n `mod` scale)) / inject_Z (10 ^ Z.of_nat dp)
          == inject_Z m / inject_Z (10 ^ Z.of_nat dp))%Q as E.
  { assert (inject_Z m
            == inject_Z (10 ^ Z.of_nat dp) * inject_Z (Z.of_N (n `div` scale))
               + inject_Z (Z.of_N (n `mod` scale)))%Q as Hdm.
    { rewrite <- Z_of_N_pow10. fold scale.
      rewrite <- inject_Z_mult, <- inject_Z_plus.
      rewrite <- N2Z.inj_mul, <- N2Z.inj_add, <- N.div_mod by exact Hscale.
      unfold n. now rewrite Z2N.id. }
    rewrite Hdm. pose proof (pow10_pos dp). field. lra. }
  cbv zeta. destruct (is_neg q); now rewrite E.
Qed.

(** ** toFixed(0), expandToken and decToPpm *)

Lemma string_app_nil_r (s : string) : s +:+ "" = s.
Proof.
  induction s as [|c s IH]; [reflexivity|].
  change (String c s +:+ "") with (String c (s +:+ "")). now rewrite IH.
Qed.

Lemma is_neg_false (q : Q) : is_neg q = false -> (0 <= q)%Q.
Proof.
  unfold is_neg. intros H. apply negb_false_iff in H.
  now apply Qle_bool_iff.
Qed.

Lemma is_neg_true (q : Q) : is_neg q = true -> (q < 0)%Q.
Proof.
  unfold is_neg. intros H. apply negb_true_iff in H.
  apply Qnot_le_lt. intros Hle. apply Qle_bool_iff in Hle. congruence.
Qed.

Lemma is_neg_scaled (q s : Q) : (0 < s)%Q -> is_neg (q * s) = is_neg q.
Proof.
  intros Hs. destruct (is_neg q) eqn:E.
  - apply is_neg_true in E. unfold is_neg. apply negb_true_iff.
    destruct (Qle_bool 0 (q * s)) eqn:E'; [exfalso|reflexivity].
    apply Qle_bool_iff in E'. nra.
  - apply is_neg_false in E. unfold is_neg. apply negb_false_iff.
    apply Qle_bool_iff. nra.
Qed.

Lemma Qfloor_half (z : Z) : Qfloor (inject_Z z + (1 # 2)) = z.
Proof.
  pose proof (Qfloor_le (inject_Z z + (1 # 2))) as H1.
  pose proof (Qlt_floor (inject_Z z + (1 # 2))) as H2.
  set (f := Qfloor (inject_Z z + (1 # 2))) in *.
  rewrite inject_Z_plus in H2. change (inject_Z 1) with 1%Q in H2.
  destruct (Z.lt_trichotomy f z) as [Hlt|[E|Hgt]]; [exfalso|exact E|exfalso].
  - assert (f + 1 <= z) as H by lia. rewrite Zle_Qle in H.
    rewrite inject_Z_plus in H. change (inject_Z 1) with 1%Q in H. lra.
  - assert (z + 1 <= f) as H by lia. rewrite Zle_Qle in H.
    rewrite inject_Z_plus in H. change (inject_Z 1) with 1%Q in H. lra.
Qed.

Lemma round_half_up_Z (z : Z) : round_half_up (inject_Z z) = z.
Proof.
  unfold round_half_up. destruct (Qle_bool 0 (inject_Z z)) eqn:E.
  - apply Qfloor_half.
  - rewrite <- inject_Z_opp, Qfloor_half. lia.
Qed.

Lemma pretty_Z_nonneg (r : Z) : 0 <= r -> pretty r = pretty (Z.to_N r).
Proof. destruct r; [reflexivity|reflexivity|lia]. Qed.

(** [x.toFixed(0)] with the default rounding: the nearest integer, ties
    away from zero, printed in decimal; a negative number that rounds to
    zero prints as ["-0"]. *)
Lemma toFixed_0 (v : Q) :
  toFixed 0 ROUND_HALF_UP (Fin v)
  = if is_neg v && (round_half_up v =? 0) then "-0"
    else pretty (round_half_up v).
Proof.
  unfold toFixed. cbv beta iota zeta. change (10 ^ N.of_nat 0)%N with 1%N.
  rewrite N.div_1_r, string_app_nil_r. cbn [round_magnitude].
  change (inject_Z (Z.of_N 1)) with 1%Q.
  unfold round_half_up, is_neg. destruct (Qle_bool 0 v) eqn:E; cbn [negb andb].
  - apply Qle_bool_iff in E.
    assert (Qfloor (Qabs v * 1 + (1 # 2)) = Qfloor (v + (1 # 2))) as ->.
    { apply Qfloor_comp. rewrite Qabs_pos by exact E. ring. }
    symmetry. apply pretty_Z_nonneg.
    transitivity (Qfloor 0); [reflexivity|apply Qfloor_resp_le; lra].
  - assert (v <= 0)%Q as Hv.
    { apply Qlt_le_weak, Qnot_le_lt. intros H. apply Qle_bool_iff in H.
      congruence. }
    assert (Qfloor (Qabs v * 1 + (1 # 2)) = Qfloor (- v + (1 # 2))) as ->.
    { apply Qfloor_comp. rewrite Qabs_neg by exact Hv. ring. }
    assert (0 <= Qfloor (- v + (1 # 2))) as Hm.
    { transitivity (Qfloor 0); [reflexivity|apply Qfloor_resp_le; lra]. }
    set (m := Qfloor (- v + (1 # 2))) in *.
    destruct m as [|m|m]; [reflexivity|reflexivity|lia].
Qed.

(** On a number that is an integer nothing is rounded. *)
Lemma toFixed_0_integer (v : Q) (t : Z) :
  (v == inject_Z t)%Q -> toFixed 0 ROUND_HALF_UP (Fin v) = pretty t.
Proof.
  intros E. rewrite toFixed_0, (round_half_up_Qeq v (inject_Z t) E).
  rewrite round_half_up_Z. destruct (Z.eqb_spec t 0) as [->|_].
  - rewrite (is_neg_Qeq v (inject_Z 0) E). reflexivity.
  - now rewrite andb_false_r.
Qed.

Lemma pow_10 (p : nat) :
  exists c, pow (ofZ 10) p = Fin c /\ (c == inject_Z (10 ^ Z.of_nat p))%Q.
Proof.
  induction p as [|p (c & Hc & E)].
  - now exists (inject_Z 1).
  - unfold pow in *. rewrite Nat.iter_succ, Hc. cbn [times ofZ].
    eexists. split; [reflexivity|].
    rewrite Qred_correct, E, <- inject_Z_mult, Nat2Z.inj_succ, Z.pow_succ_r
      by lia.
    reflexivity.
Qed.

Lemma Qtruncate_Qeq (a b : Q) : (a == b)%Q -> Qtruncate a = Qtruncate b.
Proof.
  intros E. unfold Qtruncate. rewrite (is_neg_Qeq a b E).
  assert (Qfloor a = Qfloor b) as -> by now rewrite E.
  assert (Qfloor (- a) = Qfloor (- b)) as -> by now rewrite E.
  reflexivity.
Qed.

Lemma Qtruncate_Z (z : Z) : Qtruncate (inject_Z z) = z.
Proof.
  unfold Qtruncate. destruct (is_neg (inject_Z z)).
  - rewrite <- inject_Z_opp, Qfloor_Z. lia.
  - apply Qfloor_Z.
Qed.

(** The number whose digits [expandToken] prints, before the last
    [toFixed(0)]: an integer. *)
Lemma expandToken_product (q : Q) (p : nat) :
  exists v,
    times (BigNumber_of_string (toFixed p ROUND_DOWN (Fin q)))
          (pow (ofZ 10) p) = Fin v
    /\ (v == inject_Z (Qtruncate (q * inject_Z (10 ^ Z.of_nat p))))%Q.
Proof.
  rewrite BigNumber_of_string_toFixed. unfold rounded.
  destruct (pow_10 p) as (c & -> & Hc). cbn [times round_magnitude].
  eexists. split; [reflexivity|].
  pose proof (pow10_pos p) as Hpos.
  rewrite !Qred_correct, Hc. unfold Qtruncate.
  rewrite (is_neg_scaled q _ Hpos).
  destruct (is_neg q) eqn:E.
  - apply is_neg_true in E.
    assert (Qfloor (Qabs q * inject_Z (10 ^ Z.of_nat p))
            = Qfloor (- (q * inject_Z (10 ^ Z.of_nat p)))) as ->.
    { apply Qfloor_comp. rewrite Qabs_neg by lra. ring. }
    rewrite inject_Z_opp. field. lra.
  - apply is_neg_false in E.
    assert (Qfloor (Qabs q * inject_Z (10 ^ Z.of_nat p))
            = Qfloor (q * inject_Z (10 ^ Z.of_nat p))) as ->.
    { apply Qfloor_comp. now rewrite Qabs_pos. }
    field. lra.
Qed.

Lemma expandToken_prints (amount : string_or_number) (precision : nat) (q : Q) :
  BigNumber_of amount = Fin q ->
  expandToken amount precision
  = pretty (Qtruncate (q * inject_Z (10 ^ Z.of_nat precision))).
Proof.
  intros Ha. unfold expandToken. rewrite Ha.
  destruct (expandToken_product q precision) as (v & -> & Hv).
  now apply toFixed_0_integer.
Qed.

(** X1.  For a finite amount [q], [expandToken] prints the integer part,
    towards zero, of [q * 10^precision]: the first [toFixed] cuts the
    digits beyond [precision] and the last one rounds nothing.  For a
    non-negative amount the printed integer [n] is the number of whole
    units: [n / 10^precision <= q < (n + 1) / 10^precision]. *)
Theorem expandToken_truncates (amount : string_or_number) (precision : nat) (q : Q) :
  BigNumber_of amount = Fin q ->
  let n := Qtruncate (q * inject_Z (10 ^ Z.of_nat precision)) in
  expandToken amount precision = pretty n
  /\ ((0 <= q)%Q ->
      (inject_Z n / inject_Z (10 ^ Z.of_nat precision) <= q
       /\ q < (inject_Z n + 1) / inject_Z (10 ^ Z.of_nat precision))%Q).
Proof.
  intros Ha n. split.
  - now apply expandToken_prints.
  - intros Hq. pose proof (pow10_pos precision) as Hpos.
    assert (n = Qfloor (q * inject_Z (10 ^ Z.of_nat precision))) as Hn.
    { unfold n, Qtruncate. rewrite (is_neg_scaled q _ Hpos).
      destruct (is_neg q) eqn:E; [|reflexivity].
      apply is_neg_true in E. lra. }
    split.
    + apply Qle_shift_div_r; [exact Hpos|]. rewrite Hn. apply Qfloor_le.
    + apply Qlt_shift_div_l; [exact Hpos|]. rewrite Hn.
      pose proof (Qlt_floor (q * inject_Z (10 ^ Z.of_nat precision))) as H.
      rewrite inject_Z_plus in H. exact H.
Qed.

Lemma expandToken_truncates_witness :
  expandToken (Str "1.239") 2 = pretty 123
  /\ ((0 <= 1239 # 1000)%Q ->
      (inject_Z 123 / inject_Z (10 ^ Z.of_nat 2) <= 1239 # 1000
       /\ 1239 # 1000 < (inject_Z 123 + 1) / inject_Z (10 ^ Z.of_nat 2))%Q).
Proof.
  apply (expandToken_truncates (Str "1.239") 2 (1239 # 1000)). reflexivity.
Defined.

(** X2.  An amount with no more than [precision] decimals, [z /
    10^precision] for an integer [z] of either sign, expands to [z]
    exactly. *)
Theorem expandToken_exact (amount : string_or_number) (precision : nat)
  (q : Q) (z : Z) :
  BigNumber_of amount = Fin q ->
  (q == inject_Z z / inject_Z (10 ^ Z.of_nat precision))%Q ->
  expandToken amount precision = pretty z.
Proof.
  intros Ha Hq.
  rewrite (expandToken_prints amount precision q Ha).
  f_equal. rewrite <- (Qtruncate_Z z). apply Qtruncate_Qeq.
  rewrite Hq. pose proof (pow10_pos precision). field. lra.
Qed.

Lemma expandToken_exact_witness : expandToken (Str "-12.5") 3 = pretty (-12500).
Proof.
  apply (expandToken_exact (Str "-12.5") 3 (-25 # 2) (-12500)); reflexivity.
Defined.

(** X3.  On an amount that is not a finite number [expandToken] does not
    throw: it returns the literal ["NaN"], ["Infinity"] or ["-Infinity"]
    in place of an integer. *)
Theorem expandToken_not_finite (amount : string_or_number) (precision : nat) :
  (BigNumber_of amount = NaN -> expandToken amount precision = "NaN")
  /\ (BigNumber_of amount = PInf -> expandToken amount precision = "Infinity")
  /\ (BigNumber_of amount = NInf -> expandToken amount precision = "-Infinity").
Proof.
  destruct (pow_10 precision) as (c & Hc & E).
  assert (is_zero c = false /\ is_neg c = false) as [Hz Hn].
  { pose proof (pow10_pos precision) as Hpos.
    rewrite (is_zero_Qeq _ _ E), (is_neg_Qeq _ _ E). split.
    - unfold is_zero. destruct (Qeq_bool _ 0) eqn:H; [|reflexivity].
      apply Qeq_bool_iff in H. lra.
    - unfold is_neg. apply negb_false_iff, Qle_bool_iff. lra. }
  unfold expandToken. repeat split; intros ->; cbn [toFixed];
    [replace (BigNumber_of_string "NaN") with NaN
       by (vm_compute; reflexivity)
    |replace (BigNumber_of_string "Infinity") with PInf
       by (vm_compute; reflexivity)
    |replace (BigNumber_of_string "-Infinity") with NInf
       by (vm_compute; reflexivity)];
    rewrite Hc; cbn [times]; rewrite ?Hz, ?Hn; reflexivity.
Qed.

Lemma expandToken_not_finite_witness :
  expandToken (Str "ten") 18 = "NaN"
  /\ expandToken (Num (S754_infinity false)) 18 = "Infinity"
  /\ expandToken (Str "-Infinity") 18 = "-Infinity".
Proof.
  split; [|split].
  - apply (proj1 (expandToken_not_finite (Str "ten") 18)).
    vm_compute. reflexivity.
  - apply (proj1 (proj2 (expandToken_not_finite
                           (Num (S754_infinity false)) 18))).
    reflexivity.
  - apply (proj2 (proj2 (expandToken_not_finite (Str "-Infinity") 18))).
    vm_compute. reflexivity.
Defined.

(** X4.  For a finite [dec], [decToPpm] prints [dec * 1000000] rounded to
    the nearest integer, ties away from zero; a negative [dec] that
    rounds to zero is printed ["-0"]. *)
Theorem decToPpm_rounds (dec : string_or_number) (q : Q) :
  BigNumber_of dec = Fin q ->
  let r := round_half_up (q * 1000000) in
  decToPpm dec = if is_neg q && (r =? 0) then "-0" else pretty r.
Proof.
  intros Hd r. unfold decToPpm. rewrite Hd. cbn [times oneMillion ofZ].
  rewrite toFixed_0.
  assert (Qred (q * inject_Z 1000000) == q * 1000000)%Q as E
    by apply Qred_correct.
  rewrite (round_half_up_Qeq _ _ E), (is_neg_Qeq _ _ E).
  rewrite (is_neg_scaled q 1000000) by reflexivity.
  reflexivity.
Qed.

Lemma decToPpm_rounds_witness :
  decToPpm (Str "-0.0000003")
  = if is_neg (-3 # 10000000)
       && (round_half_up ((-3 # 10000000) * 1000000) =? 0)
    then "-0" else pretty (round_half_up ((-3 # 10000000) * 1000000)).
Proof.
  apply (decToPpm_rounds (Str "-0.0000003") (-3 # 10000000)). reflexivity.
Defined.

(** X5.  A fraction that is a whole number [z] of parts per million,
    [z / 1000000], gives back [z]. *)
Theorem decToPpm_exact (dec : string_or_number) (q : Q) (z : Z) :
  BigNumber_of dec = Fin q ->
  (q == inject_Z z / 1000000)%Q ->
  decToPpm dec = pretty z.
Proof.
  intros Hd Hq. unfold decToPpm. rewrite Hd. cbn [times oneMillion ofZ].
  apply toFixed_0_integer. rewrite Qred_correct, Hq.
  change (inject_Z 1000000) with 1000000%Q. field.
Qed.

Lemma decToPpm_exact_witness : decToPpm (Str "0.003") = pretty 3000.
Proof.
  apply (decToPpm_exact (Str "0.003") (3 # 1000) 3000); reflexivity.
Defined.

(** ** miningBntReward and miningTknReward *)

(** Multiplying a product by one changes nothing. *)
Lemma times_times_one (a b : ext) : times (times a b) (Fin 1) = times a b.
Proof.
  destruct a as [x| | |], b as [y| | |]; cbn [times];
    try reflexivity;
    try (destruct (is_zero _); [reflexivity|];
         destruct (is_neg _); reflexivity).
  cbn [times]. f_equal. apply Qred_complete. rewrite Qred_correct. ring.
Qed.

Section MiningRewardsFacts.

Variable new_BigNumber : string -> BigNumber.

(** X6.  When the two reserve balances are the same finite, non-zero
    number, the reward of the token side is that of the BNT side for the
    same protected amount, rate and share. *)
Theorem miningTknReward_balanced (tkn bnt protectedTkn rewardRate : string)
  (rewardShare : Number) (t : Q) :
  new_BigNumber tkn = Fin t -> new_BigNumber bnt = Fin t ->
  is_zero t = false ->
  miningTknReward new_BigNumber tkn bnt protectedTkn rewardRate rewardShare
  = miningBntReward new_BigNumber protectedTkn rewardRate rewardShare.
Proof.
  intros Ht Hb Hz. unfold miningTknReward, miningBntReward.
  now rewrite Ht, Hb, (dividedBy_self t Hz), times_times_one.
Qed.

(** X7.  For a finite rate [r], share [s] and protected amount [p], the
    reward is the [number] nearest to [r * 86400 * 2 * s * 365 / p]
    rounded to [DECIMAL_PLACES] digits, when [p] is not zero.  A
    protected amount of zero is not guarded: the result is then [NaN]
    when [r * s] is zero and an infinity of the sign of [r * s]
    otherwise. *)
Theorem miningBntReward_value (protectedBnt rewardRate : string)
  (rewardShare : Number) (r s p : Q) :
  new_BigNumber rewardRate = Fin r -> BigNumber_of_number rewardShare = Fin s ->
  new_BigNumber protectedBnt = Fin p ->
  miningBntReward new_BigNumber protectedBnt rewardRate rewardShare
  = if is_zero p then
      if is_zero (r * s) then S754_nan else S754_infinity (is_neg (r * s))
    else
      toNumber (Fin (round_dp DECIMAL_PLACES (r * 86400 * 2 * s * 365 / p))).
Proof.
  intros Hr Hs Hp. unfold miningBntReward.
  replace (BigNumber_of_number (number_of_Z 86400)) with (Fin (inject_Z 86400))
    by (vm_compute; reflexivity).
  replace (BigNumber_of_number (number_of_Z 2)) with (Fin (inject_Z 2))
    by (vm_compute; reflexivity).
  replace (BigNumber_of_number (number_of_Z 365)) with (Fin (inject_Z 365))
    by (vm_compute; reflexivity).
  rewrite Hr, Hs, Hp. cbn [times].
  set (n := Qred (Qred (Qred (Qred (r * inject_Z 86400) * inject_Z 2) * s)
                  * inject_Z 365)).
  assert (n == r * s * 63072000)%Q as Hn.
  { unfold n. rewrite !Qred_correct.
    change (inject_Z 86400) with 86400%Q. change (inject_Z 2) with 2%Q.
    change (inject_Z 365) with 365%Q. ring. }
  destruct (is_zero p) eqn:Hz.
  - unfold dividedBy, div_with. rewrite Hz.
    rewrite (is_zero_Qeq n _ Hn), (is_neg_Qeq n _ Hn).
    rewrite (is_neg_scaled (r * s) 63072000) by reflexivity.
    assert (is_zero (r * s * 63072000) = is_zero (r * s)) as ->.
    { unfold is_zero. destruct (Qeq_bool (r * s) 0) eqn:E.
      + apply Qeq_bool_iff in E. apply Qeq_bool_iff. rewrite E. ring.
      + destruct (Qeq_bool (r * s * 63072000) 0) eqn:E'; [|reflexivity].
        apply Qeq_bool_iff in E'. exfalso.
        assert (r * s == 0)%Q as H by lra.
        apply Qeq_bool_iff in H. congruence. }
    destruct (is_zero (r * s)); [reflexivity|].
    now destruct (is_neg (r * s)).
  - destruct (dividedBy_Fin n p Hz) as (q & -> & Hq).
    apply toNumber_Qeq. rewrite Hq.
    rewrite (round_dp_Qeq DECIMAL_PLACES (n / p)
               (r * 86400 * 2 * s * 365 / p)); [reflexivity|].
    rewrite Hn. apply is_zero_false in Hz. field. exact Hz.
Qed.

End MiningRewardsFacts.

Lemma miningTknReward_balanced_witness :
  miningTknReward decimal_literal "500" "500" "1000" "2" (number_of_Z 1)
  = miningBntReward decimal_literal "1000" "2" (number_of_Z 1).
Proof.
  apply (miningTknReward_balanced decimal_literal "500" "500" "1000" "2"
           (number_of_Z 1) 500%Q); reflexivity.
Defined.

Lemma miningBntReward_value_witness :
  miningBntReward decimal_literal "7" "1" (number_of_Q (1 # 2))
  = toNumber (BigNumber_of_string "4505142.857142857")
  /\ miningBntReward decimal_literal "0" "2" (number_of_Z 1)
     = S754_infinity false.
Proof.
  split.
  - refine (eq_trans
              (miningBntReward_value decimal_literal "7" "1"
                 (number_of_Q (1 # 2)) 1%Q (1 # 2)%Q 7%Q eq_refl _ eq_refl) _);
      vm_compute; reflexivity.
  - refine (eq_trans
              (miningBntReward_value decimal_literal "0" "2" (number_of_Z 1)
                 2%Q 1%Q 0%Q eq_refl _ eq_refl) _);
      vm_compute; reflexivity.
Defined.

(** ** filterAndWarn *)

Lemma filter_all {A : Type} (f : A -> bool) (l : list A) :
  Forall (fun x => f x = true) l -> List.filter f l = l.
Proof.
  induction 1 as [|x l Hx _ IH]; simpl; [reflexivity|].
  now rewrite Hx, IH.
Qed.

Lemma filter_none {A : Type} (f : A -> bool) (l : list A) :
  Forall (fun x => f x = true) l -> List.filter (fun x => negb (f x)) l = [].
Proof.
  induction 1 as [|x l Hx _ IH]; simpl; [reflexivity|].
  now rewrite Hx.
Qed.

Lemma filter_split_perm {A : Type} (f : A -> bool) (l : list A) :
  Permutation l (List.filter f l ++ List.filter (fun x => negb (f x)) l).
Proof.
  induction l as [|x l IH]; simpl; [reflexivity|].
  destruct (f x); simpl.
  - now apply perm_skip.
  - rewrite IH at 1. apply Permutation_middle.
Qed.

Lemma filter_passes {A : Type} (f : A -> bool) (l : list A) :
  Forall (fun x => f x = true) (List.filter f l).
Proof.
  apply Forall_forall. intros x Hx.
  apply list_elem_of_In, filter_In in Hx. tauto.
Qed.

Section FilterAndWarnFacts.

Context {T : Type}.

Lemma filterAndWarn_unfold (arr : list T) (conditioner : T -> bool)
  (reason : option string) (console : list warning) :
  filterAndWarn arr conditioner reason console
  = (List.filter conditioner arr,
     if (0 <? length (List.filter (fun x => negb (conditioner x)) arr))%nat
     then
       console
       ++ [{| dropped_items := List.filter (fun x => negb (conditioner x)) arr;
              because :=
                match reason with
                | Some r => if String.eqb r "" then "" else "because " +:+ r
                | None => ""
                end |}]
     else console).
Proof. unfold filterAndWarn. now rewrite partition_as_filter. Qed.

(** X8.  [filterAndWarn] loses nothing silently: every returned element
    passes the condition; when all elements of the array pass, the array
    is returned as it is and the console is left alone; otherwise
    exactly one warning is added, its items all fail the condition, and
    the returned elements together with these items are the elements of
    the array. *)
Theorem filterAndWarn_accounts (arr : list T) (conditioner : T -> bool)
  (reason : option string) (console : list warning) :
  let r := filterAndWarn arr conditioner reason console in
  Forall (fun x => conditioner x = true) r.1
  /\ (Forall (fun x => conditioner x = true) arr -> r = (arr, console))
  /\ (~ Forall (fun x => conditioner x = true) arr ->
      exists w,
        r.2 = console ++ [w]
        /\ dropped_items w <> []
        /\ Forall (fun x => conditioner x = false) (dropped_items w)
        /\ Permutation arr (r.1 ++ dropped_items w)).
Proof.
  intros r. unfold r. rewrite filterAndWarn_unfold. cbn [fst snd].
  split; [apply filter_passes|]. split.
  - intros Hall. now rewrite filter_all, filter_none.
  - intros Hnot.
    destruct (List.filter (fun x => negb (conditioner x)) arr) as [|d l] eqn:E.
    + exfalso. apply Hnot, Forall_forall. intros x Hx.
      destruct (conditioner x) eqn:Hc; [reflexivity|exfalso].
      assert (In x (List.filter (fun x => negb (conditioner x)) arr)) as H.
      { apply filter_In. split; [now apply list_elem_of_In|now rewrite Hc]. }
      now rewrite E in H.
    + eexists. split; [reflexivity|]. cbn [dropped_items].
      split; [discriminate|]. split.
      * rewrite <- E. apply Forall_forall. intros x Hx.
        apply list_elem_of_In, filter_In in Hx as [_ Hx].
        now apply negb_true_iff.
      * rewrite <- E. apply filter_split_perm.
Qed.

(** X9.  Filtering the result again with the same condition changes
    nothing and warns of nothing. *)
Theorem filterAndWarn_idempotent (arr : list T) (conditioner : T -> bool)
  (reason reason' : option string) (console console' : list warning) :
  let passed := (filterAndWarn arr conditioner reason console).1 in
  filterAndWarn passed conditioner reason' console' = (passed, console').
Proof.
  cbv zeta. rewrite (filterAndWarn_unfold arr). cbn [fst].
  rewrite filterAndWarn_unfold.
  now rewrite (filter_all _ _ (filter_passes conditioner arr)),
    (filter_none _ _ (filter_passes conditioner arr)).
Qed.

End FilterAndWarnFacts.

Lemma filterAndWarn_accounts_witness :
  let r := filterAndWarn [1; 0; 2; 0] (fun x => 0 <? x) (Some "zero") [] in
  Forall (fun x => (0 <? x) = true) r.1
  /\ (Forall (fun x => (0 <? x) = true) [1; 0; 2; 0] -> r = ([1; 0; 2; 0], []))
  /\ (~ Forall (fun x => (0 <? x) = true) [1; 0; 2; 0] ->
      exists w,
        r.2 = [] ++ [w]
        /\ dropped_items w <> []
        /\ Forall (fun x => (0 <? x) = false) (dropped_items w)
        /\ Permutation [1; 0; 2; 0] (r.1 ++ dropped_items w)).
Proof.
  exact (filterAndWarn_accounts [1; 0; 2; 0] (fun x => 0 <? x) (Some "zero") []).
Defined.

(** ** Static relays *)

(** X10.  A relay matches the converter and anchor pair made from it as
    soon as [compareString] relates every string to itself; and when
    [compareString] is equality of strings, that pair is the only one it
    matches. *)
Theorem staticRelay_matches_its_pair (relay : StaticRelay.t) :
  (forall compareString : string -> string -> bool,
     (forall s, compareString s s = true) ->
     compareStaticRelayAndSet compareString relay
       (staticToConverterAndAnchor relay) = true)
  /\ (forall pair : ConverterAndAnchor.t,
        compareStaticRelayAndSet String.eqb relay pair = true
        <-> pair = staticToConverterAndAnchor relay).
Proof.
  split.
  - intros cs Hrefl. unfold compareStaticRelayAndSet. simpl.
    now rewrite !Hrefl.
  - intros [c a]. unfold compareStaticRelayAndSet, staticToConverterAndAnchor.
    simpl. rewrite andb_true_iff, !String.eqb_eq. split.
    + now intros [-> ->].
    + now intros [= -> ->].
Qed.

Lemma staticRelay_matches_its_pair_witness :
  compareStaticRelayAndSet String.eqb
    {| StaticRelay.poolToken := {| contract := "0xA" |};
       StaticRelay.converterAddress := "0xC";
       StaticRelay.reserves := [] |}
    (staticToConverterAndAnchor
       {| StaticRelay.poolToken := {| contract := "0xA" |};
          StaticRelay.converterAddress := "0xC";
          StaticRelay.reserves := [] |})
  = true.
Proof.
  apply (proj1 (staticRelay_matches_its_pair _) String.eqb).
  intros s. apply String.eqb_refl.
Defined.

(** ** catchOptimisticNetwork *)

Section CatchOptimisticNetworkFacts.

Context {any E : Type}.
Variable js_false : any.

(** X11.  Nothing ever comes out of [catchOptimisticNetwork] but a
    completion: every value of the source is dropped, the replacement
    value [false] included, and a failure of the source is turned into a
    completion.  The stage is silent while the source runs and completes
    when the source completes or fails. *)
Theorem catchOptimisticNetwork_silent (label : option string)
  (source : list (notification any E)) :
  catchOptimisticNetwork js_false label source
  = if ended source then [Complete] else [].
Proof.
  unfold catchOptimisticNetwork.
  induction source as [|[a|e|] rest IH]; simpl; auto.
Qed.

End CatchOptimisticNetworkFacts.

(** ** switchMapIgnoreThrow *)

Section SwitchMapIgnoreThrowFacts.

Context {T Y : Type}.

Lemma switchMap_promises_settled (events : list (@event T Y)) :
  forall (started : nat) (subscribed : option nat) (v : js_value),
  In v (switchMap_promises events started subscribed) ->
  exists i r, In (Settled i r) events /\ v = caught r.
Proof.
  induction events as [|[x|i r] rest IH]; intros started subscribed v;
    simpl; [tauto| |].
  - intros Hv. destruct (IH _ _ _ Hv) as (j & r & Hin & ->). eauto.
  - case_bool_decide as Hsub.
    + intros [<-|Hv]; [eauto|].
      destruct (IH _ _ _ Hv) as (j & r' & Hin & ->). eauto.
    + intros Hv. destruct (IH _ _ _ Hv) as (j & r' & Hin & ->). eauto.
Qed.

Lemma switchMap_promises_length (events : list (@event T Y)) :
  forall (started : nat) (subscribed : option nat),
  (length (switchMap_promises events started subscribed)
   <= length (List.filter
                (fun e => match e with Emitted _ => true | _ => false end)
                events)
      + match subscribed with Some _ => 1 | None => 0 end)%nat.
Proof.
  induction events as [|[x|i r] rest IH]; intros started subscribed; simpl.
  - lia.
  - specialize (IH (S started) (Some started)). simpl in IH.
    destruct subscribed; lia.
  - case_bool_decide as Hsub.
    + subst subscribed. specialize (IH started None). simpl in *. lia.
    + apply IH.
Qed.

Lemma switchMap_promises_sentinel (pre post : list (@event T Y)) (i : nat) :
  forall (started : nat) (subscribed : option nat),
  switchMap_promises (pre ++ Settled i Rejected :: post) started subscribed
  = switchMap_promises
      (pre ++ Settled i (Resolved (JsString "DONT THROW")) :: post)
      started subscribed.
Proof.
  induction pre as [|[x|j r] pre IH]; intros started subscribed; simpl.
  - reflexivity.
  - apply IH.
  - now rewrite !IH.
Qed.

(** X12.  [switchMapIgnoreThrow] never delivers the string ["DONT
    THROW"]; what it delivers are values that promises of the trace
    resolved with, at most one for each value of the source; a rejected
    promise delivers nothing.  A promise that resolves with the string
    ["DONT THROW"] itself is treated as one that was rejected. *)
Theorem switchMapIgnoreThrow_delivers (events : list (@event T Y)) :
  Forall (fun v => v <> JsString "DONT THROW"
                   /\ exists i, In (Settled i (Resolved v)) events)
         (switchMapIgnoreThrow events)
  /\ (length (switchMapIgnoreThrow events)
      <= length (List.filter
                   (fun e => match e with Emitted _ => true | _ => false end)
                   events))%nat
  /\ forall (pre post : list (@event T Y)) (i : nat),
       switchMapIgnoreThrow (pre ++ Settled i Rejected :: post)
       = switchMapIgnoreThrow
           (pre ++ Settled i (Resolved (JsString "DONT THROW")) :: post).
Proof.
  split; [|split].
  - apply Forall_forall. intros v Hv. unfold switchMapIgnoreThrow in Hv.
    apply list_elem_of_In, filter_In in Hv as [Hin Hkeep].
    apply negb_true_iff in Hkeep.
    split; [intros ->; discriminate Hkeep|].
    destruct (switchMap_promises_settled _ _ _ _ Hin) as (i & [w|] & Hi & ->).
    + now exists i.
    + discriminate Hkeep.
  - unfold switchMapIgnoreThrow.
    etransitivity; [apply List.filter_length_le|].
    pose proof (switchMap_promises_length events 0 None) as H.
    simpl in H. lia.
  - intros pre post i. unfold switchMapIgnoreThrow.
    now rewrite switchMap_promises_sentinel.
Qed.

End SwitchMapIgnoreThrowFacts.

(** ** networkVersion$ *)

Lemma distinct_after_adjacent {A : Type} (compare : A -> A -> bool)
  (source : list A) :
  forall prev : A,
  adjacent_differ compare (prev :: distinct_after compare prev source).
Proof.
  induction source as [|x source IH]; intros prev; simpl; [exact I|].
  destruct (compare prev x) eqn:E.
  - apply IH.
  - split; [exact E|apply IH].
Qed.

(** What [distinctUntilChanged] lets through has no value followed by one
    it is compared equal to. *)
Lemma distinctUntilChanged_adjacent {A : Type} (compare : A -> A -> bool)
  (source : list A) :
  adjacent_differ compare (distinctUntilChanged compare source).
Proof.
  destruct source as [|x source]; [exact I|]. apply distinct_after_adjacent.
Qed.

Lemma distinct_after_subset {A : Type} (compare : A -> A -> bool)
  (source : list A) :
  forall (prev x : A), In x (distinct_after compare prev source) -> In x source.
Proof.
  induction source as [|y source IH]; intros prev x; simpl; [tauto|].
  destruct (compare prev y); simpl; [right; eauto|].
  intros [->|H]; [now left|right; eauto].
Qed.

Lemma tap_state_count {A : Type} (source : list A) (count : nat) :
  (tap_state (fun _ c => S c) source count).2 = (count + length source)%nat.
Proof.
  unfold tap_state. simpl. revert count.
  induction source as [|x source IH]; intros count; simpl; [lia|].
  rewrite IH. lia.
Qed.

Section NetworkVersionFacts.

Context {EthNetworks : Type} `{EqDecision EthNetworks}.
Variable Mainnet : EthNetworks.

(** X13.  Whatever networks are received, [networkVersion$] emits
    [Mainnet] first, never the same network twice in a row, and only
    [Mainnet] or networks that were received; [networkVersionCount]
    grows by one for each emission, so a network received again right
    after itself is not counted. *)
Theorem networkVersion_emissions (received : list EthNetworks) (count : nat) :
  let r := networkVersion Mainnet received count in
  head r.1 = Some Mainnet
  /\ adjacent_differ (fun a b => bool_decide (a = b)) r.1
  /\ (forall x, In x r.1 -> x = Mainnet \/ In x received)
  /\ r.2 = (count + length r.1)%nat
  /\ (length r.1 <= 1 + length received)%nat.
Proof.
  intros r. unfold r, networkVersion. rewrite tap_state_count.
  unfold tap_state, startWith. cbn [fst distinctUntilChanged head].
  split; [reflexivity|]. split; [apply distinct_after_adjacent|].
  split; [|split; [reflexivity|]].
  - intros x [<-|Hx]; [now left|right].
    eapply distinct_after_subset, Hx.
  - simpl. apply le_n_S. clear r.
    generalize Mainnet as prev.
    induction received as [|y received IH]; intros prev; simpl; [lia|].
    destruct (bool_decide (prev = y)); simpl.
    + specialize (IH prev). lia.
    + specialize (IH y). lia.
Qed.

End NetworkVersionFacts.


(** ** optimisticContract, continued *)

(** A [tap] that writes the values selected by [write] under [key]. *)
Lemma tap_writes (key : string) (write : string -> bool) (emitted : list string) :
  forall ls : LocalStorage,
  let ls' :=
    (tap (fun data ls => if write data then setItem key data ls else ls)
         emitted ls).2 in
  setItem_calls ls'
  = setItem_calls ls
    ++ map (fun v => (key, v)) (List.filter write emitted)
  /\ (forall k, k <> key -> getItem k ls' = getItem k ls)
  /\ getItem key ls'
     = match last (List.filter write emitted) with
       | Some v => Some v
       | None => getItem key ls
       end.
Proof.
  unfold tap. cbn [snd].
  induction emitted as [|data emitted IH]; intros ls; cbn [fold_left].
  - cbn. rewrite app_nil_r. auto.
  - cbn [List.filter]. destruct (write data) eqn:E.
    + destruct (IH (setItem key data ls)) as (H1 & H2 & H3).
      split; [|split].
      * rewrite H1. cbn. now rewrite <- app_assoc.
      * intros k Hk. rewrite (H2 k Hk). unfold getItem, setItem. cbn.
        now rewrite lookup_insert_ne.
      * rewrite H3. rewrite last_cons.
        destruct (last (List.filter write emitted)); [reflexivity|].
        unfold getItem, setItem. cbn. now rewrite lookup_insert_eq.
    + apply IH.
Qed.

Section OptimisticContractMore.

Variable compareString : string -> string -> bool.

(** X14.  With nothing usable in the cache (no entry, or the empty
    string), the stage emits the source without the values compared
    equal to their predecessor and writes every emitted value, in
    order: afterwards the storage holds the value emitted last. *)
Theorem optimisticContract_without_cache (key : string) (source : list string)
  (ls : LocalStorage) :
  getItem key ls = None \/ getItem key ls = Some "" ->
  let r := optimisticContract compareString key source ls in
  r.1 = distinctUntilChanged compareString source
  /\ setItem_calls r.2 = setItem_calls ls ++ map (fun v => (key, v)) r.1
  /\ (forall v, last r.1 = Some v -> getItem key r.2 = Some v).
Proof.
  intros Hcache r.
  assert (r = tap (fun data ls => if (fun _ => true) data
                                  then setItem key data ls else ls)
                  (distinctUntilChanged compareString source) ls) as ->.
  { unfold r, optimisticContract. now destruct Hcache as [-> | ->]. }
  destruct (tap_writes key (fun _ => true)
              (distinctUntilChanged compareString source) ls)
    as (H1 & _ & H3).
  rewrite (filter_all (fun _ => true)) in H1, H3
    by (apply Forall_forall; reflexivity).
  split; [reflexivity|]. split; [exact H1|].
  intros v Hv. unfold tap in Hv. cbn [fst] in Hv. rewrite H3. now rewrite Hv.
Qed.

(** X15.  Whatever the cache holds and the source emits, the stage
    writes under its own key only: the other entries of the storage are
    left as they were. *)
Theorem optimisticContract_other_keys (key : string) (source : list string)
  (ls : LocalStorage) (k : string) :
  k <> key ->
  getItem k (optimisticContract compareString key source ls).2 = getItem k ls.
Proof.
  intros Hk. unfold optimisticContract.
  destruct (getItem key ls) as [cached|];
    [destruct (negb (String.eqb cached ""))|].
  - apply (tap_writes key (fun data => negb (String.eqb cached data))). exact Hk.
  - apply (tap_writes key (fun _ => true)). exact Hk.
  - apply (tap_writes key (fun _ => true)). exact Hk.
Qed.

(** X16.  With a cached value, the stage emits it first and never two
    values in a row that [compareString] relates; it writes exactly the
    emitted values that are not the cached string, in order, so that the
    storage ends with the last such value, or unchanged when there is
    none. *)
Theorem optimisticContract_with_cache (key cached : string)
  (source : list string) (ls : LocalStorage) :
  getItem key ls = Some cached -> cached <> "" ->
  let r := optimisticContract compareString key source ls in
  let written := List.filter (fun v => negb (String.eqb cached v)) r.1 in
  head r.1 = Some cached
  /\ adjacent_differ compareString r.1
  /\ setItem_calls r.2 = setItem_calls ls ++ map (fun v => (key, v)) written
  /\ getItem key r.2
     = match last written with
       | Some v => Some v
       | None => Some cached
       end.
Proof.
  intros Hget Hne r written.
  assert (r = tap (fun data ls => if (fun v => negb (String.eqb cached v)) data
                                  then setItem key data ls else ls)
                  (distinctUntilChanged compareString (startWith cached source))
                  ls) as Hr.
  { unfold r, optimisticContract. rewrite Hget.
    assert (String.eqb cached "" = false) as -> by now apply String.eqb_neq.
    reflexivity. }
  destruct (tap_writes key (fun v => negb (String.eqb cached v))
              (distinctUntilChanged compareString (startWith cached source)) ls)
    as (H1 & _ & H3).
  rewrite <- Hr in H1, H3. unfold written.
  assert (r.1 = distinctUntilChanged compareString (startWith cached source))
    as -> by now rewrite Hr.
  split; [reflexivity|]. split; [apply distinctUntilChanged_adjacent|].
  split; [exact H1|]. rewrite H3, Hget. reflexivity.
Qed.

End OptimisticContractMore.

Lemma optimisticContract_without_cache_witness :
  let r := optimisticContract String.eqb "key" ["0xA"; "0xA"; "0xB"]
             {| items := ∅; setItem_calls := [] |} in
  r.1 = distinctUntilChanged String.eqb ["0xA"; "0xA"; "0xB"]
  /\ setItem_calls r.2 = [] ++ map (fun v => ("key", v)) r.1
  /\ (forall v, last r.1 = Some v -> getItem "key" r.2 = Some v).
Proof.
  apply (optimisticContract_without_cache String.eqb "key"
           ["0xA"; "0xA"; "0xB"] {| items := ∅; setItem_calls := [] |}).
  left. reflexivity.
Defined.

Lemma optimisticContract_other_keys_witness :
  getItem "other"
    (optimisticContract String.eqb "key" ["0xNEW"]
       {| items := {["other" := "kept"]}; setItem_calls := [] |}).2
  = getItem "other" {| items := {["other" := "kept"]}; setItem_calls := [] |}.
Proof.
  apply (optimisticContract_other_keys String.eqb "key" ["0xNEW"]
           {| items := {["other" := "kept"]}; setItem_calls := [] |} "other").
  discriminate.
Defined.

Lemma optimisticContract_with_cache_witness :
  let r := optimisticContract String.eqb "key" ["0xNEW"; "0xOLD"]
             (stored "key" "0xOLD") in
  let written := List.filter (fun v => negb (String.eqb "0xOLD" v)) r.1 in
  head r.1 = Some "0xOLD"
  /\ adjacent_differ String.eqb r.1
  /\ setItem_calls r.2
     = setItem_calls (stored "key" "0xOLD") ++ map (fun v => ("key", v)) written
  /\ getItem "key" r.2
     = match last written with
       | Some v => Some v
       | None => Some "0xOLD"
       end.
Proof.
  apply (optimisticContract_with_cache String.eqb "key" "0xOLD"
           ["0xNEW"; "0xOLD"] (stored "key" "0xOLD")).
  - reflexivity.
  - discriminate.
Defined.

(** ** distinctArrayItem, continued *)

Section DistinctArrayItemMore.

Context {T : Type} `{EqDecision T}.

Lemma seen_after_snoc (initialValue : list T)
  (comparator : option (T -> T -> bool)) (source : list (list T))
  (batch : list T) :
  seen_after initialValue comparator (source ++ [batch])
  = seen_after initialValue comparator source
    ++ unseen comparator (seen_after initialValue comparator source) batch.
Proof.
  unfold seen_after. rewrite fold_left_app. cbn [fold_left].
  now rewrite accumulate_fresh.
Qed.

Lemma distinctArrayItem_snoc (initialValue : list T)
  (comparator : option (T -> T -> bool)) (source : list (list T))
  (batch : list T) :
  distinctArrayItem initialValue comparator (source ++ [batch])
  = distinctArrayItem initialValue comparator source
    ++ match unseen comparator (seen_after initialValue comparator source) batch
       with
       | [] => []
       | _ :: _ =>
           [unseen comparator (seen_after initialValue comparator source) batch]
       end.
Proof.
  unfold distinctArrayItem, startWith, pluck.
  rewrite scan_snoc, List.filter_app, map_app, app_comm_cons.
  f_equal. rewrite accumulate_fresh.
  fold (seen_after initialValue comparator source).
  simpl. now destruct (unseen _ _ _).
Qed.

(** X17.  The accumulated elements are, at every moment, everything that
    was emitted so far, in order, the initial value included. *)
Theorem distinctArrayItem_accumulates (initialValue : list T)
  (comparator : option (T -> T -> bool)) (source : list (list T)) :
  concat (distinctArrayItem initialValue comparator source)
  = seen_after initialValue comparator source.
Proof.
  induction source as [|batch source IH] using rev_ind.
  - cbn. apply app_nil_r.
  - rewrite distinctArrayItem_snoc, seen_after_snoc, concat_app, IH.
    f_equal. destruct (unseen _ _ _); [reflexivity|].
    cbn. now rewrite app_nil_r.
Qed.

Lemma unseen_nil (comparator : option (T -> T -> bool)) (seen batch : list T) :
  Forall (fun x => Exists (fun y => comparator_or_isEqual comparator x y = true)
                          seen) batch ->
  unseen comparator seen batch = [].
Proof.
  intros Hall. unfold unseen.
  induction Hall as [|x batch Hx _ IH]; [reflexivity|].
  rewrite filter_cons_False; [exact IH|].
  intros Hnone. apply Exists_exists in Hx as (y & Hy & Hc).
  rewrite Forall_forall in Hnone. specialize (Hnone y Hy). congruence.
Qed.

Lemma unseen_covered (comparator : option (T -> T -> bool)) (seen batch : list T) :
  (forall x, comparator_or_isEqual comparator x x = true) ->
  Forall (fun x => Exists (fun y => comparator_or_isEqual comparator x y = true)
                          (seen ++ unseen comparator seen batch)) batch.
Proof.
  intros Hrefl. apply Forall_forall. intros x Hx.
  destruct (decide (Forall (fun y => comparator_or_isEqual comparator x y = false)
                           seen)) as [Hnone|Hsome].
  - apply Exists_exists. exists x. split; [|apply Hrefl].
    apply elem_of_app. right. unfold unseen. now apply list_elem_of_filter.
  - apply Exists_app. left. apply not_Forall_Exists in Hsome; [|intros y; apply _].
    eapply Exists_impl; [exact Hsome|]. intros y Hy. cbn in Hy.
    now destruct (comparator_or_isEqual comparator x y).
Qed.

(** X18.  A batch whose elements are all related to accumulated ones
    emits nothing and changes nothing; so, when the comparator relates
    every element to itself, a batch that comes a second time right
    after itself is passed over in silence. *)
Theorem distinctArrayItem_replay (initialValue : list T)
  (comparator : option (T -> T -> bool)) :
  (forall (source : list (list T)) (batch : list T),
     Forall (fun x =>
               Exists (fun y => comparator_or_isEqual comparator x y = true)
                      (seen_after initialValue comparator source)) batch ->
     distinctArrayItem initialValue comparator (source ++ [batch])
     = distinctArrayItem initialValue comparator source
     /\ seen_after initialValue comparator (source ++ [batch])
        = seen_after initialValue comparator source)
  /\ ((forall x, comparator_or_isEqual comparator x x = true) ->
      forall (source : list (list T)) (batch : list T),
        distinctArrayItem initialValue comparator (source ++ [batch; batch])
        = distinctArrayItem initialValue comparator (source ++ [batch])).
Proof.
  assert (forall (source : list (list T)) (batch : list T),
     Forall (fun x =>
               Exists (fun y => comparator_or_isEqual comparator x y = true)
                      (seen_after initialValue comparator source)) batch ->
     distinctArrayItem initialValue comparator (source ++ [batch])
     = distinctArrayItem initialValue comparator source
     /\ seen_after initialValue comparator (source ++ [batch])
        = seen_after initialValue comparator source) as Hsilent.
  { intros source batch Hall.
    rewrite distinctArrayItem_snoc, seen_after_snoc, (unseen_nil _ _ _ Hall).
    now rewrite !app_nil_r. }
  split; [exact Hsilent|].
  intros Hrefl source batch.
  change [batch; batch] with ([batch] ++ [batch]). rewrite app_assoc.
  apply Hsilent. rewrite seen_after_snoc. now apply unseen_covered.
Qed.

(** X19.  With the default comparator, when neither the initial value
    nor any batch holds an element twice, the accumulated elements never
    do: nothing is ever emitted a second time.  Two occurrences within
    one batch are both emitted, however. *)
Theorem distinctArrayItem_no_repeat (initialValue : list T) :
  (forall source : list (list T),
     NoDup initialValue -> Forall NoDup source ->
     NoDup (seen_after initialValue None source))
  /\ (forall a : T,
        a ∉ initialValue ->
        distinctArrayItem initialValue None [[a; a]]
        = [initialValue; [a; a]]).
Proof.
  split.
  - intros source Hinit Hsource.
    induction source as [|batch source IH] using rev_ind; [exact Hinit|].
    apply Forall_app in Hsource as [Hsource Hbatch].
    apply Forall_inv in Hbatch. specialize (IH Hsource).
    rewrite seen_after_snoc. apply NoDup_app. split; [exact IH|].
    split; [|now apply NoDup_filter].
    intros x Hx Hin. unfold unseen in Hin.
    apply list_elem_of_filter in Hin as [Hnone _].
    rewrite Forall_forall in Hnone. specialize (Hnone x Hx).
    cbn in Hnone. unfold isEqual in Hnone.
    now rewrite bool_decide_eq_false in Hnone.
  - intros a Ha.
    change [[a; a]] with ([] ++ [[a; a]]). rewrite distinctArrayItem_snoc.
    assert (unseen None (seen_after initialValue None []) [a; a] = [a; a]) as ->.
    { unfold unseen, seen_after. cbn [fold_left allEmissions].
      assert (Forall (fun y => comparator_or_isEqual None a y = false)
                     initialValue) as Hnone.
      { apply Forall_forall. intros y Hy. cbn. unfold isEqual.
        apply bool_decide_eq_false. intros ->. contradiction. }
      now rewrite !filter_cons_True, filter_nil by exact Hnone. }
    reflexivity.
Qed.

End DistinctArrayItemMore.

Lemma distinctArrayItem_replay_witness :
  distinctArrayItem ["a"] None ([["b"]] ++ [["a"; "b"]])
  = distinctArrayItem ["a"] None [["b"]]
  /\ seen_after ["a"] None ([["b"]] ++ [["a"; "b"]])
     = seen_after ["a"] None [["b"]].
Proof.
  apply (proj1 (distinctArrayItem_replay ["a"] None) [["b"]] ["a"; "b"]).
  change (seen_after ["a"] None [["b"]]) with ["a"; "b"].
  constructor; [apply Exists_cons_hd; reflexivity|].
  constructor; [apply Exists_cons_tl, Exists_cons_hd; reflexivity|].
  constructor.
Defined.

Lemma distinctArrayItem_no_repeat_witness :
  NoDup (seen_after ["a"] None [["a"; "b"]; ["b"; "c"]]).
Proof.
  apply (proj1 (distinctArrayItem_no_repeat ["a"]) [["a"; "b"]; ["b"; "c"]]).
  - apply NoDup_singleton.
  - repeat constructor; intros H;
      repeat (apply elem_of_cons in H as [H|H]; [discriminate H|]);
      now apply not_elem_of_nil in H.
Defined.

(** ** groupPositionsArray, continued *)

Lemma first_occurrences_snoc (l : list string) (k : string) :
  first_occurrences (l ++ [k])
  = first_occurrences l ++ (if decide (k ∈ l) then [] else [k]).
Proof.
  induction l as [|x l IH]; cbn [app first_occurrences].
  - rewrite filter_nil. now rewrite decide_False by apply not_elem_of_nil.
  - rewrite IH, filter_app. cbn [app]. f_equal. f_equal.
    destruct (decide (k ∈ l)) as [Hin|Hnin].
    + destruct (decide (k ∈ x :: l)) as [_|Hn]; [reflexivity|].
      exfalso. apply Hn. now right.
    + destruct (decide (k = x)) as [->|Hne].
      * destruct (decide (x ∈ x :: l)) as [_|Hn]; [|exfalso; apply Hn; left].
        now rewrite filter_cons_False, filter_nil by auto.
      * destruct (decide (k ∈ x :: l)) as [H|_].
        -- apply elem_of_cons in H as [H|H]; contradiction.
        -- now rewrite filter_cons_True, filter_nil by exact Hne.
Qed.

Lemma map_alter_fixed {A B : Type} (g : A -> B) (f : A -> A) (i : nat)
  (l : list A) :
  (forall x, g (f x) = g x) -> map g (alter f i l) = map g l.
Proof.
  intros Hfix. revert i. induction l as [|x l IH]; intros [|i]; simpl;
    rewrite ?Hfix; try reflexivity.
  f_equal. apply IH.
Qed.

Section GroupPositionsMore.

Variable compareString : string -> string -> bool.

Lemma reducer_ids (arr : list PL.t) (obj : gmap string nat) (acc : list GP.t)
  (v : PL.t) (st : state) :
  reducer compareString arr (obj, acc) v = Ok st ->
  map GP.id st.2
  = map GP.id acc
    ++ match obj !! id_of v with Some _ => [] | None => [id_of v] end.
Proof.
  unfold reducer. destruct (obj !! id_of v) as [i|]; simpl.
  - intros [= <-]. simpl. rewrite app_nil_r. apply map_alter_fixed.
    intros g. apply (touch_fixed arr v g).
  - destruct (new_item compareString arr v) as [item|e] eqn:Hn; simpl;
      [|discriminate].
    intros [= <-]. simpl.
    rewrite map_alter_fixed by (intros g; apply (touch_fixed arr v g)).
    rewrite map_app. simpl.
    now apply new_item_fields in Hn as (-> & _).
Qed.

Lemma reduce_ids (arr vs : list PL.t) :
  Forall (fun v => v ∈ arr) vs ->
  forall st,
  reduceM (reducer compareString arr) vs (∅, []) = Ok st ->
  map GP.id st.2 = first_occurrences (map id_of vs).
Proof.
  induction vs as [|v vs IH] using rev_ind; intros HF st.
  - intros [= <-]. reflexivity.
  - apply Forall_app in HF as [HF _].
    destruct (reduce_reduced compareString arr vs HF)
      as ([obj acc] & Hrun & [_ Hseen _]).
    rewrite reduceM_app, Hrun. cbn [bind reduceM]. intros Hstep.
    destruct (reducer compareString arr (obj, acc) v) as [st'|e] eqn:Hred;
      [|discriminate].
    cbn in Hstep. injection Hstep as <-.
    rewrite (reducer_ids _ _ _ _ _ Hred).
    pose proof (IH HF _ Hrun) as Hacc. cbn [snd] in Hacc. rewrite Hacc.
    rewrite map_app. cbn [map]. rewrite first_occurrences_snoc.
    f_equal. cbn [fst] in Hseen. specialize (Hseen (id_of v)).
    destruct (obj !! id_of v) as [i|].
    + rewrite decide_True; [reflexivity|]. apply Hseen. now exists i.
    + rewrite decide_False; [reflexivity|].
      intros Hin. apply Hseen in Hin as [? ?]. discriminate.
Qed.

(** X20.  The groups come in the order in which their ids occur first in
    the array, one group for each id. *)
Theorem groups_in_order_of_first_occurrence (v : PL.t) (arr : list PL.t) :
  exists out,
    groupPositionsArray compareString (v :: arr) = Ok out
    /\ map GP.id out = first_occurrences (map id_of (v :: arr)).
Proof.
  destruct (reduce_reduced compareString (v :: arr) (v :: arr))
    as (st & Hrun & _); [apply Forall_forall; auto|].
  exists st.2. split.
  - unfold groupPositionsArray. now rewrite Hrun.
  - apply (reduce_ids (v :: arr) (v :: arr)); [apply Forall_forall; auto|].
    exact Hrun.
Qed.

(** X21.  The [insuranceStart] of a group is the earliest among the
    positions of its id, and its coverage fields and stake time are
    those of one position of the group that starts that early. *)
Theorem group_has_earliest_insurance (v : PL.t) (arr : list PL.t) :
  exists out,
    groupPositionsArray compareString (v :: arr) = Ok out
    /\ forall g, g ∈ out ->
       (forall x, x ∈ v :: arr -> id_of x = GP.id g ->
                  GP.insuranceStart g <= PL.insuranceStart x)
       /\ exists y,
            y ∈ v :: arr /\ id_of y = GP.id g
            /\ PL.insuranceStart y = GP.insuranceStart g
            /\ PL.unixTime (PL.stake y) = GP.unixTime (GP.stake g)
            /\ PL.coverageDecPercent y = GP.coverageDecPercent g
            /\ PL.fullCoverage y = GP.fullCoverage g.
Proof.
  destruct (groupPositionsArray_groups compareString (v :: arr))
    as (out & Hout & _ & _ & Hgroups); [discriminate|].
  exists out. split; [exact Hout|]. intros g Hg.
  pose proof (Hgroups g Hg) as Hgo. split.
  - intros x Hx Hid.
    destruct (group_of_insurance _ _ _ _ _ Hgo) as [Hle _].
    rewrite Forall_forall in Hle. apply Hle.
    unfold members. now apply list_elem_of_filter.
  - destruct (group_of_coverage _ _ _ _ _ Hgo)
      as (y & Hmem & H1 & H2 & H3 & H4).
    apply list_elem_of_filter in Hmem as [Hid Hin].
    exists y. repeat split; auto.
Qed.

Lemma filter_keeps_all {A : Type} (P : A -> Prop) `{forall x, Decision (P x)}
  (l : list A) :
  (forall x, x ∈ l -> P x) -> filter P l = l.
Proof.
  induction l as [|x l IH]; intros HP; [reflexivity|].
  rewrite filter_cons_True by (apply HP; left).
  f_equal. apply IH. intros y Hy. apply HP. now right.
Qed.

Lemma filter_keeps_none {A : Type} (P : A -> Prop) `{forall x, Decision (P x)}
  (l : list A) :
  (forall x, x ∈ l -> ~ P x) -> filter P l = [].
Proof.
  induction l as [|x l IH]; intros HP; [reflexivity|].
  rewrite filter_cons_False by (apply HP; left).
  apply IH. intros y Hy. apply HP. now right.
Qed.

(** When ids tell pairs apart, the positions of the pair of [v] are the
    positions of its id. *)
Lemma filtered_like_members (arr : list PL.t) (v : PL.t) :
  distinct_ids arr -> v ∈ arr ->
  filtered_like arr v = members (id_of v) arr.
Proof.
  intros Hd Hv. unfold filtered_like, filtered_of, members.
  apply filter_ext_in. intros x Hx. split.
  - intros [Hp Hs]. unfold id_of. now rewrite Hp, Hs.
  - intros Hid. apply (Hd x v Hx Hv Hid).
Qed.

(** X22.  When ids tell pairs apart, a group made of a single position
    has an empty [collapsedData], a group of several positions has all of
    them in [collapsedData], and [collapsedData] is ordered by
    [stake.unixTime], latest first. *)
Theorem collapsedData_of_group (v : PL.t) (arr : list PL.t) :
  distinct_ids (v :: arr) ->
  exists out,
    groupPositionsArray compareString (v :: arr) = Ok out
    /\ forall g, g ∈ out ->
       descending (fun p => PL.unixTime (PL.stake p)) (GP.collapsedData g)
       /\ (length (members (GP.id g) (v :: arr)) = 1%nat
           -> GP.collapsedData g = [])
       /\ ((1 < length (members (GP.id g) (v :: arr)))%nat
           -> Permutation (GP.collapsedData g)
                          (members (GP.id g) (v :: arr))).
Proof.
  intros Hd.
  destruct (groupPositionsArray_groups compareString (v :: arr))
    as (out & Hout & _ & _ & Hgroups); [discriminate|].
  exists out. split; [exact Hout|]. intros g Hg.
  destruct (group_of_collapsed _ _ _ _ _ (Hgroups g Hg)) as [Hp Hs].
  assert (forall x, x ∈ members (GP.id g) (v :: arr) ->
            filtered_like (v :: arr) x = members (GP.id g) (v :: arr)) as Hsame.
  { intros x Hx. apply list_elem_of_filter in Hx as [Hid Hx].
    rewrite <- Hid. now apply filtered_like_members. }
  split; [exact Hs|split].
  - intros Hone. rewrite filter_keeps_none in Hp.
    + now apply Permutation_nil_r in Hp.
    + intros x Hx. rewrite (Hsame x Hx), Hone. lia.
  - intros Hmany. rewrite filter_keeps_all in Hp; [exact Hp|].
    intros x Hx. now rewrite (Hsame x Hx).
Qed.

(** X23.  When ids tell pairs apart, the [fees] of the group of a
    position is the sum, in [number] arithmetic and in the order of the
    array, starting from zero, of the fee amounts of the positions of
    its pool and symbol, a position without fees counting for zero. *)
Theorem fees_of_group (arr : list PL.t) (v : PL.t) :
  distinct_ids arr -> v ∈ arr ->
  exists out g,
    groupPositionsArray compareString arr = Ok out
    /\ g ∈ out /\ GP.id g = id_of v
    /\ GP.fees g
       = fold_left js_plus
           (map (fun x => match PL.fees x with
                          | Some fees => amount fees
                          | None => S754_zero false
                          end)
                (filtered_like arr v))
           (S754_zero false).
Proof.
  intros Hd Hv.
  destruct (groupPositionsArray_groups compareString arr)
    as (out & Hout & _ & Hids & Hgroups).
  { intros ->. now apply not_elem_of_nil in Hv. }
  assert (id_of v ∈ map GP.id out) as Hk.
  { apply Hids. apply list_elem_of_fmap. now exists v. }
  apply list_elem_of_fmap in Hk as (g & Hid & Hg).
  destruct (group_of_pair _ _ _ _ _ (Hgroups g Hg))
    as (f & Hf & Hfid & _ & _ & _ & Hfees).
  assert (filtered_like arr f = filtered_like arr v) as Hsame.
  { destruct (Hd f v Hf Hv) as [Hp Hs]; [congruence|].
    now apply filtered_like_pair. }
  rewrite Hsame in Hfees.
  exists out, g. repeat split; auto.
Qed.

End GroupPositionsMore.

(** ** calculatePriceDeviationTooHigh, continued *)

Lemma isGreaterThan_PInf_r (x : ext) : isGreaterThan x PInf = false.
Proof. now destruct x. Qed.

Lemma isGreaterThan_NaN_r (x : ext) : isGreaterThan x NaN = false.
Proof. now destruct x. Qed.

Lemma dividedBy_NaN_r (x : BigNumber) : dividedBy x NaN = NaN.
Proof. now destruct x. Qed.

Lemma isGreaterThan_Fin (a b : Q) :
  isGreaterThan (Fin a) (Fin b) = true <-> (b < a)%Q.
Proof.
  cbn [isGreaterThan]. rewrite negb_true_iff. split.
  - intros H. apply Qnot_le_lt. intros Hle.
    apply Qle_bool_iff in Hle. congruence.
  - intros H. destruct (Qle_bool a b) eqn:E; [|reflexivity].
    apply Qle_bool_iff in E. lra.
Qed.

(** X24.  With a maximal deviation of zero every price is rejected:
    both bounds are 1, and nothing is above 1 and below 1. *)
Theorem zero_tolerance_rejects
  (averageRate primary secondary : BigNumber) :
  calculatePriceDeviationTooHigh averageRate primary secondary (ofZ 0) = true.
Proof.
  unfold calculatePriceDeviationTooHigh. cbv zeta.
  set (threshold := dividedBy averageRate (dividedBy primary secondary)).
  assert (dividedBy (minus oneMillion (ofZ 0)) oneMillion = Fin 1) as ->
    by (vm_compute; reflexivity).
  assert (dividedBy oneMillion (minus oneMillion (ofZ 0)) = Fin 1) as ->
    by (vm_compute; reflexivity).
  apply negb_true_iff.
  destruct threshold as [a| | |]; try reflexivity.
  destruct (isGreaterThan (Fin a) (Fin 1)) eqn:Hl; [|reflexivity].
  destruct (isGreaterThan (Fin 1) (Fin a)) eqn:Hu; [|reflexivity].
  apply isGreaterThan_Fin in Hl, Hu. lra.
Qed.

(** X25.  A wider tolerance accepts whatever a narrower one accepts:
    for maximal deviations [d <= d' <= 1000000], a price that is not too
    far off under [d] is not too far off under [d']. *)
Theorem tolerance_monotone
  (averageRate primary secondary : BigNumber) (d d' : Q) :
  (d <= d')%Q -> (d' <= 1000000)%Q ->
  calculatePriceDeviationTooHigh averageRate primary secondary (Fin d) = false ->
  calculatePriceDeviationTooHigh averageRate primary secondary (Fin d') = false.
Proof.
  intros Hdd Hd'. unfold calculatePriceDeviationTooHigh. cbv zeta.
  set (threshold := dividedBy averageRate (dividedBy primary secondary)).
  unfold oneMillion, ofZ, minus.
  set (base := Qred (inject_Z 1000000 - d)).
  set (base' := Qred (inject_Z 1000000 - d')).
  assert (base == 1000000 - d)%Q as Hbase by apply Qred_correct.
  assert (base' == 1000000 - d')%Q as Hbase' by apply Qred_correct.
  destruct (dividedBy_Fin base (inject_Z 1000000)) as (l & -> & Hl);
    [reflexivity|].
  destruct (dividedBy_Fin base' (inject_Z 1000000)) as (l' & -> & Hl');
    [reflexivity|].
  assert (l' <= l)%Q as Hll.
  { rewrite Hl, Hl'. apply round_dp_mono.
    - apply Qle_shift_div_l; [reflexivity|]. rewrite Hbase'. lra.
    - apply Qmult_le_compat_r; [|discriminate]. rewrite Hbase, Hbase'. lra. }
  rewrite !negb_false_iff, !andb_true_iff. intros [HL HU].
  destruct threshold as [a| | |];
    [|now rewrite isGreaterThan_PInf_r in HU|discriminate HL|discriminate HL].
  apply isGreaterThan_Fin in HL. split; [apply isGreaterThan_Fin; lra|].
  destruct (is_zero base') eqn:Hz'.
  { unfold dividedBy, div_with. rewrite Hz'. reflexivity. }
  pose proof (is_zero_false _ Hz') as Hnz'.
  assert (0 < base')%Q as Hpos'.
  { apply Qle_lt_or_eq in Hd'. destruct Hd' as [Hlt|Heq]; [lra|].
    exfalso. apply Hnz'. rewrite Hbase', Heq. reflexivity. }
  assert (0 < base)%Q as Hpos by lra.
  assert (is_zero base = false) as Hz.
  { unfold is_zero. destruct (Qeq_bool base 0) eqn:E; [|reflexivity].
    apply Qeq_bool_iff in E. lra. }
  destruct (dividedBy_Fin (inject_Z 1000000) base Hz) as (u & Eu & Hu).
  destruct (dividedBy_Fin (inject_Z 1000000) base' Hz') as (u' & -> & Hu').
  rewrite Eu in HU. apply isGreaterThan_Fin in HU. apply isGreaterThan_Fin.
  assert (u <= u')%Q as Huu; [|lra].
  rewrite Hu, Hu'. apply round_dp_mono.
  - apply Qle_shift_div_l; [exact Hpos|]. discriminate.
  - apply Qle_shift_div_l; [exact Hpos'|].
    assert (inject_Z 1000000 / base * base == inject_Z 1000000)%Q as Hcancel
      by (field; lra).
    assert (0 <= inject_Z 1000000 / base)%Q as Hnn
      by (apply Qle_shift_div_l; [exact Hpos|discriminate]).
    assert (base' <= base)%Q as Hbb by lra.
    set (x := (inject_Z 1000000 / base)%Q) in *.
    apply Qle_trans with (x * base)%Q; [|now rewrite Hcancel].
    rewrite !(Qmult_comm x). now apply Qmult_le_compat_r.
Qed.

Lemma tolerance_monotone_witness :
  calculatePriceDeviationTooHigh (ofZ 2001) (ofZ 2000) (ofZ 1) (Fin 1000)
  = false
  /\ calculatePriceDeviationTooHigh (ofZ 2001) (ofZ 2000) (ofZ 1) (Fin 5000)
     = false.
Proof.
  assert (calculatePriceDeviationTooHigh (ofZ 2001) (ofZ 2000) (ofZ 1)
            (Fin 1000) = false) as H by (vm_compute; reflexivity).
  split; [exact H|].
  apply (tolerance_monotone (ofZ 2001) (ofZ 2000) (ofZ 1) 1000 5000).
  - unfold Qle; simpl; lia.
  - unfold Qle; simpl; lia.
  - exact H.
Defined.

(** X26.  An argument that is not a number is never accepted: if one
    of the four arguments is [NaN], the deviation is reported too
    high. *)
Theorem not_a_number_rejects
  (averageRate primary secondary maxDeviation : BigNumber) :
  averageRate = NaN \/ primary = NaN \/ secondary = NaN \/ maxDeviation = NaN ->
  calculatePriceDeviationTooHigh averageRate primary secondary maxDeviation
  = true.
Proof.
  unfold calculatePriceDeviationTooHigh. cbv zeta.
  intros [-> | [-> | [-> | ->]]].
  - reflexivity.
  - cbn [dividedBy div_with]. now rewrite dividedBy_NaN_r.
  - now rewrite !dividedBy_NaN_r.
  - cbn [oneMillion ofZ minus]. cbn [dividedBy div_with].
    now rewrite isGreaterThan_NaN_r.
Qed.

Lemma not_a_number_rejects_witness :
  calculatePriceDeviationTooHigh (ofZ 2) NaN (ofZ 1) (ofZ 1000) = true.
Proof.
  apply (not_a_number_rejects (ofZ 2) NaN (ofZ 1) (ofZ 1000)).
  right. left. reflexivity.
Defined.

(** ** The group extras on the sample inputs *)

Lemma collapsedData_of_group_witness :
  distinct_ids two_pools
  /\ exists out,
       groupPositionsArray String.eqb two_pools = Ok out
       /\ forall g, g ∈ out ->
          descending (fun p => PL.unixTime (PL.stake p)) (GP.collapsedData g)
          /\ (length (members (GP.id g) two_pools) = 1%nat
              -> GP.collapsedData g = [])
          /\ ((1 < length (members (GP.id g) two_pools))%nat
              -> Permutation (GP.collapsedData g)
                             (members (GP.id g) two_pools)).
Proof.
  split; [exact distinct_ids_two_pools|].
  apply (collapsedData_of_group String.eqb
           (sample "1" "P1" "BNT" 100 110 5)
           [sample "2" "P2" "ETH" 7 8 1; sample "3" "P1" "BNT" 50 55 2]).
  exact distinct_ids_two_pools.
Defined.

Lemma distinct_ids_tied : distinct_ids tied.
Proof.
  intros x y Hx Hy E. unfold tied in *.
  repeat (apply elem_of_cons in Hx as [->|Hx]);
    try (now apply not_elem_of_nil in Hx);
    repeat (apply elem_of_cons in Hy as [->|Hy]);
    try (now apply not_elem_of_nil in Hy);
    split; reflexivity.
Qed.

Lemma fees_of_group_witness :
  exists out g,
    groupPositionsArray String.eqb tied = Ok out
    /\ g ∈ out /\ GP.id g = id_of (tenths_position "1" 1 0 0 100)
    /\ GP.fees g
       = fold_left js_plus
           (map (fun x => match PL.fees x with
                          | Some fees => amount fees
                          | None => S754_zero false
                          end)
                (filtered_like tied (tenths_position "1" 1 0 0 100)))
           (S754_zero false).
Proof.
  apply (fees_of_group String.eqb tied (tenths_position "1" 1 0 0 100)).
  - exact distinct_ids_tied.
  - left.
Defined.
